(** * raster_to_rgb: scaling of multi-band rasters to 8-bit RGB

    A shallow embedding of [src/raster_to_rgb.py].  NumPy arrays of shape
    (3, H, W) are lists of bands, each band the list of its H*W samples in
    row-major order.  Float64 arithmetic is the kernel's binary64 arithmetic
    ([PrimFloat]), so that every definition below can be evaluated on
    concrete rasters. *)

From Stdlib Require Import Ascii.
From Stdlib Require String.
From Stdlib Require Import ZArith Lia Floats Uint63 Reals Lra.
From stdpp Require Import base list strings pretty gmap.

Local Open Scope Z_scope.

(** Concatenation of strings, as Python's [+]. *)
Infix "+++" := String.append (at level 60, right associativity).

(** ** Results of fallible Python code *)

Inductive exn :=
  | ValueError (msg : string)
  | RasterioIOError (path : string)
  | OSError (path : string).

Inductive result (A : Type) :=
  | Ok (x : A)
  | Raise (e : exn).
Arguments Ok {A} x.
Arguments Raise {A} e.

Definition bind {A B} (r : result A) (k : A → result B) : result B :=
  match r with
  | Ok x => k x
  | Raise e => Raise e
  end.

Notation "x ←! r ; k" := (bind r (λ x, k))
  (at level 20, r at level 100, k at level 200, only parsing).

(** ** NumPy element types *)

(** Conversion of a Python or NumPy integer to float64. *)
Definition float_of_Z (z : Z) : float :=
  if z <? 0 then PrimFloat.opp (of_uint63 (of_Z (- z))) else of_uint63 (of_Z z).

(** What the code needs from the element type of the raster. *)
Class Dtype (T : Type) := {
  (** the float64 the sample is converted to by true division and by
      operations with a Python float *)
  as_float64 : T → float;
  (** [x - y] between values of the element type *)
  np_sub : T → T → T;
  (** [x == y] between scalars of the element type *)
  np_eqb : T → T → bool;
  (** the step of the reductions [np.min] and [np.max] *)
  np_minimum : T → T → T;
  np_maximum : T → T → T;
  (** [np.isnan] *)
  np_isnan : T → bool;
  (** a Python integer used with an array of this type *)
  of_pyint : Z → T;
}.

(** 16-bit integers: arithmetic wraps around. *)
Record uint16 := U16 { u16 : Z }.
Record int16 := I16 { i16 : Z }.

Definition wrap_u16 (z : Z) : Z := z mod 65536.
Definition wrap_i16 (z : Z) : Z := (z + 32768) mod 65536 - 32768.

#[export] Instance uint16_dtype : Dtype uint16 := {
  as_float64 x := float_of_Z (u16 x);
  np_sub x y := U16 (wrap_u16 (u16 x - u16 y));
  np_eqb x y := u16 x =? u16 y;
  np_minimum x y := if u16 x <=? u16 y then x else y;
  np_maximum x y := if u16 y <=? u16 x then x else y;
  np_isnan _ := false;
  of_pyint z := U16 (wrap_u16 z);
}.

#[export] Instance int16_dtype : Dtype int16 := {
  as_float64 x := float_of_Z (i16 x);
  np_sub x y := I16 (wrap_i16 (i16 x - i16 y));
  np_eqb x y := i16 x =? i16 y;
  np_minimum x y := if i16 x <=? i16 y then x else y;
  np_maximum x y := if i16 y <=? i16 x then x else y;
  np_isnan _ := false;
  of_pyint z := I16 (wrap_i16 z);
}.

(** float64: the reductions propagate NaN; of two equal values (the two
    zeros) the second is kept, as by NumPy's [(a < b || isnan(a)) ? a : b]. *)
#[export] Instance float64_dtype : Dtype float := {
  as_float64 x := x;
  np_sub x y := PrimFloat.sub x y;
  np_eqb x y := PrimFloat.eqb x y;
  np_minimum x y := if PrimFloat.ltb x y || is_nan x then x else y;
  np_maximum x y := if PrimFloat.ltb y x || is_nan x then x else y;
  np_isnan x := is_nan x;
  of_pyint z := float_of_Z z;
}.

(** A scalar operand: a NumPy scalar of the array's type (the result of
    [np.min]) or a Python integer (the fallback [0] and [1]). *)
Inductive scalar (T : Type) :=
  | NpScalar (x : T)
  | PyInt (z : Z).
Arguments NpScalar {T} x.
Arguments PyInt {T} z.

Section Scalars.
Context {T : Type} `{Dtype T}.

(** A Python integer takes the type of the array it meets. *)
Definition to_dtype (k : scalar T) : T :=
  match k with
  | NpScalar x => x
  | PyInt z => of_pyint z
  end.

Definition scalar_float (k : scalar T) : float :=
  match k with
  | NpScalar x => as_float64 x
  | PyInt z => float_of_Z z
  end.

Definition scalar_sub (x y : scalar T) : scalar T :=
  match x, y with
  | PyInt a, PyInt b => PyInt (a - b)
  | _, _ => NpScalar (np_sub (to_dtype x) (to_dtype y))
  end.

Definition scalar_eqb (x y : scalar T) : bool :=
  match x, y with
  | PyInt a, PyInt b => a =? b
  | _, _ => np_eqb (to_dtype x) (to_dtype y)
  end.
End Scalars.

(** ** Array operations *)

Abbreviation ndarray A := (list (list A)).

Definition map2d {A B} (g : A → B) (a : ndarray A) : ndarray B :=
  fmap (M:=list) (fmap (M:=list) g) a.

Section Arrays.
Context {T : Type} `{Dtype T}.

(** [a != nodata] with [nodata] a Python float. *)
Definition not_equal (a : ndarray T) (nodata : float) : ndarray bool :=
  map2d (λ s, negb (PrimFloat.eqb (as_float64 s) nodata)) a.

Definition isnan_array (a : ndarray T) : ndarray bool := map2d np_isnan a.

Definition invert (m : ndarray bool) : ndarray bool := map2d negb m.

Definition np_any (m : ndarray bool) : bool := existsb (existsb (λ b : bool, b)) m.

(** [a[m]]: the samples where the mask holds, in row-major order. *)
Fixpoint compress {A} (m : list bool) (l : list A) : list A :=
  match m, l with
  | b :: m', x :: l' => if b then x :: compress m' l' else compress m' l'
  | _, _ => []
  end.

Definition mask_index (a : ndarray T) (m : ndarray bool) : list T :=
  concat (zip_with compress m a).

(** [np.min] and [np.max] of a one-dimensional array; they raise on an
    empty one. *)
Definition np_min (l : list T) : result T :=
  match l with
  | [] => Raise (ValueError "zero-size array to reduction operation minimum which has no identity")
  | x :: l' => Ok (foldl np_minimum x l')
  end.

Definition np_max (l : list T) : result T :=
  match l with
  | [] => Raise (ValueError "zero-size array to reduction operation maximum which has no identity")
  | x :: l' => Ok (foldl np_maximum x l')
  end.

Definition zeros_like {A} (a : ndarray A) : ndarray Z := map2d (λ _, 0) a.
End Arrays.

(** [np.where(m, a, 0)] on a float64 array. *)
Definition where_ (m : ndarray bool) (a : ndarray float) (other : float) : ndarray float :=
  zip_with (zip_with (λ (b : bool) x, if b then x else other)) m a.

(** [np.clip] on float64: max then min, a NaN stays a NaN. *)
Definition fmax (x y : float) : float :=
  if is_nan x then x else if PrimFloat.ltb y x then x else y.
Definition fmin (x y : float) : float :=
  if is_nan x then x else if PrimFloat.ltb x y then x else y.
Definition clip1 (x lo hi : float) : float := fmin (fmax x lo) hi.
Definition clip (a : ndarray float) (lo hi : float) : ndarray float :=
  map2d (λ x, clip1 x lo hi) a.

(** [astype(np.uint8)] on float64: the fraction is dropped (C conversion),
    then the low eight bits are kept.  On NaN and the infinities the C
    conversion yields 0 on the usual platforms. *)
Definition truncate_SF (x : spec_float) : Z :=
  match x with
  | S754_finite s m e => cond_Zopp s (Z.shiftl (Zpos m) e)
  | _ => 0
  end.
Definition truncate (x : float) : Z := truncate_SF (Prim2SF x).
Definition to_uint8 (x : float) : Z := truncate x mod 256.

(** The 8-bit value of a scaled sample: clip, then cast. *)
Definition quantize (p : float) : Z := to_uint8 (clip1 p 0 255).
Definition astype_uint8 (a : ndarray float) : ndarray Z := map2d to_uint8 a.

(** ** [scale_to_8bit] *)

Section Scaling.
Context {T : Type} `{Dtype T}.

(** Lines 59-62 and 126-129: the mask of valid data. *)
Definition valid_mask (bands_data : ndarray T) (nodata : option float) : ndarray bool :=
  match nodata with
  | Some nd => not_equal bands_data nd
  | None => invert (isnan_array bands_data)
  end.

(** The same on one sample. *)
Definition valid_sample (nodata : option float) (s : T) : bool :=
  match nodata with
  | Some nd => negb (PrimFloat.eqb (as_float64 s) nd)
  | None => negb (np_isnan s)
  end.

(** Lines 65-71: global min and max across all three bands. *)
Definition global_min_max (bands_data : ndarray T) (mask : ndarray bool)
  : result (scalar T * scalar T) :=
  if np_any mask then
    global_min ←! np_min (mask_index bands_data mask);
    global_max ←! np_max (mask_index bands_data mask);
    Ok (NpScalar global_min, NpScalar global_max)
  else
    Ok (PyInt 0, PyInt 1).

(** Line 78 on one sample. *)
Definition scaled_sample (global_min global_max : scalar T) (s : T) : float :=
  (as_float64 (np_sub s (to_dtype global_min))
   / scalar_float (scalar_sub global_max global_min) * 255)%float.

Definition scale_to_8bit (bands_data : ndarray T) (nodata : option float)
  : result (ndarray Z) :=
  let mask := valid_mask bands_data nodata in
  domain ←! global_min_max bands_data mask;
  let '(global_min, global_max) := domain in
  if scalar_eqb global_max global_min then
    Ok (zeros_like bands_data)
  else
    let scaled := map2d (scaled_sample global_min global_max) bands_data in
    let scaled := where_ mask scaled 0%float in
    Ok (astype_uint8 (clip scaled 0%float 255%float)).

(** Lines 125-137 of [convert_raster_to_rgb]: scaling with the provided
    values, which are Python floats. *)
Definition scaled_sample_explicit (min_value max_value : float) (s : T) : float :=
  ((as_float64 s - min_value) / (max_value - min_value) * 255)%float.

Definition scale_explicit (band_data : ndarray T) (nodata : option float)
    (min_value max_value : float) : ndarray Z :=
  let mask := valid_mask band_data nodata in
  if PrimFloat.eqb max_value min_value then
    zeros_like band_data
  else
    let scaled_data := map2d (scaled_sample_explicit min_value max_value) band_data in
    let scaled_data := where_ mask scaled_data 0%float in
    astype_uint8 (clip scaled_data 0%float 255%float).

(** Lines 124-140: the choice between the two. *)
Definition scale (band_data : ndarray T) (nodata : option float)
    (min_value max_value : option float) : result (ndarray Z) :=
  match min_value, max_value with
  | Some lo, Some hi => Ok (scale_explicit band_data nodata lo hi)
  | _, _ => scale_to_8bit band_data nodata
  end.

(** The scaling domain the two branches work with: the provided values,
    or the global min and max of lines 65-71. *)
Inductive domain :=
  | Provided (min_value max_value : float)
  | Computed (global_min global_max : scalar T).

Definition scaling_domain (band_data : ndarray T) (nodata : option float)
    (min_value max_value : option float) : result domain :=
  match min_value, max_value with
  | Some lo, Some hi => Ok (Provided lo hi)
  | _, _ =>
      dom ←! global_min_max band_data (valid_mask band_data nodata);
      Ok (Computed dom.1 dom.2)
  end.

(** The tests of lines 74 and 132. *)
Definition degenerate (dom : domain) : bool :=
  match dom with
  | Provided min_value max_value => PrimFloat.eqb max_value min_value
  | Computed global_min global_max => scalar_eqb global_max global_min
  end.

(** Lines 78 and 135 on one sample. *)
Definition scaled (dom : domain) (s : T) : float :=
  match dom with
  | Provided min_value max_value => scaled_sample_explicit min_value max_value s
  | Computed global_min global_max => scaled_sample global_min global_max s
  end.
End Scaling.
Arguments domain T : clear implicits.

(** ** The formula of the specification

    [clip(round(x), 0, 255)], with the rounding to the nearest integer of
    [numpy.round] (ties to the even neighbour). *)
Definition round_nearest (x : float) : Z :=
  match Prim2SF x with
  | S754_finite sg m e =>
      if 0 <=? e then cond_Zopp sg (Z.shiftl (Zpos m) e)
      else
        let q := Z.shiftr (Zpos m) (- e) in
        let twice_rest := 2 * (Zpos m - Z.shiftl q (- e)) in
        let unit := Z.shiftl 1 (- e) in
        cond_Zopp sg (if (twice_rest <? unit) || ((twice_rest =? unit) && Z.even q)
                      then q else q + 1)
  | _ => 0
  end.

Definition clip_round (x : float) : Z := Z.min 255 (Z.max 0 (round_nearest x)).

(** [(s - low) / (high - low) * 255] on the float64 values of the sample and
    of the bounds. *)
Definition linear_scaled (low high s : float) : float := ((s - low) / (high - low) * 255)%float.

(** ** The validity rule of the specification

    With a sentinel, a sample is valid iff it is not bit-exactly equal to it:
    the equality of the floats themselves, which tells the two zeros apart. *)
Definition bit_equal (x y : float) : bool := PrimFloat.Leibniz.eqb x y.

Definition claimed_valid (nodata : float) (x : float) : bool := negb (bit_equal x nodata).

(** ** Positions of an array *)

Definition lookup2 {A} (a : ndarray A) (c i : nat) : option A :=
  a !! c ≫= λ row, row !! i.

Definition shape {A} (a : ndarray A) : list nat := length <$> a.

(** ** Paths: [os.path.splitext] *)

Definition newline : string := String (Ascii.ascii_of_nat 10) EmptyString.

(** [p.rfind(c)]: the last index of [c], or -1. *)
Fixpoint rfind_from (c : Ascii.ascii) (p : string) (i last : Z) : Z :=
  match p with
  | EmptyString => last
  | String x p' => rfind_from c p' (i + 1) (if Ascii.eqb x c then i else last)
  end.
Definition rfind (p : string) (c : Ascii.ascii) : Z := rfind_from c p 0 (-1).

(** [p[:n]] and [p[n:]]. *)
Fixpoint str_take (n : nat) (p : string) : string :=
  match n, p with
  | S n', String x p' => String x (str_take n' p')
  | _, _ => EmptyString
  end.
Fixpoint str_drop (n : nat) (p : string) : string :=
  match n, p with
  | S n', String _ p' => str_drop n' p'
  | _, _ => p
  end.

(** The loop of [genericpath._splitext] that skips the leading dots of the
    file name: [true] when a character other than the dot is met before
    [dotIndex]; [steps] is the number of indices left to visit. *)
Fixpoint name_before_dot (p : string) (filenameIndex steps : nat) : bool :=
  match steps with
  | O => false
  | S steps' =>
      match String.get filenameIndex p with
      | Some "."%char => name_before_dot p (S filenameIndex) steps'
      | _ => true
      end
  end.

Definition splitext (p : string) : string * string :=
  let sepIndex := rfind p "/" in
  let dotIndex := rfind p "." in
  if (sepIndex <? dotIndex)
     && name_before_dot p (Z.to_nat (sepIndex + 1)) (Z.to_nat (dotIndex - (sepIndex + 1)))
  then (str_take (Z.to_nat dotIndex) p, str_drop (Z.to_nat dotIndex) p)
  else (p, EmptyString).

(** [s.split(c)]. *)
Fixpoint split_on (c : Ascii.ascii) (s : string) : list string :=
  match s with
  | EmptyString => [EmptyString]
  | String x s' =>
      if Ascii.eqb x c then EmptyString :: split_on c s'
      else match split_on c s' with
           | w :: ws => String x w :: ws
           | [] => [String x EmptyString]
           end
  end.

(** [c in s]. *)
Fixpoint contains (c : Ascii.ascii) (s : string) : bool :=
  match s with
  | EmptyString => false
  | String x s' => Ascii.eqb x c || contains c s'
  end.

(** An extension as [splitext] returns it: empty, or a dot followed by
    characters that are neither a dot nor the separator of paths. *)
Definition is_extension (ext : string) : Prop :=
  ext = EmptyString
  ∨ ∃ rest, ext = String "." rest ∧ contains "." rest = false ∧ contains "/" rest = false.

(** ** The pipeline and its files *)

Module Affine.
(** The coefficients of a rasterio transform: [a] pixel width, [b] row
    rotation, [c] x of the upper left corner, [d] column rotation, [e]
    pixel height, [f] y of the upper left corner. *)
Record t := mk { a : float; b : float; c : float; d : float; e : float; f : float }.
End Affine.

Module Args.
(** The parsed command line. *)
Record t := mk {
  input : string; output : string;
  red : Z; green : Z; blue : Z;
  min : option float; max : option float }.
End Args.

Definition is_not_None {A} (x : option A) : bool :=
  match x with
  | Some _ => true
  | None => false
  end.

Inductive message :=
  | Text (line : string)
  | ErrorOf (e : exn).     (* f"Error: {e}" *)

Inductive event :=
  | EvExists (path : string)    (* os.path.exists *)
  | EvOpen (path : string)      (* rasterio.open for reading *)
  | EvRead (band : Z)           (* src.read *)
  | EvCreate (path : string).   (* a file opened for writing, or the attempt *)

Section Pipeline.
Context {T : Type} `{Dtype T}.

(** Python's formatting of a float inside an f-string. *)
Variable float_repr : float → string.

Record dataset := Dataset {
  ds_bands : ndarray T;          (* one list of samples per band *)
  ds_nodata : option float;      (* src.nodata *)
  ds_transform : Affine.t }.

Inductive file :=
  | RasterFile (src : dataset)
  | GTiffFile (red green blue : list Z) (transform : Affine.t)
  | TextFile (content : string).

(** The file system: the files, by path, and the paths at which a file can
    be created or overwritten (the directory is there, the permissions allow
    it). *)
Record filesystem := Filesystem {
  files : gmap string file;
  creatable : string → bool }.

#[export] Instance filesystem_lookup : Lookup string file filesystem :=
  λ path m, files m !! path.
#[export] Instance filesystem_insert : Insert string file filesystem :=
  λ path x m, Filesystem (<[path := x]> (files m)) (creatable m).

Record world := World {
  fs : filesystem;
  trace : list event;            (* file operations, oldest first *)
  stderr : list message }.      (* what the program prints on sys.stderr; the
                                    warnings of NumPy are not modelled *)

Definition io (A : Type) : Type := world → result A * world.

Definition ret {A} (x : A) : io A := λ w, (Ok x, w).
Definition raise {A} (e : exn) : io A := λ w, (Raise e, w).
Definition bind_io {A B} (m : io A) (k : A → io B) : io B :=
  λ w, match m w with
       | (Ok x, w') => k x w'
       | (Raise e, w') => (Raise e, w')
       end.
Definition log (ev : event) : io () :=
  λ w, (Ok tt, World (fs w) (trace w ++ [ev]) (stderr w)).
(** A file opened for writing and written.  Where no file can be created
    the opening raises [e], and nothing is written. *)
Definition store (e : exn) (path : string) (x : file) : io () :=
  λ w, if creatable (fs w) path
       then (Ok tt, World (<[path := x]> (fs w)) (trace w ++ [EvCreate path]) (stderr w))
       else (Raise e, World (fs w) (trace w ++ [EvCreate path]) (stderr w)).
Definition lift {A} (r : result A) : io A := λ w, (r, w).

Notation "'let!' x ':=' m 'in' k" := (bind_io m (λ x, k))
  (at level 10, x name, m at level 100, k at level 200, only parsing).

(** Lines 17-44. *)
Definition create_world_file (transform : Affine.t) (output_path : string) : io string :=
  let base_path := (splitext output_path).1 in
  let tfw_path := base_path +++ ".tfw" in
  let f := EmptyString in
  let f := f +++ float_repr (Affine.a transform) +++ newline in
  let f := f +++ float_repr (Affine.b transform) +++ newline in
  let f := f +++ float_repr (Affine.d transform) +++ newline in
  let f := f +++ float_repr (Affine.e transform) +++ newline in
  let f := f +++ float_repr (Affine.c transform) +++ newline in
  let f := f +++ float_repr (Affine.f transform) +++ newline in
  let! _ := store (OSError tfw_path) tfw_path (TextFile f) in
  ret tfw_path.

Definition rasterio_open (path : string) : io dataset :=
  let! _ := log (EvOpen path) in
  λ w, match fs w !! path with
       | Some (RasterFile src) => (Ok src, w)
       | _ => (Raise (RasterioIOError path), w)
       end.

Definition count (src : dataset) : Z := Z.of_nat (length (ds_bands src)).

(** [src.read(band)], bands counted from 1. *)
Definition read (src : dataset) (band : Z) : io (list T) :=
  let! _ := log (EvRead band) in
  match ds_bands src !! Z.to_nat (band - 1) with
  | Some samples => if 1 <=? band then ret samples else raise (ValueError "band index out of range")
  | None => raise (ValueError "band index out of range")
  end.

(** Lines 107-110: the loop that validates the band indices. *)
Fixpoint validate_bands (bands : list (Z * string)) (num_bands : Z) : io () :=
  match bands with
  | [] => ret tt
  | (band_idx, band_name) :: rest =>
      if (band_idx <? 1) || (num_bands <? band_idx) then
        raise (ValueError (band_name +++ " band index " +++ pretty band_idx
                           +++ " is out of range. File has " +++ pretty num_bands
                           +++ " bands."))
      else validate_bands rest num_bands
  end.

(** Lines 89-177; the messages printed on standard output are left out. *)
Definition convert_raster_to_rgb (input_path output_path : string)
    (band_r band_g band_b : Z) (min_value max_value : option float) : io () :=
  let! src := rasterio_open input_path in
  let num_bands := count src in
  let! _ := validate_bands [(band_r, "Red"); (band_g, "Green"); (band_b, "Blue")] num_bands in
  let! r := read src band_r in
  let! g := read src band_g in
  let! b := read src band_b in
  let band_data := [r; g; b] in
  let nodata := ds_nodata src in
  let! scaled_data := lift (scale band_data nodata min_value max_value) in
  let! _ := store (RasterioIOError output_path) output_path
              (GTiffFile (scaled_data !!! 0%nat) (scaled_data !!! 1%nat)
                         (scaled_data !!! 2%nat) (ds_transform src)) in
  let! tfw_path := create_world_file (ds_transform src) output_path in
  ret tt.

Definition path_exists (path : string) : io bool :=
  let! _ := log (EvExists path) in
  λ w, (Ok (bool_decide (is_Some (fs w !! path))), w).

Definition eprint (m : message) : io () :=
  λ w, (Ok tt, World (fs w) (trace w) (stderr w ++ [m])).

(** Lines 180-236, after the command line is parsed: the exit status and
    the world the program leaves. *)
Definition main (args : Args.t) (w : world) : Z * world :=
  let run : io Z :=
    let! found := path_exists (Args.input args) in
    if negb found then
      let! _ := eprint (Text ("Error: Input file '" +++ Args.input args +++ "' not found.")) in
      ret 1
    else if xorb (is_not_None (Args.min args)) (is_not_None (Args.max args)) then
      let! _ := eprint (Text "Error: Both --min and --max must be specified together.") in
      ret 1
    else
      λ w, match convert_raster_to_rgb (Args.input args) (Args.output args)
                   (Args.red args) (Args.green args) (Args.blue args)
                   (Args.min args) (Args.max args) w with
           | (Ok _, w') => (Ok 0, w')
           | (Raise e, w') => (let! _ := eprint (ErrorOf e) in ret 1) w'
           end in
  match run w with
  | (Ok status, w') => (status, w')
  | (Raise _, w') => (1, w')
  end.
End Pipeline.

(** ** A small raster on disk *)

Definition example_transform : Affine.t :=
  Affine.mk 30%float 0%float 500000%float 0%float (-30)%float 4100000%float.

Definition example_dataset : dataset (T:=uint16) :=
  Dataset [[U16 0; U16 10000]; [U16 0; U16 8000]; [U16 12000; U16 0]]
          None example_transform.

(** The raster is there; a file can be created anywhere but under the
    directory [nodir], which does not exist. *)
Definition example_world : world (T:=uint16) :=
  World (Filesystem {["in.tif" := RasterFile example_dataset]}
                    (λ path, negb (String.prefix "nodir/" path))) [] [].

(** A stand-in for the formatting of floats, right on the coefficients of
    the example. *)
Definition example_repr (x : float) : string :=
  if PrimFloat.eqb x 30 then "30.0"
  else if PrimFloat.eqb x (-30) then "-30.0"
  else if PrimFloat.eqb x 0 then "0.0"
  else if PrimFloat.eqb x 500000 then "500000.0"
  else if PrimFloat.eqb x 4100000 then "4100000.0"
  else "nan".

(** ** Binary64 arithmetic against the real numbers

    What the proofs about the float64 operations are stated with: the order
    of the floats as an order of integers, their values as real numbers, and
    rounding to nearest as a relation between a real and a float. *)

(** The place of a float in the order of the binary64 values: the integer
    its bits spell, with the sign applied. *)
Definition key (x : spec_float) : Z :=
  match x with
  | S754_zero _ => 0
  | S754_nan => 0
  | S754_infinity s => cond_Zopp s (2047 * 2 ^ 53)
  | S754_finite s m e => cond_Zopp s ((e + 1075) * 2 ^ 53 + Zpos m)
  end.

Definition fkey (x : float) : Z := key (Prim2SF x).

(** Powers of two as real numbers. *)
Definition bpow (e : Z) : R := powerRZ 2 e.

(** [y] lies in the unit interval that starts at [m], at the place [l]
    tells. *)
Definition located (m : Z) (l : location) (y : R) : Prop :=
  match l with
  | loc_Exact => y = IZR m
  | loc_Inexact Lt => (IZR m < y < IZR m + / 2)%R
  | loc_Inexact Eq => y = (IZR m + / 2)%R
  | loc_Inexact Gt => (IZR m + / 2 < y < IZR m + 1)%R
  end.

(** [m] at exponent [e] is the rounding to nearest, ties to even, of the
    positive real [x] in binary64: [e] is the exponent of the format at [x]
    and [m] the integer nearest to [x / 2^e]. *)
Definition rounds_to (x : R) (m e : Z) : Prop :=
  -1074 ≤ e ∧ 0 ≤ m
  ∧ (x < bpow (e + 53))%R
  ∧ (e = -1074 ∨ (bpow (e + 52) <= x)%R)
  ∧ (Rabs (x - IZR m * bpow e) <= bpow e / 2)%R
  ∧ ((Rabs (x - IZR m * bpow e) = bpow e / 2)%R → Z.even m = true).

(** The float of sign [s] such a rounding denotes. *)
Definition pack (s : bool) (m e : Z) : spec_float :=
  if m =? 0 then S754_zero s
  else if m =? 2 ^ 53 then
    if e + 1 <=? 971 then S754_finite s (Z.to_pos (2 ^ 52)) (e + 1) else S754_infinity s
  else
    if e <=? 971 then S754_finite s (Z.to_pos m) e else S754_infinity s.

(** The rounding of any real: the sign is kept, zero gives a zero. *)
Definition Rnd (x : R) (r : spec_float) : Prop :=
  (x = 0%R ∧ ∃ s, r = S754_zero s)
  ∨ ((0 < x)%R ∧ ∃ m e, rounds_to x m e ∧ r = pack false m e)
  ∨ ((x < 0)%R ∧ ∃ m e, rounds_to (- x) m e ∧ r = pack true m e).

Definition F2R (x : spec_float) : R :=
  match x with
  | S754_finite s m e => ((if s then -1 else 1) * IZR (Zpos m) * bpow e)%R
  | _ => 0%R
  end.

Definition is_finite_SF (x : spec_float) : bool :=
  match x with
  | S754_finite _ _ _ | S754_zero _ => true
  | _ => false
  end.

(** The scaled value of an integer difference [a] over an integer range
    [d]. *)
Definition scaled_int (a d : Z) : Z := quantize (float_of_Z a / float_of_Z d * 255).

(** ** The scenario of the joint domain

    A band whose valid samples range over [[a, b]], both ends reached. *)
Definition has_valid_range (nodata : option float) (band : list uint16) (a b : Z) : Prop :=
  (∀ s, s ∈ band → valid_sample nodata s = true → a ≤ u16 s ≤ b)
  ∧ (∃ s, s ∈ band ∧ valid_sample nodata s = true ∧ u16 s = a)
  ∧ (∃ s, s ∈ band ∧ valid_sample nodata s = true ∧ u16 s = b).

(** ** Names of hidden files *)

(** A run of [n] dots, as at the head of the name of a hidden file. *)
Fixpoint dots (n : nat) : string :=
  match n with
  | O => EmptyString
  | S n' => String "." (dots n')
  end.

(** * Properties *)

(** ** The order and the rounding of binary64 *)

Lemma digits2_pos_bound (m : positive) : Zpos m < 2 ^ Zpos (digits2_pos m).
Proof.
  induction m as [m IH|m IH|]; simpl digits2_pos.
  - rewrite Pos2Z.inj_succ, Z.pow_succ_r by lia. lia.
  - rewrite Pos2Z.inj_succ, Z.pow_succ_r by lia. lia.
  - reflexivity.
Qed.

Lemma digits2_pos_lower (m : positive) : 2 ^ (Zpos (digits2_pos m) - 1) ≤ Zpos m.
Proof.
  induction m as [m IH|m IH|]; simpl digits2_pos.
  - rewrite Pos2Z.inj_succ. replace (Z.succ (Zpos (digits2_pos m)) - 1) with (Z.succ (Zpos (digits2_pos m) - 1)) by lia.
    rewrite Z.pow_succ_r by lia. lia.
  - rewrite Pos2Z.inj_succ. replace (Z.succ (Zpos (digits2_pos m)) - 1) with (Z.succ (Zpos (digits2_pos m) - 1)) by lia.
    rewrite Z.pow_succ_r by lia. lia.
  - reflexivity.
Qed.

Lemma bounded_inv m e :
  SpecFloat.bounded prec emax m e = true →
  Zpos m < 2 ^ 53 ∧ -1074 ≤ e ≤ 971 ∧ (e = -1074 ∨ 2 ^ 52 ≤ Zpos m).
Proof.
  unfold SpecFloat.bounded, canonical_mantissa, fexp, SpecFloat.emin, prec, emax.
  intros [Hc He]%andb_prop. apply Z.eqb_eq in Hc. apply Z.leb_le in He.
  pose proof (digits2_pos_bound m). pose proof (digits2_pos_lower m).
  assert (Zpos (digits2_pos m) ≤ 53) by lia.
  split; [|split; [lia|]].
  - eapply Z.lt_le_trans; [done|]. apply Z.pow_le_mono_r; lia.
  - destruct (decide (e = -1074)); [by left|right].
    assert (Zpos (digits2_pos m) = 53) as Hd by lia. rewrite Hd in *. done.
Qed.

Ltac solve_compare :=
  f_equal; symmetry;
  first [ apply Z.compare_eq_iff; lia | apply Z.compare_lt_iff; lia | apply Z.compare_gt_iff; lia
        | apply Z.compare_lt_iff; nia | apply Z.compare_gt_iff; nia ].

Lemma SFcompare_key x y :
  valid_binary x = true → valid_binary y = true →
  x ≠ S754_nan → y ≠ S754_nan →
  SFcompare x y = Some (key x ?= key y).
Proof.
  intros Hx Hy Hnx Hny.
  destruct x as [sx|sx| |sx mx ex], y as [sy|sy| |sy my ey]; try done;
    unfold valid_binary in Hx, Hy;
    try apply bounded_inv in Hx; try apply bounded_inv in Hy;
    unfold SFcompare, key, cond_Zopp.
  all: try (destruct sx; solve_compare).
  all: try (destruct sy; solve_compare).
  all: try (destruct sx, sy; solve_compare).
  change (PosDef.Pos.compare_cont Eq mx my) with (Zpos mx ?= Zpos my).
  destruct sx, sy; try solve_compare.
  - destruct (Z.compare_spec ex ey) as [->|Hlt|Hgt]; try solve_compare.
    destruct (Z.compare_spec (Zpos mx) (Zpos my)) as [Heq|Hlt|Hgt]; simpl CompOpp; solve_compare.
  - destruct (Z.compare_spec ex ey) as [->|Hlt|Hgt]; try solve_compare.
    destruct (Z.compare_spec (Zpos mx) (Zpos my)) as [Heq|Hlt|Hgt]; solve_compare.
Qed.


Lemma is_nan_spec (x : float) : is_nan x = true ↔ Prim2SF x = S754_nan.
Proof.
  unfold is_nan. rewrite FloatAxioms.eqb_spec. unfold SFeqb.
  pose proof (Prim2SF_valid x) as Hv.
  destruct (Prim2SF x) as [s|s| |s m e] eqn:Hx; try (rewrite SFcompare_key by done;
    rewrite Z.compare_refl; simpl; split; done).
  simpl. done.
Qed.

Lemma is_nan_false (x : float) : is_nan x = false ↔ Prim2SF x ≠ S754_nan.
Proof. rewrite <- is_nan_spec. destruct (is_nan x); split; done. Qed.

Lemma compare_key (x y : float) :
  is_nan x = false → is_nan y = false →
  SFcompare (Prim2SF x) (Prim2SF y) = Some (fkey x ?= fkey y).
Proof.
  intros Hx%is_nan_false Hy%is_nan_false.
  apply SFcompare_key; (done || apply Prim2SF_valid).
Qed.

Lemma leb_key (x y : float) :
  is_nan x = false → is_nan y = false →
  PrimFloat.leb x y = (fkey x <=? fkey y).
Proof.
  intros Hx Hy. rewrite FloatAxioms.leb_spec. unfold SFleb. rewrite compare_key by done.
  unfold Z.leb. by destruct (fkey x ?= fkey y).
Qed.

Lemma ltb_key (x y : float) :
  is_nan x = false → is_nan y = false →
  PrimFloat.ltb x y = (fkey x <? fkey y).
Proof.
  intros Hx Hy. rewrite FloatAxioms.ltb_spec. unfold SFltb. rewrite compare_key by done.
  unfold Z.ltb. by destruct (fkey x ?= fkey y).
Qed.

Lemma eqb_key (x y : float) :
  is_nan x = false → is_nan y = false →
  PrimFloat.eqb x y = (fkey x =? fkey y).
Proof.
  intros Hx Hy. rewrite FloatAxioms.eqb_spec. unfold SFeqb. rewrite compare_key by done.
  rewrite Z.eqb_compare. by destruct (fkey x ?= fkey y).
Qed.

Lemma nan_compare_l (x y : float) :
  is_nan x = true →
  PrimFloat.leb x y = false ∧ PrimFloat.ltb x y = false ∧ PrimFloat.eqb x y = false
  ∧ PrimFloat.leb y x = false ∧ PrimFloat.ltb y x = false ∧ PrimFloat.eqb y x = false.
Proof.
  intros Hx%is_nan_spec.
  rewrite !FloatAxioms.leb_spec, !FloatAxioms.ltb_spec, !FloatAxioms.eqb_spec. unfold SFleb, SFltb, SFeqb. rewrite Hx.
  destruct (Prim2SF y) as [[]|[]| |[] ? ?]; simpl; repeat split; reflexivity.
Qed.

Lemma leb_true_not_nan (x y : float) :
  PrimFloat.leb x y = true → is_nan x = false ∧ is_nan y = false.
Proof.
  intros Hle. split.
  - destruct (is_nan x) eqn:Hx; [|done]. destruct (nan_compare_l x y Hx). congruence.
  - destruct (is_nan y) eqn:Hy; [|done]. destruct (nan_compare_l y x Hy) as (_&_&_&?&_). congruence.
Qed.

Lemma ltb_true_not_nan (x y : float) :
  PrimFloat.ltb x y = true → is_nan x = false ∧ is_nan y = false.
Proof.
  intros Hle. split.
  - destruct (is_nan x) eqn:Hx; [|done]. destruct (nan_compare_l x y Hx) as (_&?&_). congruence.
  - destruct (is_nan y) eqn:Hy; [|done]. destruct (nan_compare_l y x Hy) as (_&_&_&_&?&_). congruence.
Qed.

Lemma eqb_true_not_nan (x y : float) :
  PrimFloat.eqb x y = true → is_nan x = false ∧ is_nan y = false.
Proof.
  intros Hle. split.
  - destruct (is_nan x) eqn:Hx; [|done]. destruct (nan_compare_l x y Hx) as (_&_&?&_). congruence.
  - destruct (is_nan y) eqn:Hy; [|done]. destruct (nan_compare_l y x Hy) as (_&_&_&_&_&?). congruence.
Qed.

(** Two valid floats at the same place are the same, unless both are zeros. *)
Lemma key_inj x y :
  valid_binary x = true → valid_binary y = true →
  x ≠ S754_nan → y ≠ S754_nan →
  key x = key y → x = y ∨ (∃ sx sy, x = S754_zero sx ∧ y = S754_zero sy).
Proof.
  intros Hx Hy Hnx Hny.
  destruct x as [sx|sx| |sx mx ex], y as [sy|sy| |sy my ey]; try done;
    unfold valid_binary in Hx, Hy;
    try apply bounded_inv in Hx; try apply bounded_inv in Hy;
    unfold key, cond_Zopp; intros Hk.
  all: try (right; eauto; fail).
  all: try (destruct sx; lia).
  all: try (destruct sy; lia).
  all: try (destruct sx, sy; (lia || by left)).
  left.
  assert (sx = sy) as -> by (destruct sx, sy; (done || lia)).
  assert ((ex + 1075) * 2 ^ 53 + Z.pos mx = (ey + 1075) * 2 ^ 53 + Z.pos my) as Hk'
    by (destruct sy; lia).
  assert (ex = ey) as -> by nia.
  assert (mx = my) as -> by lia. done.
Qed.

Lemma is_zero_spec (x : float) :
  PrimFloat.is_zero x = true ↔ ∃ s, Prim2SF x = S754_zero s.
Proof.
  unfold PrimFloat.is_zero. rewrite FloatAxioms.eqb_spec. unfold SFeqb.
  change (Prim2SF PrimFloat.zero) with (S754_zero false).
  split.
  - destruct (Prim2SF x) as [s|s| |s m e]; simpl; eauto; try done.
    all: by destruct s.
  - intros [s ->]. done.
Qed.

(** [==] on floats against equality of the values themselves. *)
Lemma eqb_true_iff (x y : float) :
  is_nan x = false → is_nan y = false →
  PrimFloat.eqb x y = true ↔ x = y ∨ (PrimFloat.is_zero x = true ∧ PrimFloat.is_zero y = true).
Proof.
  intros Hx Hy. rewrite eqb_key by done. rewrite Z.eqb_eq. unfold fkey. split.
  - intros Hk. apply key_inj in Hk; try apply Prim2SF_valid; try by apply is_nan_false.
    destruct Hk as [Heq|(sx & sy & Hsx & Hsy)].
    + left. by apply Prim2SF_inj.
    + right. rewrite !is_zero_spec. eauto.
  - intros [->|[Hzx Hzy]]; [done|].
    apply is_zero_spec in Hzx as [sx ->]. apply is_zero_spec in Hzy as [sy ->]. done.
Qed.


Lemma bpow_pos e : (0 < bpow e)%R.
Proof. apply powerRZ_lt. lra. Qed.

Lemma bpow_add a b : bpow (a + b) = (bpow a * bpow b)%R.
Proof. apply powerRZ_add. lra. Qed.

Lemma bpow_0 : bpow 0 = 1%R.
Proof. reflexivity. Qed.

Lemma bpow_1 : bpow 1 = 2%R.
Proof. unfold bpow. simpl. lra. Qed.

Lemma bpow_succ e : bpow (e + 1) = (2 * bpow e)%R.
Proof. rewrite bpow_add, bpow_1. lra. Qed.

Lemma bpow_pred e : bpow (e - 1) = (bpow e / 2)%R.
Proof.
  replace e with ((e - 1) + 1) at 2 by lia. rewrite bpow_succ. lra.
Qed.

Lemma bpow_IZR e : 0 ≤ e → bpow e = IZR (2 ^ e).
Proof.
  revert e. apply natlike_ind.
  - reflexivity.
  - intros e He IH. unfold Z.succ. rewrite bpow_succ, IH, Z.pow_add_r by lia.
    rewrite mult_IZR. change (2 ^ 1) with 2. lra.
Qed.

Lemma bpow_ge_1 e : 0 ≤ e → (1 <= bpow e)%R.
Proof.
  intros He. rewrite bpow_IZR by done. apply IZR_le.
  pose proof (Z.pow_pos_nonneg 2 e). lia.
Qed.

Lemma bpow_le a b : a ≤ b → (bpow a <= bpow b)%R.
Proof.
  intros Hab. replace b with (a + (b - a)) by lia. rewrite bpow_add.
  pose proof (bpow_pos a). pose proof (bpow_ge_1 (b - a) ltac:(lia)). nra.
Qed.

Lemma bpow_lt a b : a < b → (bpow a < bpow b)%R.
Proof.
  intros Hab. pose proof (bpow_le (a + 1) b ltac:(lia)) as Hle. rewrite bpow_succ in Hle.
  pose proof (bpow_pos a). lra.
Qed.

Lemma bpow_lt_inv a b : (bpow a < bpow b)%R → a < b.
Proof.
  intros Hlt. destruct (Z_lt_le_dec a b) as [|Hle]; [done|].
  apply bpow_le in Hle. lra.
Qed.

Lemma bpow_opp e : bpow (- e) = (/ bpow e)%R.
Proof.
  pose proof (bpow_pos e). pose proof (bpow_add e (- e)) as Hadd.
  replace (e + - e) with 0 in Hadd by lia. rewrite bpow_0 in Hadd.
  apply Rmult_eq_reg_l with (bpow e); [|lra].
  rewrite <- Hadd. field. lra.
Qed.

(** ** Digits *)



(** A mantissa against the powers of two its digits give. *)
Lemma Zdigits2_bounds (m : Z) :
  0 < m → (bpow (Zdigits2 m - 1) <= IZR m < bpow (Zdigits2 m))%R.
Proof.
  destruct m as [|p|p]; try lia. intros _. unfold Zdigits2.
  pose proof (digits2_pos_bound p). pose proof (digits2_pos_lower p).
  rewrite !bpow_IZR by lia. split; [apply IZR_le|apply IZR_lt]; done.
Qed.

Lemma Zdigits2_nonneg (m : Z) : 0 ≤ Zdigits2 m.
Proof. destruct m; simpl; lia. Qed.

Lemma Zdigits2_unique (m d : Z) :
  (bpow (d - 1) <= IZR m < bpow d)%R → 0 < m → Zdigits2 m = d.
Proof.
  intros [Hlo Hhi] Hm. destruct (Zdigits2_bounds m Hm) as [Hlo' Hhi'].
  assert (d - 1 < Zdigits2 m) by (apply bpow_lt_inv; lra).
  assert (Zdigits2 m - 1 < d) by (apply bpow_lt_inv; lra).
  lia.
Qed.

(** ** Shifts to the right keep track of what they drop *)


Lemma IZR_xO p : IZR (Zpos p~0) = (2 * IZR (Zpos p))%R.
Proof. rewrite Pos2Z.inj_xO, mult_IZR. done. Qed.
Lemma IZR_xI p : IZR (Zpos p~1) = (2 * IZR (Zpos p) + 1)%R.
Proof. rewrite Pos2Z.inj_xI, plus_IZR, mult_IZR. done. Qed.

Lemma shr_1_located (mrs : shr_record) (y : R) :
  0 ≤ shr_m mrs →
  located (shr_m mrs) (loc_of_shr_record mrs) y →
  0 ≤ shr_m (shr_1 mrs)
  ∧ located (shr_m (shr_1 mrs)) (loc_of_shr_record (shr_1 mrs)) (y / 2).
Proof.
  destruct mrs as [m r s]. simpl shr_m. intros Hm.
  destruct m as [|p|p]; [| |lia].
  - destruct r, s; simpl; intros Hy; split; try lia; lra.
  - destruct p as [p|p|]; [pose proof (IZR_xI p)|pose proof (IZR_xO p)|];
      destruct r, s; simpl shr_m; simpl loc_of_shr_record;
      unfold located; intros Hy; split; try lia; lra.
Qed.

Lemma shr_1_div (mrs : shr_record) :
  0 ≤ shr_m mrs → shr_m (shr_1 mrs) = shr_m mrs / 2.
Proof.
  destruct mrs as [m r s]. simpl shr_m. intros Hm.
  destruct m as [|p|p]; [done| |lia].
  destruct p as [p|p|]; simpl.
  - rewrite Pos2Z.inj_xI. apply Z.div_unique with 1; lia.
  - rewrite Pos2Z.inj_xO. apply Z.div_unique with 0; lia.
  - done.
Qed.

Lemma iter_pos_invariant {A} (f : A → A) (P : Z → A → Prop) :
  (∀ k x, P k x → P (k + 1) (f x)) →
  ∀ p k x, P k x → P (k + Zpos p) (SpecFloat.iter_pos f p x).
Proof.
  intros Hstep. induction p as [p IH|p IH|]; intros k x Hx; simpl.
  - replace (k + Zpos p~1) with (k + 1 + Zpos p + Zpos p) by lia. auto.
  - replace (k + Zpos p~0) with (k + Zpos p + Zpos p) by lia. auto.
  - auto.
Qed.

Lemma iter_shr_1_located (p : positive) (mrs : shr_record) (y : R) :
  0 ≤ shr_m mrs →
  located (shr_m mrs) (loc_of_shr_record mrs) y →
  let mrs' := SpecFloat.iter_pos shr_1 p mrs in
  0 ≤ shr_m mrs'
  ∧ located (shr_m mrs') (loc_of_shr_record mrs') (y * bpow (- Zpos p))
  ∧ shr_m mrs' = shr_m mrs / 2 ^ Zpos p.
Proof.
  intros Hm Hy.
  pose (P := λ (k : Z) (r : shr_record),
    0 ≤ k ∧ 0 ≤ shr_m r ∧ located (shr_m r) (loc_of_shr_record r) (y * bpow (- k))
    ∧ shr_m r = shr_m mrs / 2 ^ k).
  assert (∀ k x, P k x → P (k + 1) (shr_1 x)) as Hstep.
  { intros k x (Hk & Hx0 & Hloc & Hdiv).
    destruct (shr_1_located x _ Hx0 Hloc) as [H0 Hloc'].
    split; [lia|]. split; [done|]. split.
    - replace (- (k + 1)) with (- k - 1) by lia. rewrite bpow_pred.
      replace (y * (bpow (- k) / 2))%R with (y * bpow (- k) / 2)%R by lra. done.
    - rewrite shr_1_div, Hdiv by done.
      rewrite Z.pow_add_r, Z.div_div by lia. done. }
  assert (P 0 mrs) as H0.
  { split; [lia|]. split; [done|]. split.
    - change (bpow (- 0)) with 1%R. rewrite Rmult_1_r. done.
    - rewrite Z.div_1_r. done. }
  pose proof (iter_pos_invariant shr_1 P Hstep p 0 mrs H0) as (_ & ? & ? & ?).
  simpl. auto.
Qed.

Lemma loc_of_shr_record_of_loc m l :
  loc_of_shr_record (shr_record_of_loc m l) = l ∧ shr_m (shr_record_of_loc m l) = m.
Proof. destruct l as [|[]]; done. Qed.

(** The first step of a rounding: the mantissa is cut to the exponent of the
    format, and the location follows. *)
Lemma shr_fexp_located (m e : Z) (l : location) (x : R) :
  0 ≤ m →
  located m l (x * bpow (- e)) →
  e ≤ fexp prec emax (Zdigits2 m + e) →
  let '(mrs, e') := shr_fexp prec emax m e l in
  e' = fexp prec emax (Zdigits2 m + e)
  ∧ 0 ≤ shr_m mrs
  ∧ located (shr_m mrs) (loc_of_shr_record mrs) (x * bpow (- e'))
  ∧ shr_m mrs = m / 2 ^ (e' - e).
Proof.
  intros Hm Hloc Hle. unfold shr_fexp, shr.
  destruct (loc_of_shr_record_of_loc m l) as [Hl Hsm].
  destruct (fexp prec emax (Zdigits2 m + e) - e) as [|n|n] eqn:Hn; [| |lia].
  - assert (fexp prec emax (Zdigits2 m + e) = e) as -> by lia.
    rewrite Hl, Hsm, Z.sub_diag, Z.div_1_r. done.
  - pose proof (iter_shr_1_located n (shr_record_of_loc m l) (x * bpow (- e))) as Hit.
    rewrite Hl, Hsm in Hit. specialize (Hit Hm Hloc). simpl in Hit.
    destruct Hit as (H0 & Hloc' & Hdiv).
    split; [lia|]. split; [done|]. split.
    + replace (- (e + Zpos n)) with (- e + - Zpos n) by lia.
      rewrite bpow_add, <- Rmult_assoc. done.
    + rewrite Hdiv. f_equal. f_equal. lia.
Qed.


Lemma fexp_eq (k : Z) : fexp prec emax k = Z.max (k - 53) (-1074).
Proof. reflexivity. Qed.

Lemma located_bounds m l y : located m l y → (IZR m <= y < IZR m + 1)%R.
Proof. destruct l as [|[]]; simpl; lra. Qed.

Lemma IZR_succ_le_bpow m : 0 ≤ m → (IZR m + 1 <= bpow (Zdigits2 m))%R.
Proof.
  intros Hm. destruct (decide (m = 0)) as [->|Hne].
  - change (Zdigits2 0) with 0. rewrite bpow_0. lra.
  - rewrite bpow_IZR by apply Zdigits2_nonneg.
    rewrite <- (plus_IZR m 1). apply IZR_le.
    destruct m as [|p|p]; try lia. simpl. pose proof (digits2_pos_bound p). lia.
Qed.

Lemma bpow_cancel e : (bpow (- e) * bpow e = 1)%R.
Proof. rewrite <- bpow_add. replace (- e + e) with 0 by lia. apply bpow_0. Qed.

Lemma round_nearest_even_near m l y :
  located m l y →
  let m' := round_nearest_even m l in
  m ≤ m' ≤ m + 1
  ∧ (Rabs (y - IZR m') <= / 2)%R
  ∧ (Rabs (y - IZR m') = (/ 2)%R → Z.even m' = true).
Proof.
  destruct l as [|[]]; simpl.
  - intros ->. split; [lia|]. rewrite Rminus_diag, Rabs_R0. split; lra.
  - intros ->. destruct (Z.even m) eqn:Hev.
    + split; [lia|]. replace (IZR m + / 2 - IZR m)%R with (/ 2)%R by lra.
      rewrite Rabs_pos_eq by lra. split; [lra|done].
    + split; [lia|]. rewrite plus_IZR.
      replace (IZR m + / 2 - (IZR m + 1))%R with (- / 2)%R by lra.
      rewrite Rabs_Ropp, Rabs_pos_eq by lra. split; [lra|].
      intros _. rewrite Z.even_add, Hev. done.
  - intros Hy. split; [lia|]. rewrite Rabs_pos_eq by lra. split; lra.
  - intros Hy. split; [lia|]. rewrite plus_IZR.
    rewrite Rabs_left by lra. split; lra.
Qed.

Lemma Rabs_le_bounds (x a : R) : (Rabs x <= a)%R → (- a <= x <= a)%R.
Proof. unfold Rabs. destruct (Rcase_abs x); lra. Qed.

Lemma rounds_to_bounds x m e :
  rounds_to x m e → m ≤ 2 ^ 53 ∧ (e = -1074 ∨ 2 ^ 52 ≤ m).
Proof.
  intros (He & Hm & Hhi & Hlo & Hnear & _).
  pose proof (bpow_pos e) as Hb.
  apply Rabs_le_bounds in Hnear.
  rewrite bpow_add, (bpow_IZR 53) in Hhi by lia.
  split.
  - assert (IZR m < IZR (2 ^ 53 + 1))%R as Hlt.
    { rewrite plus_IZR. apply Rmult_lt_reg_r with (bpow e); [done|]. lra. }
    apply lt_IZR in Hlt. lia.
  - destruct Hlo as [->|Hlo]; [by left|right].
    rewrite bpow_add, (bpow_IZR 52) in Hlo by lia.
    assert (IZR (2 ^ 52 - 1) < IZR m)%R as Hlt.
    { rewrite minus_IZR. apply Rmult_lt_reg_r with (bpow e); [done|]. lra. }
    apply lt_IZR in Hlt. lia.
Qed.

(** What is left of [binary_round_aux] once the mantissa is rounded. *)
Lemma binary_round_aux_tail s m e :
  0 ≤ m ≤ 2 ^ 53 → -1074 ≤ e → (e = -1074 ∨ 2 ^ 52 ≤ m) →
  (let '(mrs, e') := shr_fexp prec emax m e loc_Exact in
   match shr_m mrs with
   | 0 => S754_zero s
   | Zpos p => if e' <=? emax - prec then S754_finite s p e' else S754_infinity s
   | Zneg _ => S754_nan
   end) = pack s m e.
Proof.
  intros Hm He Hnorm. unfold pack.
  destruct (Z.eqb_spec m 0) as [->|Hne0].
  { assert (e = -1074) as -> by lia. reflexivity. }
  destruct (Z.eqb_spec m (2 ^ 53)) as [->|Hne].
  { unfold shr_fexp. change (Zdigits2 (2 ^ 53)) with 54. rewrite fexp_eq.
    replace (Z.max (54 + e - 53) (-1074) - e) with 1 by lia.
    change (emax - prec) with 971. reflexivity. }
  assert (fexp prec emax (Zdigits2 m + e) = e) as Hfe.
  { rewrite fexp_eq. destruct (Zdigits2_bounds m ltac:(lia)) as [Hd1 Hd2].
    assert (Zdigits2 m ≤ 53).
    { enough (Zdigits2 m - 1 < 53) by lia. apply bpow_lt_inv.
      eapply Rle_lt_trans; [done|]. rewrite bpow_IZR by lia. apply IZR_lt. lia. }
    destruct Hnorm as [->|Hnorm]; [lia|].
    assert (52 < Zdigits2 m); [|lia].
    apply bpow_lt_inv. eapply Rle_lt_trans; [|done].
    rewrite bpow_IZR by lia. by apply IZR_le. }
  unfold shr_fexp. rewrite Hfe, Z.sub_diag. simpl.
  destruct m as [|p|p]; try lia. simpl. reflexivity.
Qed.

(** The rounding of SpecFloat computes the rounding to nearest. *)
Lemma binary_round_aux_rounds s m e l x :
  0 ≤ m → (0 < x)%R →
  located m l (x * bpow (- e)) →
  e ≤ fexp prec emax (Zdigits2 m + e) →
  ∃ m' e', rounds_to x m' e' ∧ binary_round_aux prec emax s m e l = pack s m' e'.
Proof.
  intros Hm Hx Hloc Hle.
  pose proof (shr_fexp_located m e l x Hm Hloc Hle) as Hshr.
  unfold binary_round_aux.
  destruct (shr_fexp prec emax m e l) as [mrs e'].
  destruct Hshr as (He' & Hm1 & Hloc1 & _).
  set (m1 := shr_m mrs) in *. set (l1 := loc_of_shr_record mrs) in *.
  destruct (round_nearest_even_near m1 l1 _ Hloc1) as (Hm2 & Hnear & Heven).
  set (m2 := round_nearest_even m1 l1) in *.
  pose proof (bpow_pos e) as Hbe. pose proof (bpow_pos e') as Hbe'.
  pose proof (bpow_cancel e) as Hce. pose proof (bpow_cancel e') as Hce'.
  apply located_bounds in Hloc.
  pose proof (IZR_succ_le_bpow m Hm) as Hdig.
  assert (x = x * bpow (- e) * bpow e)%R as Hxe by (rewrite Rmult_assoc, Hce; lra).
  assert (x < bpow (Zdigits2 m + e))%R as Hxhi.
  { rewrite bpow_add. rewrite Hxe at 1. apply Rmult_lt_compat_r; [done|]. lra. }
  assert (rounds_to x m2 e') as Hr.
  { rewrite fexp_eq in He'. split; [lia|]. split; [lia|]. split; [|split; [|split]].
    - eapply Rlt_le_trans; [done|]. apply bpow_le. lia.
    - destruct (decide (e' = -1074)) as [|Hne]; [by left|right].
      assert (0 < m).
      { destruct (decide (m = 0)) as [->|]; [|lia]. simpl in He'.
        rewrite fexp_eq in Hle. simpl in Hle. lia. }
      destruct (Zdigits2_bounds m ltac:(done)) as [Hd _].
      replace (e' + 52) with ((Zdigits2 m - 1) + e) by lia.
      rewrite bpow_add. rewrite Hxe. apply Rmult_le_compat; try lra.
      pose proof (bpow_pos (Zdigits2 m - 1)). lra.
    - replace (x - IZR m2 * bpow e')%R with ((x * bpow (- e') - IZR m2) * bpow e')%R
        by (rewrite Rmult_minus_distr_r, Rmult_assoc, Hce'; lra).
      rewrite Rabs_mult, (Rabs_pos_eq (bpow e')) by lra. nra.
    - replace (x - IZR m2 * bpow e')%R with ((x * bpow (- e') - IZR m2) * bpow e')%R
        by (rewrite Rmult_minus_distr_r, Rmult_assoc, Hce'; lra).
      rewrite Rabs_mult, (Rabs_pos_eq (bpow e')) by lra.
      intros Heq. apply Heven. nra. }
  exists m2, e'. split; [done|].
  destruct (rounds_to_bounds _ _ _ Hr) as [Hb1 Hb2].
  apply binary_round_aux_tail; [lia| |done].
  by destruct Hr.
Qed.

Lemma rounds_to_mono x1 x2 m1 e1 m2 e2 :
  rounds_to x1 m1 e1 → rounds_to x2 m2 e2 → (0 < x1 <= x2)%R →
  e1 ≤ e2 ∧ (e1 = e2 → m1 ≤ m2).
Proof.
  intros (He1 & Hm1 & Hhi1 & Hlo1 & Hn1 & Ht1) (He2 & Hm2 & Hhi2 & Hlo2 & Hn2 & Ht2) Hx.
  assert (e1 ≤ e2) as Hle.
  { destruct (Z_le_gt_dec e1 e2) as [|Hgt]; [done|].
    destruct Hlo1 as [->|Hlo1]; [lia|].
    assert (e1 + 52 < e2 + 53); [|lia]. apply bpow_lt_inv. lra. }
  split; [done|]. intros <-.
  pose proof (bpow_pos e1) as Hb.
  pose proof (Rabs_le_bounds _ _ Hn1) as Hb1. pose proof (Rabs_le_bounds _ _ Hn2) as Hb2.
  assert (IZR m1 < IZR (m2 + 2))%R as Hlt.
  { rewrite plus_IZR. apply Rmult_lt_reg_r with (bpow e1); [done|]. lra. }
  apply lt_IZR in Hlt.
  destruct (decide (m1 = m2 + 1)) as [Heq|]; [|lia]. exfalso.
  assert (IZR m1 = IZR m2 + 1)%R as HR by (rewrite Heq, plus_IZR; done).
  assert (x1 - IZR m1 * bpow e1 = - (bpow e1 / 2))%R as Hd1 by nra.
  assert (x2 - IZR m2 * bpow e1 = bpow e1 / 2)%R as Hd2 by nra.
  rewrite Hd1, Rabs_Ropp, Rabs_pos_eq in Ht1 by lra.
  rewrite Hd2, Rabs_pos_eq in Ht2 by lra.
  specialize (Ht1 eq_refl). specialize (Ht2 eq_refl).
  rewrite Heq, Z.even_add, Ht2 in Ht1. done.
Qed.

Lemma key_pack_sign m e : key (pack true m e) = - key (pack false m e).
Proof.
  unfold pack. destruct (m =? 0); [done|].
  destruct (m =? 2 ^ 53); [destruct (e + 1 <=? 971); done|].
  destruct (e <=? 971); done.
Qed.

Lemma key_pack_nonneg m e : 0 ≤ m → -1074 ≤ e → 0 ≤ key (pack false m e).
Proof.
  intros Hm He. unfold pack.
  destruct (Z.eqb_spec m 0); [done|].
  destruct (m =? 2 ^ 53).
  - destruct (e + 1 <=? 971); simpl; lia.
  - destruct (e <=? 971); unfold key, cond_Zopp; [|lia].
    rewrite Z2Pos.id by lia. lia.
Qed.

Lemma key_pack_mono m1 e1 m2 e2 :
  0 ≤ m1 ≤ 2 ^ 53 → 0 ≤ m2 ≤ 2 ^ 53 → -1074 ≤ e1 →
  e1 ≤ e2 → (e1 = e2 → m1 ≤ m2) → (e1 < e2 → 2 ^ 52 ≤ m2) →
  key (pack false m1 e1) ≤ key (pack false m2 e2).
Proof.
  change (2 ^ 53) with 9007199254740992. change (2 ^ 52) with 4503599627370496.
  intros Hm1 Hm2 He1 Hle Heq Hlt. unfold pack.
  change (2 ^ 53) with 9007199254740992. change (2 ^ 52) with 4503599627370496.
  destruct (Z.eqb_spec m1 0), (Z.eqb_spec m2 0),
    (Z.eqb_spec m1 9007199254740992), (Z.eqb_spec m2 9007199254740992),
    (Z.leb_spec (e1 + 1) 971), (Z.leb_spec (e2 + 1) 971),
    (Z.leb_spec e1 971), (Z.leb_spec e2 971);
    unfold key, cond_Zopp; change (2 ^ 53) with 9007199254740992;
    rewrite ?Z2Pos.id by lia; lia.
Qed.


Lemma rounds_to_key_nonneg x m e : rounds_to x m e → 0 ≤ key (pack false m e).
Proof. intros (? & ? & _). by apply key_pack_nonneg. Qed.

Lemma rounds_to_key_mono x1 x2 m1 e1 m2 e2 :
  rounds_to x1 m1 e1 → rounds_to x2 m2 e2 → (0 < x1 <= x2)%R →
  key (pack false m1 e1) ≤ key (pack false m2 e2).
Proof.
  intros H1 H2 Hx.
  destruct (rounds_to_mono _ _ _ _ _ _ H1 H2 Hx) as [Hle Heq].
  destruct (rounds_to_bounds _ _ _ H1) as [Hb1 _].
  destruct (rounds_to_bounds _ _ _ H2) as [Hb2 Hn2].
  destruct H1 as (He1 & Hm1 & _). destruct H2 as (He2 & Hm2 & _).
  apply key_pack_mono; try lia.
Qed.

(** Rounding is monotone. *)
Lemma Rnd_mono x1 x2 r1 r2 :
  Rnd x1 r1 → Rnd x2 r2 → (x1 <= x2)%R → key r1 ≤ key r2.
Proof.
  intros [(Hx1 & s1 & ->)|[(Hx1 & m1 & e1 & Hr1 & ->)|(Hx1 & m1 & e1 & Hr1 & ->)]]
         [(Hx2 & s2 & ->)|[(Hx2 & m2 & e2 & Hr2 & ->)|(Hx2 & m2 & e2 & Hr2 & ->)]] Hx;
    try lra; rewrite ?key_pack_sign;
    try pose proof (rounds_to_key_nonneg _ _ _ Hr1);
    try pose proof (rounds_to_key_nonneg _ _ _ Hr2);
    simpl key; try lia.
  - apply (rounds_to_key_mono x1 x2); [done|done|lra].
  - enough (key (pack false m2 e2) ≤ key (pack false m1 e1)) by lia.
    apply (rounds_to_key_mono (- x2) (- x1)); [done|done|lra].
Qed.

(** ** The value of a float *)



Lemma rounds_to_exact m e :
  SpecFloat.bounded prec emax m e = true → rounds_to (IZR (Zpos m) * bpow e) (Zpos m) e.
Proof.
  intros (Hm & He & Hn)%bounded_inv. pose proof (bpow_pos e) as Hb.
  split; [lia|]. split; [lia|]. split; [|split; [|split]].
  - rewrite bpow_add, (bpow_IZR 53) by lia. apply IZR_lt in Hm. nra.
  - destruct Hn as [->|Hn]; [by left|right].
    rewrite bpow_add, (bpow_IZR 52) by lia. apply IZR_le in Hn. nra.
  - rewrite Rminus_diag, Rabs_R0. lra.
  - rewrite Rminus_diag, Rabs_R0. lra.
Qed.

Lemma pack_exact s m e :
  SpecFloat.bounded prec emax m e = true → pack s (Zpos m) e = S754_finite s m e.
Proof.
  intros (Hm & He & Hn)%bounded_inv. unfold pack.
  destruct (Z.eqb_spec (Zpos m) 0); [lia|].
  destruct (Z.eqb_spec (Zpos m) (2 ^ 53)); [lia|].
  destruct (Z.leb_spec e 971); [|lia]. done.
Qed.

(** A float is the rounding of its own value. *)
Lemma Rnd_F2R a :
  valid_binary a = true → is_finite_SF a = true → Rnd (F2R a) a.
Proof.
  destruct a as [s|s| |s m e]; try done; intros Hv _.
  - left. eauto.
  - simpl in Hv. pose proof (rounds_to_exact m e Hv) as Hr.
    pose proof (bpow_pos e). assert (0 < IZR (Zpos m))%R by (apply IZR_lt; lia).
    assert (0 < IZR (Zpos m) * bpow e)%R by (apply Rmult_lt_0_compat; done).
    simpl F2R. destruct s.
    + right; right. split; [lra|]. exists (Zpos m), e. rewrite pack_exact by done.
      split; [|done]. replace (- (-1 * IZR (Zpos m) * bpow e))%R with (IZR (Zpos m) * bpow e)%R by lra.
      done.
    + right; left. split; [lra|]. exists (Zpos m), e. rewrite pack_exact by done.
      split; [|done]. replace (1 * IZR (Zpos m) * bpow e)%R with (IZR (Zpos m) * bpow e)%R by lra.
      done.
Qed.

(** The order of the keys is the order of the values. *)
Lemma key_le_F2R a1 a2 :
  valid_binary a1 = true → valid_binary a2 = true →
  is_finite_SF a1 = true → is_finite_SF a2 = true →
  key a1 ≤ key a2 → (F2R a1 <= F2R a2)%R.
Proof.
  intros Hv1 Hv2 Hf1 Hf2 Hk.
  destruct (Rle_lt_dec (F2R a1) (F2R a2)) as [|Hlt]; [done|exfalso].
  pose proof (Rnd_mono _ _ _ _ (Rnd_F2R a2 Hv2 Hf2) (Rnd_F2R a1 Hv1 Hf1) ltac:(lra)) as Hk'.
  assert (key a1 = key a2) as Heq by lia.
  apply key_inj in Heq; try done; try (by destruct a1); try (by destruct a2).
  destruct Heq as [->|(s1 & s2 & -> & ->)]; simpl in Hlt; lra.
Qed.

Lemma Zdigits2_gt (m k : Z) : 0 ≤ k → 2 ^ k ≤ m → k < Zdigits2 m.
Proof.
  intros Hk Hm. assert (0 < m) by (pose proof (Z.pow_pos_nonneg 2 k); lia).
  destruct (Zdigits2_bounds m ltac:(done)) as [_ Hhi].
  apply bpow_lt_inv. eapply Rle_lt_trans; [|done].
  rewrite bpow_IZR by done. by apply IZR_le.
Qed.

Lemma Zdigits2_le (m k : Z) : 0 ≤ m → 0 ≤ k → m < 2 ^ k → Zdigits2 m ≤ k.
Proof.
  intros Hm0 Hk Hm. destruct (Z_le_gt_dec m 0) as [Hle|Hgt].
  { assert (m = 0) as -> by lia. simpl. lia. }
  destruct (Zdigits2_bounds m ltac:(lia)) as [Hlo _].
  enough (Zdigits2 m - 1 < k) by lia.
  apply bpow_lt_inv. eapply Rle_lt_trans; [done|].
  rewrite bpow_IZR by done. by apply IZR_lt.
Qed.

Lemma Zdigits2_pos_eq (m : positive) : Zdigits2 (Zpos m) = Zpos (digits2_pos m).
Proof. reflexivity. Qed.

(** ** Multiplication *)

Lemma SFmul_rounds sx mx ex sy my ey :
  SpecFloat.bounded prec emax mx ex = true → SpecFloat.bounded prec emax my ey = true →
  ∃ m e, rounds_to (IZR (Zpos mx) * bpow ex * (IZR (Zpos my) * bpow ey)) m e
         ∧ SFmul prec emax (S754_finite sx mx ex) (S754_finite sy my ey)
           = pack (xorb sx sy) m e.
Proof.
  intros (Hmx & Hex & Hnx)%bounded_inv (Hmy & Hey & Hny)%bounded_inv.
  unfold SFmul. apply binary_round_aux_rounds.
  - lia.
  - pose proof (bpow_pos ex). pose proof (bpow_pos ey).
    assert (0 < IZR (Zpos mx))%R by (apply IZR_lt; lia).
    assert (0 < IZR (Zpos my))%R by (apply IZR_lt; lia).
    repeat apply Rmult_lt_0_compat; done.
  - unfold located. rewrite Pos2Z.inj_mul, mult_IZR.
    assert (bpow ex * bpow ey * bpow (- (ex + ey)) = 1)%R as Hc
      by (rewrite <- bpow_add, Rmult_comm; apply bpow_cancel).
    replace (IZR (Z.pos mx) * bpow ex * (IZR (Z.pos my) * bpow ey) * bpow (- (ex + ey)))%R
      with (IZR (Z.pos mx) * IZR (Z.pos my) * (bpow ex * bpow ey * bpow (- (ex + ey))))%R by ring.
    rewrite Hc. ring.
  - rewrite fexp_eq.
    assert (1 ≤ Zpos mx) by lia. assert (1 ≤ Zpos my) by lia.
    destruct Hnx as [->|Hnx]; [destruct Hny as [->|Hny]|].
    + lia.
    + assert (52 < Zdigits2 (Zpos (mx * my))); [|lia].
      apply Zdigits2_gt; [lia|]. rewrite Pos2Z.inj_mul. nia.
    + assert (52 < Zdigits2 (Zpos (mx * my))); [|lia].
      apply Zdigits2_gt; [lia|]. rewrite Pos2Z.inj_mul. nia.
Qed.

Lemma Rnd_zero s : Rnd 0 (S754_zero s).
Proof. left. eauto. Qed.

Lemma Rnd_signed (s : bool) (x : R) m e :
  (0 < x)%R → rounds_to x m e →
  Rnd ((if s then -1 else 1) * x) (pack s m e).
Proof.
  intros Hx Hr. destruct s.
  - right; right. split; [lra|]. exists m, e. split; [|done].
    replace (- (-1 * x))%R with x by lra. done.
  - right; left. split; [lra|]. exists m, e. split; [|done].
    replace (1 * x)%R with x by lra. done.
Qed.

Lemma sign_xorb (sx sy : bool) :
  ((if xorb sx sy then -1 else 1) = (if sx then -1 else 1) * (if sy then -1 else 1))%R.
Proof. destruct sx, sy; simpl; lra. Qed.

Lemma F2R_finite_pos m e : (0 < IZR (Zpos m) * bpow e)%R.
Proof.
  pose proof (bpow_pos e). assert (0 < IZR (Zpos m))%R by (apply IZR_lt; lia).
  by apply Rmult_lt_0_compat.
Qed.

Lemma SFmul_Rnd x y :
  valid_binary x = true → valid_binary y = true →
  is_finite_SF x = true → is_finite_SF y = true →
  Rnd (F2R x * F2R y) (SFmul prec emax x y).
Proof.
  intros Hvx Hvy Hfx Hfy.
  destruct x as [sx|sx| |sx mx ex], y as [sy|sy| |sy my ey]; try done.
  - simpl. rewrite Rmult_0_l. apply Rnd_zero.
  - simpl. rewrite Rmult_0_l. apply Rnd_zero.
  - simpl. rewrite Rmult_0_r. apply Rnd_zero.
  - destruct (SFmul_rounds sx mx ex sy my ey Hvx Hvy) as (m & e & Hr & ->).
    unfold F2R.
    replace ((if sx then -1 else 1) * IZR (Z.pos mx) * bpow ex
             * ((if sy then -1 else 1) * IZR (Z.pos my) * bpow ey))%R
      with ((if xorb sx sy then -1 else 1)
            * (IZR (Z.pos mx) * bpow ex * (IZR (Z.pos my) * bpow ey)))%R
      by (rewrite sign_xorb; ring).
    apply Rnd_signed; [|done].
    apply Rmult_lt_0_compat; apply F2R_finite_pos.
Qed.

(** ** Division *)

Lemma half_compare (t M r : R) :
  (0 < M)%R → (t * M = r)%R →
  ((2 * r < M)%R → (t < / 2)%R) ∧ ((2 * r = M)%R → t = (/ 2)%R) ∧ ((M < 2 * r)%R → (/ 2 < t)%R).
Proof.
  intros HM Ht. split; [|split]; intros Hc.
  - apply Rmult_lt_reg_r with M; [done|]. lra.
  - apply Rmult_eq_reg_r with M; lra.
  - apply Rmult_lt_reg_r with M; [done|]. lra.
Qed.

Lemma new_location_located (m2 q r : Z) :
  0 < m2 → 0 ≤ r < m2 →
  located q (new_location m2 r) (IZR q + IZR r / IZR m2).
Proof.
  intros Hm2 Hr.
  assert (0 < IZR m2)%R as HM by (apply IZR_lt; lia).
  remember (IZR r / IZR m2)%R as t eqn:Ht0.
  assert (t * IZR m2 = IZR r)%R as Ht by (rewrite Ht0; field; lra).
  clear Ht0.
  assert (0 <= t < 1)%R as Ht01.
  { assert (0 <= IZR r < IZR m2)%R by (split; [apply IZR_le|apply IZR_lt]; lia). nra. }
  unfold new_location.
  destruct (Z.eqb_spec r 0) as [->|Hr0].
  { assert (t = 0)%R as -> by nra.
    destruct (Z.even m2); simpl; apply Rplus_0_r. }
  apply Z.eqb_neq in Hr0 as Hr0'.
  assert (0 < t)%R.
  { assert (0 < IZR r)%R by (apply IZR_lt; lia). nra. }
  destruct (half_compare t (IZR m2) (IZR r) HM Ht) as (Hlt2 & Heq2 & Hgt2).
  destruct (Z.even m2) eqn:Hev; unfold new_location_even, new_location_odd; rewrite Hr0'.
  - destruct (Z.compare_spec (2 * r) m2) as [Heq|Hlt|Hgt]; simpl.
    + apply (f_equal IZR) in Heq. rewrite mult_IZR in Heq. rewrite Heq2; lra.
    + apply IZR_lt in Hlt. rewrite mult_IZR in Hlt. split; lra.
    + apply IZR_lt in Hgt. rewrite mult_IZR in Hgt. split; lra.
  - assert (2 * r ≠ m2) as Hodd.
    { intros <-. rewrite Z.even_mul in Hev. done. }
    destruct (Z.compare_spec (2 * r + 1) m2) as [Heq|Hlt|Hgt]; simpl.
    + assert (2 * r < m2) as Hlt by lia.
      apply IZR_lt in Hlt. rewrite mult_IZR in Hlt. split; lra.
    + assert (2 * r < m2) as Hlt' by lia.
      apply IZR_lt in Hlt'. rewrite mult_IZR in Hlt'. split; lra.
    + assert (m2 < 2 * r) as Hgt' by lia.
      apply IZR_lt in Hgt'. rewrite mult_IZR in Hgt'. split; lra.
Qed.

Lemma SFdiv_core_rounds s m1 e1 m2 e2 :
  SpecFloat.bounded prec emax m1 e1 = true → SpecFloat.bounded prec emax m2 e2 = true →
  ∃ m e, rounds_to (IZR (Zpos m1) * bpow e1 / (IZR (Zpos m2) * bpow e2)) m e
         ∧ (let '(mz, ez, lz) := SFdiv_core_binary prec emax (Zpos m1) e1 (Zpos m2) e2 in
            binary_round_aux prec emax s mz ez lz) = pack s m e.
Proof.
  intros (Hm1 & He1 & Hn1)%bounded_inv (Hm2 & He2 & Hn2)%bounded_inv.
  unfold SFdiv_core_binary.
  set (d1 := Zdigits2 (Zpos m1)). set (d2 := Zdigits2 (Zpos m2)).
  set (E := d1 + e1 - (d2 + e2)).
  set (e' := Z.min (fexp prec emax E) (e1 - e2)).
  set (sh := e1 - e2 - e').
  assert (0 ≤ sh) as Hsh by (unfold sh, e'; lia).
  set (m' := match sh with Zpos _ => Z.shiftl (Zpos m1) sh | 0 => Zpos m1 | Zneg _ => 0 end).
  assert (m' = Zpos m1 * 2 ^ sh) as Hm'.
  { unfold m'. destruct sh as [|p|p] eqn:Hs; [lia| |lia].
    rewrite Z.shiftl_mul_pow2 by lia. done. }
  clearbody m'.
  pose proof (Z_div_mod m' (Zpos m2) ltac:(lia)) as Hdiv.
  destruct (Z.div_eucl m' (Zpos m2)) as [q r]. destruct Hdiv as [Hqr Hr].
  assert (0 < 2 ^ sh) as Hpsh by (apply Z.pow_pos_nonneg; lia).
  assert (0 ≤ q) as Hq by nia.
  assert (1 ≤ d2 ∧ 2 ^ (d2 - 1) ≤ Zpos m2 < 2 ^ d2) as (Hd2 & Hd2lo & Hd2hi).
  { unfold d2. rewrite Zdigits2_pos_eq.
    pose proof (digits2_pos_bound m2). pose proof (digits2_pos_lower m2). lia. }
  assert (d1 ≤ 53 ∧ 2 ^ (d1 - 1) ≤ Zpos m1 < 2 ^ d1 ∧ 1 ≤ d1) as (Hd1 & [Hd1lo Hd1hi] & Hd1').
  { split; [apply Zdigits2_le; lia|]. unfold d1. rewrite Zdigits2_pos_eq.
    pose proof (digits2_pos_bound m1). pose proof (digits2_pos_lower m1). lia. }
  assert (e' = Z.min (Z.max (E - 53) (-1074)) (e1 - e2)) as He' by reflexivity.
  assert (sh = e1 - e2 - e') as Hshd by reflexivity.
  assert (E = d1 + e1 - (d2 + e2)) as HE by reflexivity.
  clearbody sh e' E d1 d2.
  apply binary_round_aux_rounds.
  - done.
  - apply Rdiv_lt_0_compat; apply F2R_finite_pos.
  - assert (IZR m' = IZR (Zpos m1) * bpow sh)%R as HRm'.
    { rewrite Hm', mult_IZR, bpow_IZR by done. done. }
    assert (bpow e1 = bpow sh * bpow e2 * bpow e')%R as Hbe.
    { rewrite <- !bpow_add. f_equal. lia. }
    pose proof (bpow_pos sh). pose proof (bpow_pos e2). pose proof (bpow_pos e').
    assert (0 < IZR (Zpos m2))%R as HM2 by (apply IZR_lt; lia).
    replace (IZR (Z.pos m1) * bpow e1 / (IZR (Z.pos m2) * bpow e2) * bpow (- e'))%R
      with (IZR q + IZR r / IZR (Zpos m2))%R.
    { apply new_location_located; lia. }
    rewrite bpow_opp, Hbe.
    transitivity (IZR m' / IZR (Zpos m2))%R.
    + rewrite Hqr, plus_IZR, mult_IZR. field. lra.
    + rewrite HRm'. field. lra.
  - rewrite fexp_eq.
    destruct (decide (q = 0)) as [->|Hq0].
    + change (Zdigits2 0) with 0.
      enough (e' ≤ -1074) by lia.
      destruct (Z_le_gt_dec e' (-1074)) as [|Hgt]; [done|exfalso].
      assert (sh = 53 - d1 + d2) as Hsheq by lia.
      assert (2 ^ (52 + d2) ≤ m').
      { rewrite Hm'. replace (52 + d2) with ((d1 - 1) + sh) by lia.
        rewrite Z.pow_add_r by lia. nia. }
      assert (2 ^ (52 + d2) = 2 ^ 52 * 2 ^ d2) as Hp by (rewrite Z.pow_add_r; lia).
      nia.
    + assert (E - e' ≤ Zdigits2 q); [|lia].
      replace (E - e') with (d1 - d2 + sh) by lia.
      destruct (Z_lt_le_dec (d1 - d2 + sh - 1) 0) as [Hneg|Hk].
      { assert (0 < Zdigits2 q); [|lia]. apply Zdigits2_gt; simpl; lia. }
      enough (d1 - d2 + sh - 1 < Zdigits2 q) by lia.
      apply Zdigits2_gt; [done|].
      set (P := 2 ^ (d1 - d2 + sh - 1)).
      assert (0 < P) by (apply Z.pow_pos_nonneg; lia).
      assert (P * 2 ^ d2 ≤ m').
      { unfold P. rewrite <- Z.pow_add_r, Hm' by lia.
        replace (d1 - d2 + sh - 1 + d2) with ((d1 - 1) + sh) by lia.
        rewrite Z.pow_add_r by lia. nia. }
      destruct (Z_le_gt_dec P q) as [|Hgt]; [done|exfalso].
      assert (Zpos m2 * (q + 1) ≤ Zpos m2 * P) by nia.
      nia.
Qed.

Lemma SFdiv_Rnd x y :
  valid_binary x = true → valid_binary y = true →
  is_finite_SF x = true → (∃ sy my ey, y = S754_finite sy my ey) →
  Rnd (F2R x / F2R y) (SFdiv prec emax x y).
Proof.
  intros Hvx Hvy Hfx (sy & my & ey & ->).
  destruct x as [sx|sx| |sx mx ex]; try done.
  - simpl. unfold Rdiv. rewrite Rmult_0_l. apply Rnd_zero.
  - unfold SFdiv.
    destruct (SFdiv_core_rounds (xorb sx sy) mx ex my ey Hvx Hvy) as (m & e & Hr & ->).
    unfold F2R.
    pose proof (F2R_finite_pos mx ex). pose proof (F2R_finite_pos my ey).
    replace ((if sx then -1 else 1) * IZR (Z.pos mx) * bpow ex
             / ((if sy then -1 else 1) * IZR (Z.pos my) * bpow ey))%R
      with ((if xorb sx sy then -1 else 1)
            * (IZR (Z.pos mx) * bpow ex / (IZR (Z.pos my) * bpow ey)))%R.
    + apply Rnd_signed; [|done]. by apply Rdiv_lt_0_compat.
    + pose proof (bpow_pos ey). assert (0 < IZR (Zpos my))%R by (apply IZR_lt; lia).
      destruct sx, sy; simpl; field; repeat split; lra.
Qed.

Ltac pow_consts :=
  change (2 ^ 53) with 9007199254740992 in *;
  change (2 ^ 52) with 4503599627370496 in *.

(** ** Subtraction *)

Lemma iter_xO_pow (m d : positive) : Zpos (Pos.iter xO m d) = Zpos m * 2 ^ Zpos d.
Proof.
  induction d as [|d IH] using Pos.peano_ind.
  - simpl. lia.
  - rewrite Pos.iter_succ, Pos2Z.inj_xO, IH, Pos2Z.inj_succ, Z.pow_succ_r by lia. lia.
Qed.

Lemma shl_align_spec mx ex ex' :
  let '(mz, ez) := shl_align mx ex ex' in
  ez = Z.min ex ex' ∧ Zpos mz = Zpos mx * 2 ^ (ex - ez).
Proof.
  unfold shl_align. destruct (ex' - ex) as [|d|d] eqn:Hd.
  - split; [lia|]. replace (ex - ex) with 0 by lia. lia.
  - split; [lia|]. replace (ex - ex) with 0 by lia. lia.
  - split; [lia|]. rewrite iter_xO_pow. f_equal. f_equal. lia.
Qed.

Lemma Zdigits2_shift (m : positive) (k : Z) :
  0 ≤ k → Zdigits2 (Zpos m * 2 ^ k) = Zdigits2 (Zpos m) + k.
Proof.
  intros Hk. assert (0 < 2 ^ k) by (apply Z.pow_pos_nonneg; lia).
  destruct (Zdigits2_bounds (Zpos m) ltac:(lia)) as [Hlo Hhi].
  pose proof (bpow_pos k).
  apply Zdigits2_unique; [|nia].
  rewrite mult_IZR, <- bpow_IZR by done.
  replace (Zdigits2 (Zpos m) + k - 1) with (Zdigits2 (Zpos m) - 1 + k) by lia.
  rewrite !bpow_add. split; nra.
Qed.

Lemma binary_round_rounds s m e :
  ∃ m' e', rounds_to (IZR (Zpos m) * bpow e) m' e'
           ∧ binary_round prec emax s m e = pack s m' e'.
Proof.
  unfold binary_round.
  pose proof (shl_align_spec m e (fexp prec emax (Zpos (digits2_pos m) + e))) as Hsh.
  destruct (shl_align m e _) as [mz ez]. destruct Hsh as [Hez Hmz].
  assert (0 ≤ e - ez) as Hk by lia.
  apply binary_round_aux_rounds.
  - lia.
  - apply F2R_finite_pos.
  - unfold located. rewrite Hmz, mult_IZR, <- bpow_IZR by done.
    by rewrite Rmult_assoc, <- bpow_add.
  - rewrite Hmz, Zdigits2_shift by done. rewrite Zdigits2_pos_eq.
    replace (Zpos (digits2_pos m) + (e - ez) + ez) with (Zpos (digits2_pos m) + e) by lia.
    lia.
Qed.

Lemma binary_normalize_Rnd z e sz :
  Rnd (IZR z * bpow e) (binary_normalize prec emax z e sz).
Proof.
  destruct z as [|m|m]; simpl binary_normalize.
  - rewrite Rmult_0_l. apply Rnd_zero.
  - destruct (binary_round_rounds false m e) as (m' & e' & Hr & ->).
    replace (IZR (Zpos m) * bpow e)%R with ((if false then -1 else 1) * (IZR (Zpos m) * bpow e))%R
      by (simpl; lra).
    apply (Rnd_signed false); [apply F2R_finite_pos|done].
  - destruct (binary_round_rounds true m e) as (m' & e' & Hr & ->).
    replace (IZR (Zneg m) * bpow e)%R with ((if true then -1 else 1) * (IZR (Zpos m) * bpow e))%R.
    + apply (Rnd_signed true); [apply F2R_finite_pos|done].
    + change (Zneg m) with (- Zpos m). rewrite opp_IZR. simpl. lra.
Qed.

Lemma shl_align_value (s : bool) mx ex ez :
  ez ≤ ex →
  (IZR (cond_Zopp s (Zpos (shl_align mx ex ez).1)) * bpow ez
   = (if s then -1 else 1) * IZR (Zpos mx) * bpow ex)%R.
Proof.
  intros Hle. pose proof (shl_align_spec mx ex ez) as Hsh.
  destruct (shl_align mx ex ez) as [mz ez']. destruct Hsh as [-> Hmz]. simpl fst.
  rewrite Z.min_r in Hmz by done.
  assert (IZR (Zpos mz) * bpow ez = IZR (Zpos mx) * bpow ex)%R as Hv.
  { rewrite Hmz, mult_IZR, <- bpow_IZR by lia.
    rewrite Rmult_assoc, <- bpow_add. f_equal. f_equal. lia. }
  destruct s; simpl cond_Zopp.
  - change (- Zpos mz) with (Zneg mz). change (Zneg mz) with (- Zpos mz).
    rewrite opp_IZR. lra.
  - lra.
Qed.

Lemma SFsub_Rnd x y :
  valid_binary x = true → valid_binary y = true →
  is_finite_SF x = true → is_finite_SF y = true →
  Rnd (F2R x - F2R y) (SFsub prec emax x y).
Proof.
  intros Hvx Hvy Hfx Hfy.
  destruct x as [sx|sx| |sx mx ex], y as [sy|sy| |sy my ey]; try done.
  - simpl F2R. rewrite Rminus_diag. destruct sx, sy; apply Rnd_zero.
  - simpl SFsub.
    replace (F2R (S754_zero sx) - F2R (S754_finite sy my ey))%R
      with (F2R (S754_finite (negb sy) my ey)) by (destruct sy; simpl; lra).
    by apply Rnd_F2R.
  - simpl SFsub. replace (F2R (S754_finite sx mx ex) - F2R (S754_zero sy))%R
      with (F2R (S754_finite sx mx ex)) by (simpl; lra).
    by apply Rnd_F2R.
  - unfold SFsub.
    set (ez := Z.min ex ey).
    pose proof (shl_align_value sx mx ex ez ltac:(lia)) as Hx.
    pose proof (shl_align_value sy my ey ez ltac:(lia)) as Hy.
    replace (F2R (S754_finite sx mx ex) - F2R (S754_finite sy my ey))%R
      with (IZR (cond_Zopp sx (Zpos (shl_align mx ex ez).1)
                 - cond_Zopp sy (Zpos (shl_align my ey ez).1)) * bpow ez)%R.
    + apply binary_normalize_Rnd.
    + rewrite minus_IZR, Rmult_minus_distr_r, Hx, Hy. done.
Qed.

Lemma SFopp_pack s m e : SFopp (pack s m e) = pack (negb s) m e.
Proof.
  unfold pack. destruct (m =? 0); [done|].
  destruct (m =? 2 ^ 53); [destruct (e + 1 <=? 971); done|].
  destruct (e <=? 971); done.
Qed.

Lemma Rnd_opp x r : Rnd x r → Rnd (- x) (SFopp r).
Proof.
  intros [(-> & s & ->)|[(Hx & m & e & Hr & ->)|(Hx & m & e & Hr & ->)]].
  - rewrite Ropp_0. apply Rnd_zero.
  - right; right. split; [lra|]. exists m, e. rewrite Ropp_involutive, SFopp_pack. done.
  - right; left. split; [lra|]. exists m, e. rewrite SFopp_pack. done.
Qed.

Lemma pack_not_nan s m e : pack s m e ≠ S754_nan.
Proof.
  unfold pack. destruct (m =? 0); [done|].
  destruct (m =? 2 ^ 53); [destruct (e + 1 <=? 971); done|].
  destruct (e <=? 971); done.
Qed.

Lemma Rnd_not_nan x r : Rnd x r → r ≠ S754_nan.
Proof.
  intros [(_ & s & ->)|[(_ & m & e & _ & ->)|(_ & m & e & _ & ->)]];
    (done || apply pack_not_nan).
Qed.

Lemma key_pack_le_max m e :
  0 ≤ m ≤ 2 ^ 53 → key (pack false m e) ≤ 2047 * 2 ^ 53.
Proof.
  change (2 ^ 53) with 9007199254740992. intros Hm. unfold pack.
  change (2 ^ 53) with 9007199254740992. change (2 ^ 52) with 4503599627370496.
  destruct (Z.eqb_spec m 0), (Z.eqb_spec m 9007199254740992),
    (Z.leb_spec (e + 1) 971), (Z.leb_spec e 971);
    unfold key, cond_Zopp; change (2 ^ 53) with 9007199254740992;
    rewrite ?Z2Pos.id by lia; lia.
Qed.

Lemma Rnd_key_bounds x r : Rnd x r → - (2047 * 2 ^ 53) ≤ key r ≤ 2047 * 2 ^ 53.
Proof.
  intros [(_ & s & ->)|[(_ & m & e & Hr & ->)|(_ & m & e & Hr & ->)]].
  - simpl. lia.
  - pose proof (rounds_to_key_nonneg _ _ _ Hr).
    destruct (rounds_to_bounds _ _ _ Hr) as [Hb _]. destruct Hr as (_ & Hm & _).
    pose proof (key_pack_le_max m e ltac:(lia)). lia.
  - rewrite key_pack_sign. pose proof (rounds_to_key_nonneg _ _ _ Hr).
    destruct (rounds_to_bounds _ _ _ Hr) as [Hb _]. destruct Hr as (_ & Hm & _).
    pose proof (key_pack_le_max m e ltac:(lia)). lia.
Qed.

(** ** Monotone operations on floats

    An operation that rounds a monotone function of the value of its
    argument, and keeps the infinities, keeps the order. *)
Lemma monotone_operation (f : spec_float → spec_float) (g : R → R) :
  (∀ x y, (x <= y)%R → (g x <= g y)%R) →
  f (S754_infinity false) = S754_infinity false →
  f (S754_infinity true) = S754_infinity true →
  (∀ a, valid_binary a = true → is_finite_SF a = true → Rnd (g (F2R a)) (f a)) →
  ∀ a1 a2,
    valid_binary a1 = true → valid_binary a2 = true →
    a1 ≠ S754_nan → a2 ≠ S754_nan →
    key a1 ≤ key a2 →
    f a1 ≠ S754_nan ∧ f a2 ≠ S754_nan ∧ key (f a1) ≤ key (f a2).
Proof.
  intros Hg Hpinf Hninf Hrnd a1 a2 Hv1 Hv2 Hn1 Hn2 Hk.
  assert (∀ a, valid_binary a = true → a ≠ S754_nan →
               f a ≠ S754_nan ∧ - (2047 * 2 ^ 53) ≤ key (f a) ≤ 2047 * 2 ^ 53) as Hall.
  { intros a Hv Hn. destruct a as [s|[]| |s m e] eqn:Ha; try done;
      rewrite ?Hpinf, ?Hninf; try (split; [done|cbn [key cond_Zopp]; pow_consts; lia]).
    all: split; [eapply Rnd_not_nan|eapply Rnd_key_bounds]; by apply Hrnd. }
  destruct (Hall a1 Hv1 Hn1) as [Hnf1 Hb1]. destruct (Hall a2 Hv2 Hn2) as [Hnf2 Hb2].
  split; [done|]. split; [done|].
  assert (∀ a, valid_binary a = true → a ≠ S754_nan →
               - (2047 * 2 ^ 53) ≤ key a ≤ 2047 * 2 ^ 53
               ∧ (is_finite_SF a = false → ∃ s, a = S754_infinity s)
               ∧ (is_finite_SF a = true → - (2047 * 2 ^ 53) < key a < 2047 * 2 ^ 53)) as Hcls.
  { intros a Hv Hn. destruct a as [s|s| |s m e]; [| | done |].
    - split; [cbn [key cond_Zopp]; pow_consts; lia|]. split; [done|]. intros _. cbn [key cond_Zopp]; pow_consts; lia.
    - split; [destruct s; cbn [key cond_Zopp]; pow_consts; lia|]. split; [eauto|done].
    - apply bounded_inv in Hv. cbn [key cond_Zopp is_finite_SF]. pow_consts.
      unfold cond_Zopp. split; [destruct s; lia|]. split; [done|]. intros _. destruct s; lia. }
  destruct (Hcls a1 Hv1 Hn1) as (Hka1 & Hi1 & Hf1).
  destruct (Hcls a2 Hv2 Hn2) as (Hka2 & Hi2 & Hf2).
  destruct (is_finite_SF a1) eqn:Hfin1, (is_finite_SF a2) eqn:Hfin2.
  - eapply Rnd_mono; [by apply Hrnd|by apply Hrnd|].
    apply Hg. by apply key_le_F2R.
  - destruct (Hi2 eq_refl) as [[] ->].
    + specialize (Hf1 eq_refl). cbn [key cond_Zopp] in Hk. pow_consts. lia.
    + rewrite Hpinf. cbn [key cond_Zopp]. pow_consts. lia.
  - destruct (Hi1 eq_refl) as [[] ->].
    + rewrite Hninf. cbn [key cond_Zopp]. pow_consts. lia.
    + specialize (Hf2 eq_refl). cbn [key cond_Zopp] in Hk. pow_consts. lia.
  - destruct (Hi1 eq_refl) as [[] ->], (Hi2 eq_refl) as [[] ->];
      rewrite ?Hpinf, ?Hninf; cbn [key cond_Zopp] in *; pow_consts; lia.
Qed.

(** ** The same on primitive floats *)

Lemma SF_not_nan (x : float) : is_nan x = false → Prim2SF x ≠ S754_nan.
Proof. by intros ?%is_nan_false. Qed.

Lemma not_nan_SF (x : float) : Prim2SF x ≠ S754_nan → is_nan x = false.
Proof. by intros ?%is_nan_false. Qed.

(** A monotone operation of SpecFloat, read on the primitive floats. *)
Lemma monotone_prim (op : float → float) (f : spec_float → spec_float) (g : R → R) :
  (∀ a, Prim2SF (op a) = f (Prim2SF a)) →
  (∀ x y, (x <= y)%R → (g x <= g y)%R) →
  f (S754_infinity false) = S754_infinity false →
  f (S754_infinity true) = S754_infinity true →
  (∀ a, valid_binary a = true → is_finite_SF a = true → Rnd (g (F2R a)) (f a)) →
  ∀ a1 a2, is_nan a1 = false → is_nan a2 = false → fkey a1 ≤ fkey a2 →
    is_nan (op a1) = false ∧ is_nan (op a2) = false ∧ fkey (op a1) ≤ fkey (op a2).
Proof.
  intros Hop Hg Hp Hn Hrnd a1 a2 Hn1 Hn2 Hk.
  destruct (monotone_operation f g Hg Hp Hn Hrnd (Prim2SF a1) (Prim2SF a2))
    as (H1 & H2 & H3); try apply Prim2SF_valid; try (by apply SF_not_nan); try exact Hk.
  unfold fkey. rewrite !Hop.
  split; [apply not_nan_SF; by rewrite Hop|].
  split; [apply not_nan_SF; by rewrite Hop|done].
Qed.

Lemma sub_monotone (lo a1 a2 : float) :
  is_finite_SF (Prim2SF lo) = true →
  is_nan a1 = false → is_nan a2 = false → fkey a1 ≤ fkey a2 →
  is_nan (a1 - lo) = false ∧ is_nan (a2 - lo) = false
  ∧ fkey (a1 - lo) ≤ fkey (a2 - lo).
Proof.
  intros Hlo.
  apply (monotone_prim (λ a, (a - lo)%float)
           (λ a, SFsub prec emax a (Prim2SF lo)) (λ x, (x - F2R (Prim2SF lo))%R)).
  - intros a. apply FloatAxioms.sub_spec.
  - intros x y Hxy. lra.
  - by destruct (Prim2SF lo).
  - by destruct (Prim2SF lo).
  - intros a Hv Hf. apply SFsub_Rnd; try done. apply Prim2SF_valid.
Qed.

Lemma div_monotone (d a1 a2 : float) (m : positive) (e : Z) :
  Prim2SF d = S754_finite false m e →
  is_nan a1 = false → is_nan a2 = false → fkey a1 ≤ fkey a2 →
  is_nan (a1 / d) = false ∧ is_nan (a2 / d) = false
  ∧ fkey (a1 / d) ≤ fkey (a2 / d).
Proof.
  intros Hd. pose proof (Prim2SF_valid d) as Hvd.
  apply (monotone_prim (λ a, (a / d)%float)
           (λ a, SFdiv prec emax a (Prim2SF d)) (λ x, (x / F2R (Prim2SF d))%R)).
  - intros a. apply FloatAxioms.div_spec.
  - intros x y Hxy. rewrite Hd. simpl F2R.
    pose proof (F2R_finite_pos m e).
    apply Rmult_le_compat_r; [|done].
    apply Rlt_le, Rinv_0_lt_compat. lra.
  - by rewrite Hd.
  - by rewrite Hd.
  - intros a Hv Hf. apply SFdiv_Rnd; try done. rewrite Hd. eauto.
Qed.

Lemma mul_monotone (c a1 a2 : float) (m : positive) (e : Z) :
  Prim2SF c = S754_finite false m e →
  is_nan a1 = false → is_nan a2 = false → fkey a1 ≤ fkey a2 →
  is_nan (a1 * c) = false ∧ is_nan (a2 * c) = false
  ∧ fkey (a1 * c) ≤ fkey (a2 * c).
Proof.
  intros Hc. pose proof (Prim2SF_valid c) as Hvc.
  apply (monotone_prim (λ a, (a * c)%float)
           (λ a, SFmul prec emax a (Prim2SF c)) (λ x, (x * F2R (Prim2SF c))%R)).
  - intros a. apply FloatAxioms.mul_spec.
  - intros x y Hxy. rewrite Hc. simpl F2R.
    pose proof (F2R_finite_pos m e).
    apply Rmult_le_compat_r; lra.
  - by rewrite Hc.
  - by rewrite Hc.
  - intros a Hv Hf. apply SFmul_Rnd; try done. by rewrite Hc.
Qed.

(** ** Clipping and the cast *)

Lemma shiftl_floor (m : positive) (e : Z) :
  (IZR (Z.shiftl (Zpos m) e) <= IZR (Zpos m) * bpow e < IZR (Z.shiftl (Zpos m) e) + 1)%R.
Proof.
  destruct (Z_le_gt_dec 0 e) as [He|He].
  - rewrite Z.shiftl_mul_pow2, mult_IZR, <- bpow_IZR by done.
    generalize (IZR (Zpos m) * bpow e)%R. intros v. lra.
  - set (n := - e). assert (e = - n) as Hen by lia. assert (0 < n) as Hn by lia.
    clearbody n. subst e. clear He.
    rewrite Z.shiftl_div_pow2, Z.opp_involutive by lia.
    assert (0 < 2 ^ n) as Hp by (apply Z.pow_pos_nonneg; lia).
    pose proof (Z.div_mod (Zpos m) (2 ^ n) ltac:(lia)) as Hdm.
    pose proof (Z.mod_pos_bound (Zpos m) (2 ^ n) Hp) as Hmod.
    rewrite bpow_opp, bpow_IZR by lia.
    set (q := Zpos m / 2 ^ n) in *. set (r := Zpos m mod 2 ^ n) in *.
    set (P := 2 ^ n) in *. clearbody q r P.
    apply (f_equal IZR) in Hdm. rewrite plus_IZR, mult_IZR in Hdm.
    assert (0 <= IZR r < IZR P)%R as HrR
      by (split; [apply IZR_le|apply IZR_lt]; lia).
    assert (0 < IZR P)%R as HpR by (apply IZR_lt; lia).
    rewrite Hdm. split.
    + apply Rmult_le_reg_r with (IZR P); [done|].
      rewrite Rmult_assoc, Rinv_l by lra. lra.
    + apply Rmult_lt_reg_r with (IZR P); [done|].
      rewrite Rmult_assoc, Rinv_l by lra. lra.
Qed.


Lemma truncate_SF_floor (a : spec_float) :
  valid_binary a = true → is_finite_SF a = true → 0 ≤ key a →
  (IZR (truncate_SF a) <= F2R a < IZR (truncate_SF a) + 1)%R.
Proof.
  destruct a as [s|s| |s m e]; try done; intros Hv _ Hk.
  - simpl. lra.
  - apply bounded_inv in Hv. cbn [key] in Hk. unfold cond_Zopp in Hk.
    destruct s; [pow_consts; lia|].
    simpl truncate_SF. simpl F2R. rewrite Rmult_1_l. apply shiftl_floor.
Qed.

Lemma truncate_SF_mono (a1 a2 : spec_float) :
  valid_binary a1 = true → valid_binary a2 = true →
  is_finite_SF a1 = true → is_finite_SF a2 = true →
  0 ≤ key a1 ≤ key a2 →
  truncate_SF a1 ≤ truncate_SF a2.
Proof.
  intros Hv1 Hv2 Hf1 Hf2 Hk.
  pose proof (truncate_SF_floor a1 Hv1 Hf1 ltac:(lia)).
  pose proof (truncate_SF_floor a2 Hv2 Hf2 ltac:(lia)).
  pose proof (key_le_F2R a1 a2 Hv1 Hv2 Hf1 Hf2 ltac:(lia)).
  assert (IZR (truncate_SF a1) < IZR (truncate_SF a2 + 1))%R as Hlt
    by (rewrite plus_IZR; lra).
  apply lt_IZR in Hlt. lia.
Qed.


Lemma truncate_eq (x : float) : truncate x = truncate_SF (Prim2SF x).
Proof. reflexivity. Qed.

Lemma key_finite (a : spec_float) :
  valid_binary a = true → a ≠ S754_nan →
  - (2047 * 2 ^ 53) < key a < 2047 * 2 ^ 53 → is_finite_SF a = true.
Proof.
  destruct a as [s|s| |s m e]; try done. intros _ _.
  cbn [key]. unfold cond_Zopp. destruct s; lia.
Qed.

Lemma fkey_255 : fkey 255 = 9286387247265873920.
Proof. reflexivity. Qed.

Lemma clip_key (p : float) :
  is_nan p = false →
  is_nan (clip1 p 0 255) = false
  ∧ fkey (clip1 p 0 255) = Z.min (Z.max (fkey p) 0) (fkey 255).
Proof.
  intros Hp. unfold clip1, fmax. rewrite Hp.
  rewrite (ltb_key 0 p) by done. change (fkey 0) with 0.
  assert (∀ y, is_nan y = false →
            is_nan (fmin y 255) = false ∧ fkey (fmin y 255) = Z.min (fkey y) (fkey 255)) as Hmin.
  { intros y Hy. unfold fmin. rewrite Hy, (ltb_key y 255) by done.
    destruct (Z.ltb_spec (fkey y) (fkey 255)); (split; [done|lia]). }
  destruct (Z.ltb_spec 0 (fkey p)).
  - destruct (Hmin p Hp) as [-> ->]. split; [done|lia].
  - destruct (Hmin 0%float eq_refl) as [-> ->]. split; [done|].
    change (fkey 0) with 0. lia.
Qed.

Lemma quantize_nan (p : float) : is_nan p = true → quantize p = 0.
Proof.
  intros Hp. unfold quantize, clip1, fmax, fmin. rewrite Hp, Hp.
  unfold to_uint8, truncate. apply is_nan_spec in Hp. by rewrite Hp.
Qed.

Lemma quantize_truncate (p : float) :
  is_nan p = false →
  quantize p = truncate (clip1 p 0 255) ∧ 0 ≤ quantize p ≤ 255.
Proof.
  intros Hp. destruct (clip_key p Hp) as [Hn Hk].
  unfold quantize, to_uint8.
  remember (clip1 p 0 255) as r eqn:Hrdef. clear Hrdef.
  rewrite fkey_255 in Hk.
  assert (0 ≤ fkey r ≤ 9286387247265873920) as Hr by lia. clear Hk.
  unfold fkey in Hr.
  pose proof (Prim2SF_valid r) as Hv. apply SF_not_nan in Hn.
  assert (is_finite_SF (Prim2SF r) = true) as Hf.
  { apply key_finite; try done. pow_consts. lia. }
  assert (0 ≤ truncate r ≤ 255) as Ht.
  { rewrite truncate_eq. split.
    - change 0 with (truncate_SF (Prim2SF 0%float)) at 1.
      apply truncate_SF_mono; first [done | change (key (Prim2SF 0)) with 0; lia].
    - change 255 with (truncate_SF (Prim2SF 255%float)) at 1.
      apply truncate_SF_mono;
        first [done | change (key (Prim2SF 255)) with 9286387247265873920; lia]. }
  rewrite Z.mod_small by lia. done.
Qed.

Lemma quantize_range (p : float) : 0 ≤ quantize p ≤ 255.
Proof.
  destruct (is_nan p) eqn:Hp.
  - rewrite quantize_nan by done. lia.
  - by apply quantize_truncate.
Qed.

Lemma quantize_mono (p1 p2 : float) :
  is_nan p1 = false → is_nan p2 = false → fkey p1 ≤ fkey p2 →
  quantize p1 ≤ quantize p2.
Proof.
  intros H1 H2 Hk.
  destruct (quantize_truncate p1 H1) as [-> _]. destruct (quantize_truncate p2 H2) as [-> _].
  destruct (clip_key p1 H1) as [Hn1 Hk1]. destruct (clip_key p2 H2) as [Hn2 Hk2].
  rewrite fkey_255 in *. unfold fkey in *.
  apply SF_not_nan in Hn1, Hn2.
  rewrite !truncate_eq. apply truncate_SF_mono; try apply Prim2SF_valid.
  - apply key_finite; try done; try apply Prim2SF_valid. pow_consts. lia.
  - apply key_finite; try done; try apply Prim2SF_valid. pow_consts. lia.
  - lia.
Qed.

Lemma quantize_nonpos (p : float) : is_nan p = false → fkey p ≤ 0 → quantize p = 0.
Proof.
  intros Hp Hk.
  pose proof (quantize_mono p 0 Hp eq_refl Hk) as Hle.
  change (quantize 0) with 0 in Hle. pose proof (quantize_range p). lia.
Qed.

Lemma quantize_saturated (p : float) :
  is_nan p = false → fkey 255 ≤ fkey p → quantize p = 255.
Proof.
  intros Hp Hk.
  pose proof (quantize_mono 255 p eq_refl Hp Hk) as Hle.
  change (quantize 255) with 255 in Hle. pose proof (quantize_range p). lia.
Qed.

Lemma rounds_to_nonzero x m e :
  rounds_to x m e → (bpow (-1074) <= x)%R → 0 < m.
Proof.
  intros (He & Hm & Hhi & Hlo & Hnear & _) Hx.
  destruct (decide (m = 0)) as [->|]; [exfalso|lia].
  rewrite Rmult_0_l, Rminus_0_r in Hnear. apply Rabs_le_bounds in Hnear.
  pose proof (bpow_pos e). pose proof (bpow_pos (-1074)).
  destruct Hlo as [->|Hlo]; [lra|].
  pose proof (bpow_le e (e + 52) ltac:(lia)). lra.
Qed.

Lemma pack_positive m e :
  0 < m →
  pack false m e = S754_infinity false ∨ ∃ m' e', pack false m e = S754_finite false m' e'.
Proof.
  intros Hm. unfold pack. destruct (Z.eqb_spec m 0); [lia|].
  destruct (m =? 2 ^ 53); [destruct (e + 1 <=? 971)|destruct (e <=? 971)]; eauto.
Qed.

(** The values of the floats are multiples of the least positive one. *)
Lemma F2R_grid (a : spec_float) :
  valid_binary a = true → is_finite_SF a = true →
  ∃ k : Z, F2R a = (IZR k * bpow (-1074))%R.
Proof.
  destruct a as [s|s| |s m e]; try done; intros Hv _.
  - exists 0. simpl. lra.
  - apply bounded_inv in Hv as (_ & He & _).
    exists (cond_Zopp s (Zpos m * 2 ^ (e + 1074))). simpl F2R.
    assert (bpow e = IZR (2 ^ (e + 1074)) * bpow (-1074))%R as ->.
    { rewrite <- bpow_IZR, <- bpow_add by lia. f_equal. lia. }
    destruct s; simpl cond_Zopp; rewrite ?opp_IZR, mult_IZR; lra.
Qed.

Lemma key_lt_F2R a1 a2 :
  valid_binary a1 = true → valid_binary a2 = true →
  is_finite_SF a1 = true → is_finite_SF a2 = true →
  key a1 < key a2 → (F2R a1 < F2R a2)%R.
Proof.
  intros Hv1 Hv2 Hf1 Hf2 Hk.
  pose proof (key_le_F2R a1 a2 Hv1 Hv2 Hf1 Hf2 ltac:(lia)) as Hle.
  destruct (Rle_lt_or_eq_dec _ _ Hle) as [|Heq]; [done|exfalso].
  pose proof (Rnd_mono _ _ _ _ (Rnd_F2R a2 Hv2 Hf2) (Rnd_F2R a1 Hv1 Hf1) ltac:(lra)).
  lia.
Qed.

(** With [lo < hi] the difference [hi - lo] is a positive float or, when it
    overflows, plus infinity; it is finite only for a finite [lo]. *)
Lemma sub_positive (lo hi : float) :
  PrimFloat.ltb lo hi = true →
  Prim2SF (hi - lo) = S754_infinity false
  ∨ (is_finite_SF (Prim2SF lo) = true ∧ ∃ m e, Prim2SF (hi - lo) = S754_finite false m e).
Proof.
  intros Hlt. destruct (ltb_true_not_nan _ _ Hlt) as [Hnlo Hnhi].
  rewrite ltb_key in Hlt by done. apply Z.ltb_lt in Hlt. unfold fkey in Hlt.
  rewrite FloatAxioms.sub_spec. unfold SF64sub.
  pose proof (Prim2SF_valid lo) as Hvlo. pose proof (Prim2SF_valid hi) as Hvhi.
  apply SF_not_nan in Hnlo, Hnhi.
  destruct (is_finite_SF (Prim2SF lo)) eqn:Hflo, (is_finite_SF (Prim2SF hi)) eqn:Hfhi.
  { pose proof (SFsub_Rnd _ _ Hvhi Hvlo Hfhi Hflo) as Hr.
    pose proof (key_lt_F2R _ _ Hvlo Hvhi Hflo Hfhi Hlt) as Hx.
    destruct (F2R_grid _ Hvlo Hflo) as [klo Hklo]. destruct (F2R_grid _ Hvhi Hfhi) as [khi Hkhi].
    assert (bpow (-1074) <= F2R (Prim2SF hi) - F2R (Prim2SF lo))%R as Hge.
    { rewrite Hklo, Hkhi in *. pose proof (bpow_pos (-1074)) as Hb.
      assert (IZR klo < IZR khi)%R as Hk by nra.
      apply lt_IZR in Hk. assert (klo + 1 ≤ khi) as Hk' by lia.
      apply IZR_le in Hk'. rewrite plus_IZR in Hk'. nra. }
    destruct Hr as [(H0 & _)|[(_ & m & e & Hrt & ->)|(Hneg & _)]]; [lra| |lra].
    pose proof (rounds_to_nonzero _ _ _ Hrt Hge) as Hm.
    destruct (pack_positive m e Hm) as [->|Hfin]; [by left|right]. done. }
  all: destruct (Prim2SF lo) as [slo|[]| |slo mlo elo], (Prim2SF hi) as [shi|[]| |shi mhi ehi];
    try done; try (by left);
    exfalso; try apply bounded_inv in Hvlo; try apply bounded_inv in Hvhi;
    cbn [key] in Hlt; unfold cond_Zopp in Hlt; pow_consts;
    try destruct slo; try destruct shi; lia.
Qed.

(** Division by plus infinity, then the product by 255: a zero or a NaN. *)
Lemma scaled_by_infinity (a d : float) :
  Prim2SF d = S754_infinity false → quantize (a / d * 255) = 0.
Proof.
  intros Hd.
  assert (Prim2SF (a / d * 255) = S754_nan ∨ ∃ s, Prim2SF (a / d * 255) = S754_zero s) as Hp.
  { rewrite FloatAxioms.mul_spec, FloatAxioms.div_spec, Hd. unfold SF64mul, SF64div.
    change (Prim2SF 255) with (S754_finite false 8972014882652160 (-45)).
    destruct (Prim2SF a) as [s|s| |s m e]; simpl; eauto. }
  destruct Hp as [Hp|[s Hp]].
  - apply quantize_nan. by apply is_nan_spec.
  - apply quantize_nonpos.
    + apply not_nan_SF. by rewrite Hp.
    + unfold fkey. rewrite Hp. done.
Qed.

Lemma leb_fkey (x y : float) :
  PrimFloat.leb x y = true → is_nan x = false ∧ is_nan y = false ∧ fkey x ≤ fkey y.
Proof.
  intros Hle. destruct (leb_true_not_nan _ _ Hle) as [Hx Hy].
  rewrite leb_key in Hle by done. apply Z.leb_le in Hle. done.
Qed.

(** The scaled and quantized value is monotone in the sample, for [lo < hi]. *)
Lemma scaled_monotone (lo hi x1 x2 : float) :
  PrimFloat.ltb lo hi = true → PrimFloat.leb x1 x2 = true →
  quantize ((x1 - lo) / (hi - lo) * 255) ≤ quantize ((x2 - lo) / (hi - lo) * 255).
Proof.
  intros Hlt (Hn1 & Hn2 & Hk)%leb_fkey.
  destruct (sub_positive lo hi Hlt) as [Hinf|(Hflo & m & e & Hd)].
  - rewrite !scaled_by_infinity by done. done.
  - destruct (sub_monotone lo x1 x2 Hflo Hn1 Hn2 Hk) as (Ha1 & Ha2 & Hka).
    destruct (div_monotone _ _ _ m e Hd Ha1 Ha2 Hka) as (Hq1 & Hq2 & Hkq).
    destruct (mul_monotone 255 _ _ 8972014882652160 (-45) eq_refl Hq1 Hq2 Hkq)
      as (Hp1 & Hp2 & Hkp).
    by apply quantize_mono.
Qed.

(** ** Integers as floats *)

Lemma float_of_Z_Rnd (z : Z) :
  - 2 ^ 63 < z < 2 ^ 63 → Rnd (IZR z) (Prim2SF (float_of_Z z)).
Proof.
  intros Hz.
  assert (∀ n, 0 ≤ n < 2 ^ 63 → Rnd (IZR n) (Prim2SF (of_uint63 (of_Z n)))) as Hpos.
  { intros n Hn. rewrite FloatAxioms.of_uint63_spec, of_Z_spec.
    rewrite Z.mod_small by (change wB with (2 ^ 63); lia).
    rewrite <- (Rmult_1_r (IZR n)). change 1%R with (bpow 0). apply binary_normalize_Rnd. }
  unfold float_of_Z. destruct (Z.ltb_spec z 0).
  - rewrite FloatAxioms.opp_spec. replace (IZR z) with (- IZR (- z))%R by (rewrite opp_IZR; lra).
    apply Rnd_opp, Hpos. lia.
  - apply Hpos. lia.
Qed.

Lemma float_of_Z_not_nan (z : Z) :
  - 2 ^ 63 < z < 2 ^ 63 → is_nan (float_of_Z z) = false.
Proof. intros Hz. apply not_nan_SF. eapply Rnd_not_nan, float_of_Z_Rnd, Hz. Qed.

Lemma float_of_Z_mono (z1 z2 : Z) :
  - 2 ^ 63 < z1 → z1 ≤ z2 → z2 < 2 ^ 63 →
  fkey (float_of_Z z1) ≤ fkey (float_of_Z z2).
Proof.
  intros H1 H12 H2. eapply Rnd_mono; [apply float_of_Z_Rnd|apply float_of_Z_Rnd|]; try lia.
  by apply IZR_le.
Qed.

Lemma float_of_Z_leb (z1 z2 : Z) :
  - 2 ^ 63 < z1 → z1 ≤ z2 → z2 < 2 ^ 63 →
  PrimFloat.leb (float_of_Z z1) (float_of_Z z2) = true.
Proof.
  intros H1 H12 H2. rewrite leb_key by (apply float_of_Z_not_nan; lia).
  apply Z.leb_le. by apply float_of_Z_mono.
Qed.

Lemma Rnd_finite_pos x r :
  Rnd x r → (bpow (-1074) <= x < bpow 1000)%R → ∃ m e, r = S754_finite false m e.
Proof.
  pose proof (bpow_pos (-1074)).
  intros [(-> & _)|[(_ & m & e & Hr & ->)|(Hneg & _)]] Hx; [lra| |lra].
  pose proof (rounds_to_nonzero _ _ _ Hr ltac:(lra)) as Hm.
  destruct (rounds_to_bounds _ _ _ Hr) as [Hb _].
  destruct Hr as (He & _ & _ & Hlo & _).
  assert (e < 948) as He'.
  { destruct Hlo as [->|Hlo]; [lia|].
    assert (e + 52 < 1000); [|lia]. apply bpow_lt_inv. lra. }
  unfold pack. destruct (Z.eqb_spec m 0); [lia|].
  destruct (m =? 2 ^ 53).
  - destruct (Z.leb_spec (e + 1) 971); [eauto|lia].
  - destruct (Z.leb_spec e 971); [eauto|lia].
Qed.

Lemma IZR_int_range (z : Z) : 1 ≤ z < 2 ^ 63 → (bpow (-1074) <= IZR z < bpow 1000)%R.
Proof.
  intros Hz. split.
  - pose proof (bpow_le (-1074) 0 ltac:(lia)). rewrite bpow_0 in *.
    assert (1 <= IZR z)%R by (apply IZR_le; lia). lra.
  - pose proof (bpow_le 63 1000 ltac:(lia)) as Hle. rewrite (bpow_IZR 63) in Hle by lia.
    assert (IZR z < IZR (2 ^ 63))%R by (apply IZR_lt; lia). lra.
Qed.

Lemma float_of_Z_pos (z : Z) :
  1 ≤ z < 2 ^ 63 → ∃ m e, Prim2SF (float_of_Z z) = S754_finite false m e.
Proof.
  intros Hz. apply (Rnd_finite_pos (IZR z)).
  - apply float_of_Z_Rnd. lia.
  - by apply IZR_int_range.
Qed.

Lemma float_of_Z_neg (z : Z) :
  - 2 ^ 63 < z ≤ -1 → ∃ m e, Prim2SF (float_of_Z z) = S754_finite true m e.
Proof.
  intros Hz. unfold float_of_Z. destruct (Z.ltb_spec z 0); [|lia].
  rewrite FloatAxioms.opp_spec.
  assert (Rnd (IZR (- z)) (Prim2SF (of_uint63 (of_Z (- z))))) as Hr.
  { pose proof (float_of_Z_Rnd (- z) ltac:(lia)) as Hr. unfold float_of_Z in Hr.
    destruct (Z.ltb_spec (- z) 0); [lia|done]. }
  destruct (Rnd_finite_pos _ _ Hr (IZR_int_range (- z) ltac:(lia))) as (m & e & ->).
  simpl. eauto.
Qed.


Lemma scaled_int_mono (a1 a2 d : Z) :
  - 2 ^ 63 < a1 → a1 ≤ a2 → a2 < 2 ^ 63 → 1 ≤ d < 2 ^ 63 →
  scaled_int a1 d ≤ scaled_int a2 d.
Proof.
  intros H1 H12 H2 Hd. unfold scaled_int.
  destruct (float_of_Z_pos d Hd) as (m & e & HSd).
  pose proof (float_of_Z_not_nan a1 ltac:(lia)) as Hn1.
  pose proof (float_of_Z_not_nan a2 ltac:(lia)) as Hn2.
  pose proof (float_of_Z_mono a1 a2 H1 H12 H2) as Hk.
  destruct (div_monotone _ _ _ m e HSd Hn1 Hn2 Hk) as (Hq1 & Hq2 & Hkq).
  destruct (mul_monotone 255 _ _ 8972014882652160 (-45) eq_refl Hq1 Hq2 Hkq)
    as (Hp1 & Hp2 & Hkp).
  by apply quantize_mono.
Qed.

Lemma Rnd_key_nonpos x r : Rnd x r → (x <= 0)%R → key r ≤ 0.
Proof.
  intros Hr Hx. change 0 with (key (S754_zero false)).
  eapply Rnd_mono; [done|apply Rnd_zero|done].
Qed.

Lemma F2R_sign_true m e : (F2R (S754_finite true m e) < 0)%R.
Proof. pose proof (F2R_finite_pos m e). simpl. lra. Qed.

Lemma float_of_Z_F2R_nonneg (z : Z) :
  0 ≤ z < 2 ^ 63 →
  is_finite_SF (Prim2SF (float_of_Z z)) = true ∧ (0 <= F2R (Prim2SF (float_of_Z z)))%R.
Proof.
  intros Hz. destruct (decide (z = 0)) as [->|Hne].
  - split; [done|]. change (Prim2SF (float_of_Z 0)) with (S754_zero false). simpl. lra.
  - destruct (float_of_Z_pos z ltac:(lia)) as (m & e & ->). split; [done|].
    pose proof (F2R_finite_pos m e). simpl. lra.
Qed.

(** A negative range, as the wrapped difference of 16-bit integers can be:
    differences that did not wrap give 0. *)
Lemma scaled_int_neg_low (a d : Z) :
  0 ≤ a < 2 ^ 63 → - 2 ^ 63 < d ≤ -1 → scaled_int a d = 0.
Proof.
  intros Ha Hd. unfold scaled_int.
  destruct (float_of_Z_neg d Hd) as (m & e & HSd).
  destruct (float_of_Z_F2R_nonneg a Ha) as [Hfa Hxa].
  assert (Rnd (F2R (Prim2SF (float_of_Z a)) / F2R (Prim2SF (float_of_Z d)))
              (Prim2SF (float_of_Z a / float_of_Z d))) as Hq.
  { rewrite FloatAxioms.div_spec. apply SFdiv_Rnd; try apply Prim2SF_valid; [done|].
    rewrite HSd. eauto. }
  assert (F2R (Prim2SF (float_of_Z a)) / F2R (Prim2SF (float_of_Z d)) <= 0)%R as Hx.
  { rewrite HSd. pose proof (F2R_sign_true m e) as Hneg.
    apply Rinv_lt_0_compat in Hneg. unfold Rdiv. nra. }
  pose proof (Rnd_key_nonpos _ _ Hq Hx) as Hkq.
  pose proof (not_nan_SF _ (Rnd_not_nan _ _ Hq)) as Hnq.
  destruct (mul_monotone 255 _ 0 8972014882652160 (-45) eq_refl Hnq eq_refl Hkq)
    as (Hp1 & _ & Hkp).
  apply quantize_nonpos; [done|]. change (fkey (0 * 255)) with 0 in Hkp. done.
Qed.

Lemma F2R_one : F2R (Prim2SF 1) = 1%R.
Proof.
  change (Prim2SF 1) with (S754_finite false (Z.to_pos (2 ^ 52)) (-52)).
  unfold F2R. rewrite Z2Pos.id by done.
  rewrite <- bpow_IZR, Rmult_1_l, <- bpow_add by lia. apply bpow_0.
Qed.

(** Differences that wrapped give 255. *)
Lemma scaled_int_neg_high (a d : Z) :
  - 2 ^ 63 < a → a ≤ d → d ≤ -1 → scaled_int a d = 255.
Proof.
  intros Ha Had Hd. unfold scaled_int.
  destruct (float_of_Z_neg d ltac:(lia)) as (m & e & HSd).
  destruct (float_of_Z_neg a ltac:(lia)) as (ma & ea & HSa).
  pose proof (float_of_Z_mono a d Ha Had ltac:(lia)) as Hk.
  assert (Rnd (F2R (Prim2SF (float_of_Z a)) / F2R (Prim2SF (float_of_Z d)))
              (Prim2SF (float_of_Z a / float_of_Z d))) as Hq.
  { rewrite FloatAxioms.div_spec. apply SFdiv_Rnd; try apply Prim2SF_valid.
    - by rewrite HSa.
    - rewrite HSd. eauto. }
  assert (1 <= F2R (Prim2SF (float_of_Z a)) / F2R (Prim2SF (float_of_Z d)))%R as Hx.
  { pose proof (key_le_F2R _ _ (Prim2SF_valid _) (Prim2SF_valid _)
                  ltac:(by rewrite HSa) ltac:(by rewrite HSd) Hk) as Hle.
    rewrite HSd in *. pose proof (F2R_sign_true m e) as Hneg.
    apply Rmult_le_reg_r with (- F2R (S754_finite true m e))%R; [lra|].
    unfold Rdiv. rewrite Rmult_assoc.
    replace (/ F2R (S754_finite true m e) * - F2R (S754_finite true m e))%R with (-1)%R
      by (field; lra).
    lra. }
  assert (fkey 1 ≤ fkey (float_of_Z a / float_of_Z d)) as Hkq.
  { unfold fkey. eapply Rnd_mono; [apply (Rnd_F2R (Prim2SF 1)); done|exact Hq|].
    by rewrite F2R_one. }
  pose proof (not_nan_SF _ (Rnd_not_nan _ _ Hq)) as Hnq.
  destruct (mul_monotone 255 1 _ 8972014882652160 (-45) eq_refl eq_refl Hnq Hkq)
    as (_ & Hp2 & Hkp).
  apply quantize_saturated; [done|]. change (fkey (1 * 255)) with (fkey 255) in Hkp. done.
Qed.

(** ** Arrays *)

Lemma lookup2_map2d {A B} (g : A → B) (a : ndarray A) c i :
  lookup2 (map2d g a) c i = g <$> lookup2 a c i.
Proof.
  unfold lookup2, map2d. rewrite list_lookup_fmap.
  destruct (a !! c) as [row|]; simpl; [|done].
  by rewrite list_lookup_fmap.
Qed.

Lemma shape_map2d {A B} (g : A → B) (a : ndarray A) :
  shape (map2d g a) = shape a.
Proof.
  unfold shape, map2d. rewrite <- list_fmap_compose.
  apply list_fmap_ext. intros _ row _. simpl. by rewrite length_fmap.
Qed.

Lemma lookup2_where m a other c i :
  lookup2 (where_ m a other) c i =
    match lookup2 m c i, lookup2 a c i with
    | Some b, Some x => Some (if b then x else other)
    | _, _ => None
    end.
Proof.
  unfold lookup2, where_. rewrite lookup_zip_with.
  destruct (m !! c) as [mrow|]; simpl; [|done].
  destruct (a !! c) as [arow|]; simpl.
  - rewrite lookup_zip_with.
    destruct (mrow !! i); simpl; [|done]. by destruct (arow !! i).
  - by destruct (mrow !! i).
Qed.

Lemma shape_where {A} (g : A → bool) (h : A → float) (a : ndarray A) other :
  shape (where_ (map2d g a) (map2d h a) other) = shape a.
Proof.
  unfold shape, where_, map2d.
  induction a as [|row a IH]; simpl; [done|].
  f_equal; [|done].
  rewrite length_zip_with, !length_fmap. lia.
Qed.

Section ScalingFacts.
Context {T : Type} `{Dtype T}.
Implicit Types (bands : ndarray T) (nodata : option float) (s : T).

Lemma valid_mask_map2d bands nodata :
  valid_mask bands nodata = map2d (valid_sample nodata) bands.
Proof.
  destruct nodata as [nd|]; simpl; [done|].
  unfold invert, isnan_array, map2d.
  rewrite <- list_fmap_compose. apply list_fmap_ext. intros _ row _. simpl.
  by rewrite <- list_fmap_compose.
Qed.

Lemma lookup2_valid_mask bands nodata c i :
  lookup2 (valid_mask bands nodata) c i = valid_sample nodata <$> lookup2 bands c i.
Proof. by rewrite valid_mask_map2d, lookup2_map2d. Qed.

(** One element of the array that lines 78-84 and 135-137 build, whatever
    the function [g] applied before the mask. *)
Lemma lookup2_masked_clipped (g : T → float) bands nodata c i :
  lookup2 (astype_uint8 (clip (where_ (valid_mask bands nodata) (map2d g bands) 0%float)
                              0%float 255%float)) c i
  = (λ s, to_uint8 (clip1 (if valid_sample nodata s then g s else 0%float)
                          0%float 255%float)) <$> lookup2 bands c i.
Proof.
  unfold astype_uint8, clip. rewrite !lookup2_map2d, lookup2_where.
  rewrite lookup2_valid_mask, lookup2_map2d.
  by destruct (lookup2 bands c i).
Qed.

Lemma shape_masked_clipped (g : T → float) bands nodata :
  shape (astype_uint8 (clip (where_ (valid_mask bands nodata) (map2d g bands) 0%float)
                            0%float 255%float)) = shape bands.
Proof.
  unfold astype_uint8, clip. rewrite !shape_map2d, valid_mask_map2d.
  apply shape_where.
Qed.

Lemma lookup2_zeros_like {A} (a : ndarray A) c i z :
  lookup2 (zeros_like a) c i = Some z → z = 0.
Proof.
  unfold zeros_like. rewrite lookup2_map2d.
  destruct (lookup2 a c i); simpl; congruence.
Qed.

Lemma compress_fmap_nil (v : T → bool) (row : list T) :
  compress (v <$> row) row = [] → existsb (λ b : bool, b) (v <$> row) = false.
Proof.
  induction row as [|x row IH]; simpl; [done|].
  destruct (v x); simpl; [done|auto].
Qed.

Lemma mask_index_nil (v : T → bool) bands :
  mask_index bands (map2d v bands) = [] → np_any (map2d v bands) = false.
Proof.
  unfold mask_index, np_any, map2d.
  induction bands as [|row bands IH]; simpl; [done|].
  intros [Hrow Hrest]%app_eq_nil.
  rewrite (compress_fmap_nil _ _ Hrow). simpl. by apply IH.
Qed.

(** The guard of line 65 keeps [np.min] and [np.max] from raising. *)
Lemma global_min_max_total bands nodata :
  ∃ lo hi, global_min_max bands (valid_mask bands nodata) = Ok (lo, hi).
Proof.
  unfold global_min_max. rewrite valid_mask_map2d.
  destruct (np_any _) eqn:Hany; [|eauto].
  destruct (mask_index _ _) as [|x l] eqn:Hsel.
  - apply mask_index_nil in Hsel. congruence.
  - simpl. eauto.
Qed.

Lemma scale_to_8bit_unfold bands nodata lo hi :
  global_min_max bands (valid_mask bands nodata) = Ok (lo, hi) →
  scale_to_8bit bands nodata =
    Ok (if scalar_eqb hi lo then zeros_like bands
        else astype_uint8 (clip (where_ (valid_mask bands nodata)
                                        (map2d (scaled_sample lo hi) bands) 0%float)
                                0%float 255%float)).
Proof.
  intros Hdom. unfold scale_to_8bit. rewrite Hdom. simpl.
  by destruct (scalar_eqb hi lo).
Qed.

Lemma scale_to_8bit_total bands nodata :
  ∃ out, scale_to_8bit bands nodata = Ok out.
Proof.
  destruct (global_min_max_total bands nodata) as (lo & hi & Hdom).
  rewrite (scale_to_8bit_unfold _ _ _ _ Hdom). eauto.
Qed.

Lemma scale_total bands nodata min_value max_value :
  ∃ out, scale bands nodata min_value max_value = Ok out.
Proof.
  unfold scale. destruct min_value, max_value; eauto using scale_to_8bit_total.
Qed.

Lemma to_uint8_clip_zero : to_uint8 (clip1 0%float 0%float 255%float) = 0.
Proof. reflexivity. Qed.
End ScalingFacts.

(** ** The results of the scaling, position by position *)

Section ScalingResults.
Context {T : Type} `{Dtype T}.
Implicit Types (bands : ndarray T) (nodata : option float) (s : T).

(** Both branches compute the same thing from their scaling domain. *)
Lemma scale_by_domain bands nodata min_value max_value :
  ∃ dom, scaling_domain bands nodata min_value max_value = Ok dom ∧
    scale bands nodata min_value max_value =
      Ok (if degenerate dom then zeros_like bands
          else astype_uint8 (clip (where_ (valid_mask bands nodata)
                                          (map2d (scaled dom) bands) 0%float)
                                  0%float 255%float)).
Proof.
  unfold scaling_domain, scale.
  destruct (global_min_max_total bands nodata) as (lo & hi & Hdom).
  pose proof (scale_to_8bit_unfold _ _ _ _ Hdom) as Hauto.
  destruct min_value as [a|], max_value as [b|];
    try (rewrite Hdom; simpl; eauto).
  eexists; split; [done|]. unfold scale_explicit. simpl.
  by destruct (PrimFloat.eqb b a).
Qed.

Lemma scale_lookup bands nodata min_value max_value dom out c i :
  scaling_domain bands nodata min_value max_value = Ok dom →
  scale bands nodata min_value max_value = Ok out →
  lookup2 out c i =
    (λ s, if degenerate dom then 0
          else to_uint8 (clip1 (if valid_sample nodata s then scaled dom s else 0%float)
                               0%float 255%float)) <$> lookup2 bands c i.
Proof.
  intros Hdom Hout.
  destruct (scale_by_domain bands nodata min_value max_value) as (dom' & Hdom' & Heq).
  assert (dom' = dom) as -> by congruence.
  rewrite Heq in Hout. injection Hout as <-.
  destruct (degenerate dom).
  - unfold zeros_like. rewrite lookup2_map2d. by destruct (lookup2 bands c i).
  - apply lookup2_masked_clipped.
Qed.

Lemma scale_shape bands nodata min_value max_value out :
  scale bands nodata min_value max_value = Ok out → shape out = shape bands.
Proof.
  intros Hout.
  destruct (scale_by_domain bands nodata min_value max_value) as (dom & _ & Heq).
  rewrite Heq in Hout. injection Hout as <-.
  destruct (degenerate dom).
  - apply shape_map2d.
  - apply shape_masked_clipped.
Qed.

Lemma lookup2_shape {A B} (a : ndarray A) (b : ndarray B) c i :
  shape a = shape b → is_Some (lookup2 a c i) → is_Some (lookup2 b c i).
Proof.
  unfold shape, lookup2. intros Hsh [x Hx].
  destruct (a !! c) as [ra|] eqn:Ha; simpl in Hx; [|done].
  assert ((length <$> b) !! c = Some (length ra)) as Hb.
  { rewrite <- Hsh, list_lookup_fmap, Ha. done. }
  rewrite list_lookup_fmap in Hb.
  destruct (b !! c) as [rb|]; simpl in *; [|done].
  apply lookup_lt_is_Some. apply lookup_lt_Some in Hx.
  injection Hb as Hb. lia.
Qed.

Lemma Forall_lookup2 {A} (P : A → Prop) (a : ndarray A) :
  Forall (Forall P) a ↔ ∀ c i x, lookup2 a c i = Some x → P x.
Proof.
  unfold lookup2. rewrite Forall_lookup. split.
  - intros Hall c i x Hx.
    destruct (a !! c) as [row|] eqn:Hrow; simpl in Hx; [|done].
    specialize (Hall c row Hrow). rewrite Forall_lookup in Hall. eauto.
  - intros Hall c row Hrow. rewrite Forall_lookup. intros i x Hx.
    apply (Hall c i). by rewrite Hrow.
Qed.

Lemma np_any_false (m : ndarray bool) :
  Forall (Forall (λ b, b = false)) m → np_any m = false.
Proof.
  unfold np_any. induction 1 as [|row m Hrow _ IH]; simpl; [done|].
  rewrite IH, orb_false_r.
  induction Hrow as [|b row -> _ IHrow]; simpl; done.
Qed.
End ScalingResults.

(** ** Degenerate domains, masked samples, the fallback and the range *)

Section Claims.
Context {T : Type} `{Dtype T}.
Implicit Types (bands : ndarray T) (nodata : option float) (s : T).

(** C3.  If the scaling domain has low == high, whether it was computed
    from the data or provided, the scaling succeeds and every element of
    its result, which has the shape of the input, is 0. *)
Theorem degenerate_domain_all_zero bands nodata min_value max_value dom :
  scaling_domain bands nodata min_value max_value = Ok dom →
  degenerate dom = true →
  ∃ out, scale bands nodata min_value max_value = Ok out
         ∧ shape out = shape bands
         ∧ Forall (Forall (λ z, z = 0)) out.
Proof.
  intros Hdom Hdeg.
  destruct (scale_total bands nodata min_value max_value) as [out Hout].
  exists out. split; [done|]. split; [by eapply scale_shape|].
  apply Forall_lookup2. intros c i z.
  rewrite (scale_lookup _ _ _ _ _ _ c i Hdom Hout), Hdeg.
  destruct (lookup2 bands c i); simpl; congruence.
Qed.

(** C4.  Where the validity mask is false, and in particular where the
    sample is equal to the no-data value, the result is exactly 0, with
    the computed domain and with any provided one. *)
Theorem masked_position_is_zero bands nodata min_value max_value c i s :
  lookup2 bands c i = Some s →
  lookup2 (valid_mask bands nodata) c i = Some false
  ∨ (∃ nd, nodata = Some nd ∧ PrimFloat.eqb (as_float64 s) nd = true) →
  ∃ out, scale bands nodata min_value max_value = Ok out
         ∧ lookup2 out c i = Some 0.
Proof.
  intros Hs Hmask.
  assert (valid_sample nodata s = false) as Hv.
  { destruct Hmask as [Hm|(nd & -> & Heq)].
    - rewrite lookup2_valid_mask, Hs in Hm. simpl in Hm. congruence.
    - simpl. by rewrite Heq. }
  destruct (scale_total bands nodata min_value max_value) as [out Hout].
  destruct (scale_by_domain bands nodata min_value max_value) as (dom & Hdom & _).
  exists out. split; [done|].
  rewrite (scale_lookup _ _ _ _ _ _ c i Hdom Hout), Hs. simpl. rewrite Hv.
  by destruct (degenerate dom).
Qed.

(** C5.  When every sample is no-data and no domain is provided, nothing
    is raised: the domain is the fallback (0, 1) and the result, of the
    shape of the input, is all zero. *)
Theorem all_nodata_fallback bands nodata :
  Forall (Forall (λ b, b = false)) (valid_mask bands nodata) →
  global_min_max bands (valid_mask bands nodata) = Ok (PyInt 0, PyInt 1)
  ∧ ∃ out, scale_to_8bit bands nodata = Ok out
           ∧ scale bands nodata None None = Ok out
           ∧ shape out = shape bands
           ∧ Forall (Forall (λ z, z = 0)) out.
Proof.
  intros Hmask.
  assert (global_min_max bands (valid_mask bands nodata) = Ok (PyInt 0, PyInt 1)) as Hdom.
  { unfold global_min_max. by rewrite np_any_false. }
  split; [done|].
  destruct (scale_to_8bit_total bands nodata) as [out Hout].
  exists out. split; [done|]. split; [done|].
  split; [by apply (scale_shape bands nodata None None)|].
  apply Forall_lookup2. intros c i z.
  rewrite (scale_lookup bands nodata None None (Computed (PyInt 0) (PyInt 1)) out c i);
    [| by unfold scaling_domain; rewrite Hdom | done].
  destruct (lookup2 bands c i) as [s|] eqn:Hs; simpl; [|done].
  rewrite Forall_lookup2 in Hmask.
  assert (valid_sample nodata s = false) as ->.
  { apply (Hmask c i). by rewrite lookup2_valid_mask, Hs. }
  intros [= <-]. reflexivity.
Qed.

(** C8.  The scaling always succeeds and every element of its result lies
    in [0, 255]; with the provided domain (0, 10000) a valid sample of
    value 15000 gives exactly 255. *)
Theorem output_range bands nodata min_value max_value :
  ∃ out, scale bands nodata min_value max_value = Ok out
         ∧ Forall (Forall (λ z, 0 ≤ z ≤ 255)) out
         ∧ (min_value = Some 0%float → max_value = Some 10000%float →
            ∀ c i s, lookup2 bands c i = Some s →
                     valid_sample nodata s = true →
                     as_float64 s = 15000%float →
                     lookup2 out c i = Some 255).
Proof.
  destruct (scale_total bands nodata min_value max_value) as [out Hout].
  destruct (scale_by_domain bands nodata min_value max_value) as (dom & Hdom & _).
  exists out. split; [done|]. split.
  - apply Forall_lookup2. intros c i z.
    rewrite (scale_lookup _ _ _ _ _ _ c i Hdom Hout).
    destruct (lookup2 bands c i) as [s|]; simpl; [|done].
    intros [= <-]. destruct (degenerate dom); [lia|].
    unfold to_uint8. pose proof (Z.mod_pos_bound (truncate
      (clip1 (if valid_sample nodata s then scaled dom s else 0%float) 0 255)) 256).
    lia.
  - intros -> -> c i s Hs Hv Hval.
    rewrite (scale_lookup _ _ _ _ _ _ c i Hdom Hout), Hs. simpl.
    injection Hdom as <-. simpl. rewrite Hv.
    unfold scaled_sample_explicit. rewrite Hval. reflexivity.
Qed.
End Claims.

(** A raster of three bands with two pixels each, and one whose samples are
    all equal to its no-data value. *)
Lemma degenerate_domain_all_zero_witness :
  ∃ out, scale [[U16 7; U16 7]; [U16 7; U16 7]; [U16 7; U16 7]] None None None = Ok out
         ∧ shape out = [2%nat; 2%nat; 2%nat]
         ∧ Forall (Forall (λ z, z = 0)) out.
Proof.
  apply (degenerate_domain_all_zero
           [[U16 7; U16 7]; [U16 7; U16 7]; [U16 7; U16 7]] None None None
           (Computed (NpScalar (U16 7)) (NpScalar (U16 7)))); reflexivity.
Defined.

Lemma masked_position_is_zero_witness :
  ∃ out, scale [[U16 0; U16 900]; [U16 40; U16 800]; [U16 0; U16 1200]]
               (Some 0%float) (Some 0%float) (Some 1000%float) = Ok out
         ∧ lookup2 out 2 0 = Some 0.
Proof.
  apply (masked_position_is_zero
           [[U16 0; U16 900]; [U16 40; U16 800]; [U16 0; U16 1200]]
           (Some 0%float) (Some 0%float) (Some 1000%float) 2 0 (U16 0)).
  - reflexivity.
  - left. reflexivity.
Defined.

Lemma all_nodata_fallback_witness :
  global_min_max [[U16 9; U16 9]; [U16 9; U16 9]; [U16 9; U16 9]]
                 (valid_mask [[U16 9; U16 9]; [U16 9; U16 9]; [U16 9; U16 9]] (Some 9%float))
  = Ok (PyInt 0, PyInt 1)
  ∧ ∃ out, scale_to_8bit [[U16 9; U16 9]; [U16 9; U16 9]; [U16 9; U16 9]] (Some 9%float) = Ok out
           ∧ scale [[U16 9; U16 9]; [U16 9; U16 9]; [U16 9; U16 9]] (Some 9%float) None None = Ok out
           ∧ shape out = [2%nat; 2%nat; 2%nat]
           ∧ Forall (Forall (λ z, z = 0)) out.
Proof.
  apply (all_nodata_fallback [[U16 9; U16 9]; [U16 9; U16 9]; [U16 9; U16 9]] (Some 9%float)).
  repeat constructor.
Defined.

(** ** The value at a valid position, and its monotonicity *)

Lemma quantize_is_truncation (p : float) : quantize p = truncate (clip1 p 0 255).
Proof.
  destruct (is_nan p) eqn:Hp.
  - rewrite quantize_nan by done.
    unfold clip1, fmax, fmin. rewrite Hp, Hp.
    unfold truncate. apply is_nan_spec in Hp. by rewrite Hp.
  - by apply quantize_truncate.
Qed.


(** The claim of C9 fails for a provided domain with min above max, which
    the code accepts: with the domain (10, 0) the sample 0 gives 255 and the
    larger sample 10 gives 0. *)
Lemma inverted_domain_counterexample :
  PrimFloat.leb 0 10 = true
  ∧ scale [[0%float; 10%float]; [0%float; 10%float]; [0%float; 10%float]]
          None (Some 10%float) (Some 0%float)
    = Ok [[255; 0]; [255; 0]; [255; 0]].
Proof. split; reflexivity. Qed.

Lemma wrap_u16_small (z : Z) : 0 ≤ z ≤ 65535 → wrap_u16 z = z.
Proof. intros Hz. unfold wrap_u16. apply Z.mod_small. lia. Qed.

Lemma wrap_i16_small (z : Z) : -32768 ≤ z ≤ 32767 → wrap_i16 z = z.
Proof. intros Hz. unfold wrap_i16. rewrite Z.mod_small by lia. lia. Qed.

Lemma wrap_i16_large (z : Z) : 32768 ≤ z ≤ 65535 → wrap_i16 z = z - 65536.
Proof.
  intros Hz. unfold wrap_i16.
  replace (z + 32768) with (z - 32768 + 1 * 65536) by lia.
  rewrite Z.mod_add, Z.mod_small by lia. lia.
Qed.

(** Scaling between the computed bounds of a 16-bit signed raster, through
    the wrap-around of the two differences. *)
Lemma scaled_int16_monotone (lo hi s1 s2 : Z) :
  -32768 ≤ lo → lo ≤ s1 → s1 ≤ s2 → s2 ≤ hi → hi ≤ 32767 → lo < hi →
  scaled_int (wrap_i16 (s1 - lo)) (wrap_i16 (hi - lo))
  ≤ scaled_int (wrap_i16 (s2 - lo)) (wrap_i16 (hi - lo)).
Proof.
  intros Hlo H1 H12 H2 Hhi Hlt.
  destruct (Z_le_gt_dec (hi - lo) 32767) as [Hd|Hd].
  - rewrite !wrap_i16_small by lia. apply scaled_int_mono; lia.
  - rewrite (wrap_i16_large (hi - lo)) by lia.
    destruct (Z_le_gt_dec (s2 - lo) 32767) as [Ha2|Ha2].
    + rewrite !wrap_i16_small by lia.
      rewrite !scaled_int_neg_low by lia. done.
    + rewrite (wrap_i16_large (s2 - lo)) by lia.
      rewrite (scaled_int_neg_high (s2 - lo - 65536)) by lia.
      apply quantize_range.
Qed.

(** C9, amended.  For a domain with low < high the value stored at a valid
    position does not decrease when the sample grows: with a provided domain
    for every element type, and with a computed one for float64 samples and
    for 16-bit samples within the computed bounds. *)
Theorem scaling_monotone :
  (∀ (T : Type) `(Dtype T) (lo hi : float) (s1 s2 : T),
     PrimFloat.ltb lo hi = true →
     PrimFloat.leb (as_float64 s1) (as_float64 s2) = true →
     quantize (scaled (Provided lo hi) s1) ≤ quantize (scaled (Provided lo hi) s2))
  ∧ (∀ (lo hi : float) (z1 z2 : Z),
       PrimFloat.ltb lo hi = true → - 2 ^ 63 < z1 → z1 ≤ z2 → z2 < 2 ^ 63 →
       quantize (scaled (Provided lo hi) (U16 z1)) ≤ quantize (scaled (Provided lo hi) (U16 z2))
       ∧ quantize (scaled (Provided lo hi) (I16 z1))
         ≤ quantize (scaled (Provided lo hi) (I16 z2)))
  ∧ (∀ lo hi s1 s2 : float,
       PrimFloat.ltb lo hi = true → PrimFloat.leb s1 s2 = true →
       quantize (scaled (Computed (NpScalar lo) (NpScalar hi)) s1)
       ≤ quantize (scaled (Computed (NpScalar lo) (NpScalar hi)) s2))
  ∧ (∀ lo hi s1 s2 : Z,
       0 ≤ lo → lo ≤ s1 → s1 ≤ s2 → s2 ≤ hi → hi ≤ 65535 → lo < hi →
       quantize (scaled (Computed (NpScalar (U16 lo)) (NpScalar (U16 hi))) (U16 s1))
       ≤ quantize (scaled (Computed (NpScalar (U16 lo)) (NpScalar (U16 hi))) (U16 s2)))
  ∧ (∀ lo hi s1 s2 : Z,
       -32768 ≤ lo → lo ≤ s1 → s1 ≤ s2 → s2 ≤ hi → hi ≤ 32767 → lo < hi →
       quantize (scaled (Computed (NpScalar (I16 lo)) (NpScalar (I16 hi))) (I16 s1))
       ≤ quantize (scaled (Computed (NpScalar (I16 lo)) (NpScalar (I16 hi))) (I16 s2))).
Proof.
  split; [|split; [|split; [|split]]].
  - intros T H lo hi s1 s2 Hlt Hle. by apply scaled_monotone.
  - intros lo hi z1 z2 Hlt H1 H12 H2.
    split; apply scaled_monotone; try done; by apply float_of_Z_leb.
  - intros lo hi s1 s2 Hlt Hle. by apply scaled_monotone.
  - intros lo hi s1 s2 Hlo H1 H12 H2 Hhi Hlt.
    change (scaled_int (wrap_u16 (s1 - lo)) (wrap_u16 (hi - lo))
            ≤ scaled_int (wrap_u16 (s2 - lo)) (wrap_u16 (hi - lo))).
    rewrite !wrap_u16_small by lia. apply scaled_int_mono; lia.
  - intros lo hi s1 s2 Hlo H1 H12 H2 Hhi Hlt.
    by apply scaled_int16_monotone.
Qed.

Lemma scaling_monotone_witness :
  quantize (scaled (Provided 0 10000) 2500%float)
  ≤ quantize (scaled (Provided 0 10000) 15000%float).
Proof.
  apply (proj1 scaling_monotone float _ 0%float 10000%float 2500%float 15000%float);
    reflexivity.
Defined.

(** ** The validity mask *)

Lemma is_zero_not_nan (x : float) : PrimFloat.is_zero x = true → is_nan x = false.
Proof.
  intros [s Hs]%is_zero_spec. apply not_nan_SF. by rewrite Hs.
Qed.




(** ** The command line and the partial domain *)

(** The claim of C6 fails on [convert_raster_to_rgb]: called with a minimum
    and no maximum it raises nothing, reads the three bands and writes both
    files. *)
Lemma partial_domain_counterexample :
  (convert_raster_to_rgb example_repr "in.tif" "out.tif" 1 2 3 (Some 0%float) None
     example_world).1 = Ok tt
  ∧ trace (convert_raster_to_rgb example_repr "in.tif" "out.tif" 1 2 3 (Some 0%float) None
             example_world).2
    = [EvOpen "in.tif"; EvRead 1; EvRead 2; EvRead 3; EvCreate "out.tif"; EvCreate "out.tfw"].
Proof. split; vm_compute; reflexivity. Qed.

(** C6, amended.  On the command line, when the input file exists and
    exactly one of [--min] and [--max] is given, the program prints the error
    and exits with status 1 after the test of existence alone: no raster is
    opened, no band is read, nothing is written.  [convert_raster_to_rgb]
    itself does not reject a partial domain: it scales as without domain. *)
Theorem partial_domain_rejected {T : Type} `{Dtype T} (float_repr : float → string)
    (args : Args.t) (w : world (T:=T)) :
  is_Some (fs w !! Args.input args) →
  xorb (is_not_None (Args.min args)) (is_not_None (Args.max args)) = true →
  main float_repr args w
  = (1, World (fs w) (trace w ++ [EvExists (Args.input args)])
              (stderr w ++ [Text "Error: Both --min and --max must be specified together."]))
  ∧ convert_raster_to_rgb float_repr (Args.input args) (Args.output args)
      (Args.red args) (Args.green args) (Args.blue args) (Args.min args) (Args.max args)
    = convert_raster_to_rgb float_repr (Args.input args) (Args.output args)
        (Args.red args) (Args.green args) (Args.blue args) None None.
Proof.
  intros Hin Hpartial. split.
  - unfold main, bind_io, path_exists, log, eprint, ret. simpl.
    rewrite bool_decide_eq_true_2 by done. simpl. rewrite Hpartial. done.
  - destruct (Args.min args), (Args.max args); done.
Qed.

Lemma partial_domain_rejected_witness :
  main example_repr (Args.mk "in.tif" "out.tif" 1 2 3 (Some 0%float) None) example_world
  = (1, World (fs example_world) (trace example_world ++ [EvExists "in.tif"])
              (stderr example_world
               ++ [Text "Error: Both --min and --max must be specified together."]))
  ∧ convert_raster_to_rgb (T:=uint16) example_repr "in.tif" "out.tif" 1 2 3 (Some 0%float) None
    = convert_raster_to_rgb example_repr "in.tif" "out.tif" 1 2 3 None None.
Proof.
  refine (partial_domain_rejected example_repr
            (Args.mk "in.tif" "out.tif" 1 2 3 (Some 0%float) None) example_world _ _).
  - vm_compute. eauto.
  - reflexivity.
Defined.

(** ** Paths and the world file *)

Lemma append_cons (x : Ascii.ascii) (a b : string) : String x a +++ b = String x (a +++ b).
Proof. reflexivity. Qed.

Lemma append_nil (b : string) : EmptyString +++ b = b.
Proof. reflexivity. Qed.

Lemma str_take_drop (n : nat) (p : string) : str_take n p +++ str_drop n p = p.
Proof.
  revert p. induction n as [|n IH]; intros [|x p]; simpl; try done.
  rewrite append_cons. f_equal. apply IH.
Qed.

Lemma str_app_assoc (a b c : string) : (a +++ b) +++ c = a +++ (b +++ c).
Proof.
  induction a as [|x a IH]; [done|]. rewrite !append_cons. by rewrite IH.
Qed.

Lemma contains_drop (c : Ascii.ascii) (p : string) (n : nat) :
  contains c p = false → contains c (str_drop n p) = false.
Proof.
  revert p. induction n as [|n IH]; intros [|x p]; simpl; try done.
  intros [_ Hp]%orb_false_elim. by apply IH.
Qed.

Lemma contains_drop_le (c : Ascii.ascii) (p : string) (n k : nat) :
  contains c (str_drop n p) = false → (n ≤ k)%nat → contains c (str_drop k p) = false.
Proof.
  revert p k. induction n as [|n IH]; intros p k Hp Hk.
  - simpl in Hp. destruct p; by apply contains_drop.
  - destruct k as [|k]; [lia|]. destruct p as [|x p]; [done|].
    simpl in *. apply IH; [done|lia].
Qed.

Lemma str_drop_get (c : Ascii.ascii) (p : string) (n : nat) :
  String.get n p = Some c → str_drop n p = String c (str_drop (S n) p).
Proof.
  revert p. induction n as [|n IH]; intros [|x p]; simpl; try done.
  - intros [= ->]. by destruct p.
  - intros Hg. rewrite (IH p Hg). done.
Qed.

(** [rfind] returns the last place of the character. *)
Lemma rfind_from_spec (c : Ascii.ascii) (p : string) (i last : Z) :
  (contains c p = false ∧ rfind_from c p i last = last)
  ∨ ∃ n : nat, rfind_from c p i last = i + Z.of_nat n
               ∧ String.get n p = Some c
               ∧ contains c (str_drop (S n) p) = false.
Proof.
  revert i last. induction p as [|x p IH]; intros i last; simpl.
  - by left.
  - destruct (IH (i + 1) (if Ascii.eqb x c then i else last))
      as [[Hno Heq]|(n & Heq & Hget & Hrest)].
    + rewrite Heq, Hno, orb_false_r.
      destruct (Ascii.eqb_spec x c) as [->|Hne].
      * right. exists 0%nat. split; [lia|]. split; [done|]. simpl. by destruct p.
      * by left.
    + right. exists (S n). split; [lia|]. split; [done|]. done.
Qed.

Lemma splitext_spec (p : string) :
  let '(root, ext) := splitext p in
  p = root +++ ext ∧ is_extension ext.
Proof.
  unfold splitext.
  destruct ((rfind p "/" <? rfind p ".") && name_before_dot _ _ _) eqn:Hcond.
  - apply andb_prop in Hcond as [Hlt%Z.ltb_lt _].
    split; [by rewrite str_take_drop|].
    unfold rfind in *.
    destruct (rfind_from_spec "." p 0 (-1)) as [[_ Hd]|(n & Hd & Hget & Hrest)].
    { destruct (rfind_from_spec "/" p 0 (-1)) as [[_ Hs]|(k & Hs & _)]; lia. }
    rewrite Hd, Z.add_0_l, Nat2Z.id. right.
    exists (str_drop (S n) p). split; [by apply str_drop_get|]. split; [done|].
    destruct (rfind_from_spec "/" p 0 (-1)) as [[Hno _]|(k & Hs & _ & Hk)].
    + by apply contains_drop.
    + apply (contains_drop_le _ _ (S k)); [done|lia].
  - split; [|by left]. clear. induction p as [|x p IH]; [done|].
    rewrite append_cons. by rewrite <- IH.
Qed.

Lemma split_on_segment (c : Ascii.ascii) (a rest : string) :
  contains c a = false →
  split_on c (a +++ String c rest) = a :: split_on c rest.
Proof.
  induction a as [|x a IH].
  - intros _. rewrite append_nil. simpl. by rewrite Ascii.eqb_refl.
  - simpl contains. intros [Hx Ha]%orb_false_elim.
    rewrite append_cons. simpl split_on. rewrite Hx, (IH Ha). done.
Qed.


(** ** The computed domain is the joint minimum and maximum *)

Section MinMax.
Context {T : Type} `{Dtype T}.
Variable le : T → T → Prop.
Variable ok : T → Prop.
Hypothesis le_refl : ∀ x, ok x → le x x.
Hypothesis le_trans : ∀ x y z, le x y → le y z → le x z.
Hypothesis minimum_case :
  ∀ x y, ok x → ok y →
    (np_minimum x y = x ∨ np_minimum x y = y) ∧ le (np_minimum x y) x ∧ le (np_minimum x y) y.
Hypothesis maximum_case :
  ∀ x y, ok x → ok y →
    (np_maximum x y = x ∨ np_maximum x y = y) ∧ le x (np_maximum x y) ∧ le y (np_maximum x y).

Lemma foldl_minimum_least (x : T) (l : list T) :
  ok x → Forall ok l →
  foldl np_minimum x l ∈ x :: l ∧ ok (foldl np_minimum x l)
  ∧ ∀ y, y ∈ x :: l → le (foldl np_minimum x l) y.
Proof.
  intros Hx Hl. revert x Hx. induction Hl as [|z l Hz Hl IH]; intros x Hx; simpl.
  - split; [apply list_elem_of_here|]. split; [done|].
    intros y ->%list_elem_of_singleton. by apply le_refl.
  - destruct (minimum_case x z Hx Hz) as (Hcase & Hmx & Hmz).
    assert (ok (np_minimum x z)) as Hm by (destruct Hcase as [->| ->]; done).
    destruct (IH _ Hm) as (Hin & Hok & Hle).
    assert (le (foldl np_minimum (np_minimum x z) l) (np_minimum x z)) as Hfm
      by (apply Hle, list_elem_of_here).
    split; [|split; [done|]].
    + apply elem_of_cons in Hin as [Hin|Hin].
      * rewrite Hin. destruct Hcase as [->| ->].
        -- apply list_elem_of_here.
        -- apply list_elem_of_further, list_elem_of_here.
      * by do 2 apply list_elem_of_further.
    + intros y Hy.
      apply elem_of_cons in Hy as [->|Hy]; [by eapply le_trans|].
      apply elem_of_cons in Hy as [->|Hy]; [by eapply le_trans|].
      by apply Hle, list_elem_of_further.
Qed.

Lemma foldl_maximum_greatest (x : T) (l : list T) :
  ok x → Forall ok l →
  foldl np_maximum x l ∈ x :: l ∧ ok (foldl np_maximum x l)
  ∧ ∀ y, y ∈ x :: l → le y (foldl np_maximum x l).
Proof.
  intros Hx Hl. revert x Hx. induction Hl as [|z l Hz Hl IH]; intros x Hx; simpl.
  - split; [apply list_elem_of_here|]. split; [done|].
    intros y ->%list_elem_of_singleton. by apply le_refl.
  - destruct (maximum_case x z Hx Hz) as (Hcase & Hmx & Hmz).
    assert (ok (np_maximum x z)) as Hm by (destruct Hcase as [->| ->]; done).
    destruct (IH _ Hm) as (Hin & Hok & Hle).
    assert (le (np_maximum x z) (foldl np_maximum (np_maximum x z) l)) as Hfm
      by (apply Hle, list_elem_of_here).
    split; [|split; [done|]].
    + apply elem_of_cons in Hin as [Hin|Hin].
      * rewrite Hin. destruct Hcase as [->| ->].
        -- apply list_elem_of_here.
        -- apply list_elem_of_further, list_elem_of_here.
      * by do 2 apply list_elem_of_further.
    + intros y Hy.
      apply elem_of_cons in Hy as [->|Hy]; [by eapply le_trans|].
      apply elem_of_cons in Hy as [->|Hy]; [by eapply le_trans|].
      by apply Hle, list_elem_of_further.
Qed.

Lemma elem_of_compress (v : T → bool) (row : list T) (x : T) :
  x ∈ compress (v <$> row) row ↔ ∃ i, row !! i = Some x ∧ v x = true.
Proof.
  induction row as [|y row IH]; simpl.
  - split; [by intros ?%not_elem_of_nil|]. by intros (i & ? & _).
  - destruct (v y) eqn:Hy.
    + rewrite elem_of_cons, IH. split.
      * intros [->|(i & Hi & Hv)]; [by exists 0%nat|by exists (S i)].
      * intros ([|i] & Hi & Hv); simpl in Hi; [left; congruence|right; eauto].
    + rewrite IH. split.
      * intros (i & Hi & Hv). by exists (S i).
      * intros ([|i] & Hi & Hv); simpl in Hi; [congruence|eauto].
Qed.

(** [a[mask]] holds the samples of all bands where the mask is true. *)
Lemma elem_of_mask_index (v : T → bool) (bands : ndarray T) (x : T) :
  x ∈ mask_index bands (map2d v bands) ↔ ∃ c i, lookup2 bands c i = Some x ∧ v x = true.
Proof.
  unfold mask_index, map2d, lookup2.
  induction bands as [|row bands IH]; simpl.
  - split; [by intros ?%not_elem_of_nil|]. by intros (c & i & ? & _).
  - rewrite elem_of_app, elem_of_compress, IH. split.
    + intros [(i & Hi & Hv)|(c & i & Hi & Hv)]; [by exists 0%nat, i|by exists (S c), i].
    + intros ([|c] & i & Hi & Hv); simpl in Hi; [left|right]; eauto.
Qed.

(** With one valid sample at least, the computed domain is made of the
    least and of the greatest valid sample of the three bands together. *)
Lemma global_min_max_joint (bands : ndarray T) (nodata : option float) :
  (∃ c i s, lookup2 bands c i = Some s ∧ valid_sample nodata s = true) →
  (∀ c i s, lookup2 bands c i = Some s → valid_sample nodata s = true → ok s) →
  ∃ lo hi,
    global_min_max bands (valid_mask bands nodata) = Ok (NpScalar lo, NpScalar hi)
    ∧ (∃ c i, lookup2 bands c i = Some lo ∧ valid_sample nodata lo = true)
    ∧ (∃ c i, lookup2 bands c i = Some hi ∧ valid_sample nodata hi = true)
    ∧ ∀ c i s, lookup2 bands c i = Some s → valid_sample nodata s = true →
               le lo s ∧ le s hi.
Proof.
  intros Hex Hok. unfold global_min_max. rewrite valid_mask_map2d.
  pose proof (elem_of_mask_index (valid_sample nodata) bands) as Hsel.
  destruct (mask_index bands (map2d (valid_sample nodata) bands)) as [|x l] eqn:Hl.
  { destruct Hex as (c & i & s & Hs & Hv).
    assert (s ∈ @nil T) as Hin by (apply Hsel; eauto). by apply not_elem_of_nil in Hin. }
  destruct (np_any _) eqn:Hany.
  2:{ destruct Hex as (c & i & s & Hs & Hv).
      assert (np_any (map2d (valid_sample nodata) bands) = true); [|congruence].
      clear -Hs Hv. unfold np_any, map2d, lookup2 in *.
      apply existsb_exists.
      destruct (bands !! c) as [row|] eqn:Hrow; simpl in Hs; [|done].
      exists (valid_sample nodata <$> row). split.
      - apply list_elem_of_In, list_elem_of_fmap. exists row. split; [done|].
        by eapply list_elem_of_lookup_2.
      - apply existsb_exists. exists true. split; [|done].
        apply list_elem_of_In, list_elem_of_fmap. exists s. split; [done|].
        by eapply list_elem_of_lookup_2. }
  assert (∀ y, y ∈ x :: l → ok y) as Hall.
  { intros y (c & i & Hy & Hv)%Hsel. eauto. }
  assert (ok x) as Hx by (apply Hall, list_elem_of_here).
  assert (Forall ok l) as Hfl
    by (apply Forall_forall; intros y Hy; by apply Hall, list_elem_of_further).
  destruct (foldl_minimum_least x l Hx Hfl) as (Hmin_in & _ & Hmin).
  destruct (foldl_maximum_greatest x l Hx Hfl) as (Hmax_in & _ & Hmax).
  simpl. eexists _, _. split; [done|].
  split; [by apply Hsel|]. split; [by apply Hsel|].
  intros c i s Hs Hv.
  assert (s ∈ x :: l) as Hin by (apply Hsel; eauto). auto.
Qed.
End MinMax.

Lemma uint16_min_max_joint (bands : ndarray uint16) (nodata : option float) :
  (∃ c i s, lookup2 bands c i = Some s ∧ valid_sample nodata s = true) →
  ∃ lo hi,
    global_min_max bands (valid_mask bands nodata) = Ok (NpScalar lo, NpScalar hi)
    ∧ (∃ c i, lookup2 bands c i = Some lo ∧ valid_sample nodata lo = true)
    ∧ (∃ c i, lookup2 bands c i = Some hi ∧ valid_sample nodata hi = true)
    ∧ ∀ c i s, lookup2 bands c i = Some s → valid_sample nodata s = true →
               u16 lo ≤ u16 s ∧ u16 s ≤ u16 hi.
Proof.
  intros Hex.
  apply (global_min_max_joint (λ x y, u16 x ≤ u16 y) (λ _, True)); try done.
  - intros; cbv beta in *; lia.
  - intros x y _ _. cbn. destruct (Z.leb_spec (u16 x) (u16 y)); split; auto; lia.
  - intros x y _ _. cbn. destruct (Z.leb_spec (u16 y) (u16 x)); split; auto; lia.
Qed.

Lemma int16_min_max_joint (bands : ndarray int16) (nodata : option float) :
  (∃ c i s, lookup2 bands c i = Some s ∧ valid_sample nodata s = true) →
  ∃ lo hi,
    global_min_max bands (valid_mask bands nodata) = Ok (NpScalar lo, NpScalar hi)
    ∧ (∃ c i, lookup2 bands c i = Some lo ∧ valid_sample nodata lo = true)
    ∧ (∃ c i, lookup2 bands c i = Some hi ∧ valid_sample nodata hi = true)
    ∧ ∀ c i s, lookup2 bands c i = Some s → valid_sample nodata s = true →
               i16 lo ≤ i16 s ∧ i16 s ≤ i16 hi.
Proof.
  intros Hex.
  apply (global_min_max_joint (λ x y, i16 x ≤ i16 y) (λ _, True)); try done.
  - intros; cbv beta in *; lia.
  - intros x y _ _. cbn. destruct (Z.leb_spec (i16 x) (i16 y)); split; auto; lia.
  - intros x y _ _. cbn. destruct (Z.leb_spec (i16 y) (i16 x)); split; auto; lia.
Qed.

Lemma float64_min_max_joint (bands : ndarray float) (nodata : option float) :
  (∃ c i s, lookup2 bands c i = Some s ∧ valid_sample nodata s = true) →
  (∀ c i s, lookup2 bands c i = Some s → valid_sample nodata s = true → is_nan s = false) →
  ∃ lo hi,
    global_min_max bands (valid_mask bands nodata) = Ok (NpScalar lo, NpScalar hi)
    ∧ (∃ c i, lookup2 bands c i = Some lo ∧ valid_sample nodata lo = true)
    ∧ (∃ c i, lookup2 bands c i = Some hi ∧ valid_sample nodata hi = true)
    ∧ ∀ c i s, lookup2 bands c i = Some s → valid_sample nodata s = true →
               PrimFloat.leb lo s = true ∧ PrimFloat.leb s hi = true.
Proof.
  intros Hex Hok.
  apply (global_min_max_joint (λ x y, PrimFloat.leb x y = true) (λ x, is_nan x = false));
    try done.
  - intros x Hx. rewrite leb_key by done. lia.
  - intros x y z Hxy Hyz.
    destruct (leb_true_not_nan _ _ Hxy) as [Hx Hy].
    destruct (leb_true_not_nan _ _ Hyz) as [_ Hz].
    rewrite leb_key in * by done. lia.
  - intros x y Hx Hy. cbn. rewrite Hx, orb_false_r.
    destruct (PrimFloat.ltb x y) eqn:Hlt; rewrite ltb_key in Hlt by done;
      rewrite !leb_key by done; split; auto; lia.
  - intros x y Hx Hy. cbn. rewrite Hx, orb_false_r.
    destruct (PrimFloat.ltb y x) eqn:Hlt; rewrite ltb_key in Hlt by done;
      rewrite !leb_key by done; split; auto; lia.
Qed.

Lemma scaling_domain_computed {T} `{Dtype T} (bands : ndarray T) nodata lo hi :
  global_min_max bands (valid_mask bands nodata) = Ok (lo, hi) →
  scaling_domain bands nodata None None = Ok (Computed lo hi).
Proof. intros Heq. unfold scaling_domain. by rewrite Heq. Qed.

Lemma lookup2_three {A} (r g b : list A) c i x :
  lookup2 [r; g; b] c i = Some x → x ∈ r ∨ x ∈ g ∨ x ∈ b.
Proof.
  unfold lookup2. destruct c as [|[|[|c]]]; simpl; intros Hx;
    eauto using list_elem_of_lookup_2. done.
Qed.

Lemma elem_of_lookup2 {A} (bands : ndarray A) (band : list A) c x :
  bands !! c = Some band → x ∈ band → ∃ i, lookup2 bands c i = Some x.
Proof.
  intros Hc [i Hi]%list_elem_of_lookup_1. exists i. unfold lookup2. by rewrite Hc.
Qed.

(** The scenario: the joint domain of three bands with valid ranges
    [[0, 10000]], [[0, 8000]] and [[0, 12000]]. *)
Lemma scenario_domain (r g b : list uint16) (nodata : option float) :
  has_valid_range nodata r 0 10000 →
  has_valid_range nodata g 0 8000 →
  has_valid_range nodata b 0 12000 →
  scaling_domain [r; g; b] nodata None None
  = Ok (Computed (NpScalar (U16 0)) (NpScalar (U16 12000))).
Proof.
  intros (Hr & (s0 & Hs0 & Hv0 & Hz0) & _) (Hg & _) (Hb & _ & (s1 & Hs1 & Hv1 & Hz1)).
  destruct (elem_of_lookup2 [r; g; b] r 0 s0 eq_refl Hs0) as [i0 Hi0].
  destruct (elem_of_lookup2 [r; g; b] b 2 s1 eq_refl Hs1) as [i1 Hi1].
  destruct (uint16_min_max_joint [r; g; b] nodata) as
    (lo & hi & Hdom & (cl & il & Hlo & Hvlo) & (ch & ih & Hhi & Hvhi) & Hbounds);
    [by eauto|].
  assert (∀ c i s, lookup2 [r; g; b] c i = Some s → valid_sample nodata s = true →
                   0 ≤ u16 s ≤ 12000) as Hrange.
  { intros c i s [Hs|[Hs|Hs]]%lookup2_three Hv.
    - specialize (Hr s Hs Hv). lia.
    - specialize (Hg s Hs Hv). lia.
    - specialize (Hb s Hs Hv). lia. }
  pose proof (Hrange _ _ _ Hlo Hvlo) as Hlo_range.
  pose proof (Hrange _ _ _ Hhi Hvhi) as Hhi_range.
  destruct (Hbounds _ _ _ Hi0 Hv0) as [Hlo0 _].
  destruct (Hbounds _ _ _ Hi1 Hv1) as [_ Hhi1].
  destruct lo as [lo], hi as [hi]. simpl in *.
  assert (lo = 0) as -> by lia. assert (hi = 12000) as -> by lia.
  by apply scaling_domain_computed.
Qed.

(** ** The conversion as a whole *)

Section PipelineFacts.
Context {T : Type} `{Dtype T}.
Variable float_repr : float → string.
Implicit Types (w : world (T:=T)) (src : dataset (T:=T)).

(** The test of line 108 against the bounds it checks. *)
Lemma band_in_range (band_idx num_bands : Z) :
  (band_idx <? 1) || (num_bands <? band_idx) = false ↔ 1 ≤ band_idx ≤ num_bands.
Proof. rewrite orb_false_iff, !Z.ltb_ge. lia. Qed.

Lemma read_in_range src (band : Z) w :
  1 ≤ band ≤ count src →
  ∃ samples, ds_bands src !! Z.to_nat (band - 1) = Some samples
             ∧ read src band w
               = (Ok samples, World (fs w) (trace w ++ [EvRead band]) (stderr w)).
Proof.
  intros Hband. unfold count in Hband.
  destruct (lookup_lt_is_Some_2 (ds_bands src) (Z.to_nat (band - 1))) as [samples Hs]; [lia|].
  exists samples. split; [done|].
  unfold read, bind_io, log, ret. simpl. rewrite Hs.
  destruct (Z.leb_spec 1 band); [done|lia].
Qed.

(** Opening anything but a raster fails, after the attempt is made. *)
Lemma convert_not_a_raster input_path output_path band_r band_g band_b min_value max_value w :
  (∀ src, fs w !! input_path ≠ Some (RasterFile src)) →
  convert_raster_to_rgb float_repr input_path output_path band_r band_g band_b
    min_value max_value w
  = (Raise (RasterioIOError input_path),
     World (fs w) (trace w ++ [EvOpen input_path]) (stderr w)).
Proof.
  intros Hno. unfold convert_raster_to_rgb. unfold bind_io at 1.
  unfold rasterio_open, bind_io, log. cbn [fs].
  destruct (fs w !! input_path) as [[src| |]|] eqn:Hf; try done.
  by destruct (Hno src).
Qed.

Lemma three_bands {A} (out : ndarray A) (n0 n1 n2 : nat) :
  shape out = [n0; n1; n2] →
  ∃ R G B, out = [R; G; B] ∧ length R = n0 ∧ length G = n1 ∧ length B = n2.
Proof.
  unfold shape. destruct out as [|R [|G [|B [|? ?]]]]; try done.
  intros [= <- <- <-]. by exists R, G, B.
Qed.

(** With a raster and the three indices in range the conversion goes
    through: what it reads, computes and writes. *)
Lemma convert_in_range input_path output_path band_r band_g band_b min_value max_value w src :
  fs w !! input_path = Some (RasterFile src) →
  1 ≤ band_r ≤ count src → 1 ≤ band_g ≤ count src → 1 ≤ band_b ≤ count src →
  ∃ r g b R G B,
    ds_bands src !! Z.to_nat (band_r - 1) = Some r
    ∧ ds_bands src !! Z.to_nat (band_g - 1) = Some g
    ∧ ds_bands src !! Z.to_nat (band_b - 1) = Some b
    ∧ scale [r; g; b] (ds_nodata src) min_value max_value = Ok [R; G; B]
    ∧ length R = length r ∧ length G = length g ∧ length B = length b
    ∧ convert_raster_to_rgb float_repr input_path output_path band_r band_g band_b
        min_value max_value w
      = bind_io (store (RasterioIOError output_path) output_path
                   (GTiffFile R G B (ds_transform src)))
          (λ _, bind_io (create_world_file float_repr (ds_transform src) output_path)
                  (λ _, ret tt))
          (World (fs w)
                 (trace w ++ [EvOpen input_path; EvRead band_r; EvRead band_g; EvRead band_b])
                 (stderr w)).
Proof.
  intros Hf Hr Hg Hb.
  set (w1 := World (fs w) (trace w ++ [EvOpen input_path]) (stderr w)).
  destruct (read_in_range src band_r w1 Hr) as (r & Hlr & Hrr).
  set (w2 := World (fs w1) (trace w1 ++ [EvRead band_r]) (stderr w1)) in *.
  destruct (read_in_range src band_g w2 Hg) as (g & Hlg & Hrg).
  set (w3 := World (fs w2) (trace w2 ++ [EvRead band_g]) (stderr w2)) in *.
  destruct (read_in_range src band_b w3 Hb) as (b & Hlb & Hrb).
  destruct (scale_total [r; g; b] (ds_nodata src) min_value max_value) as [out Hout].
  destruct (three_bands out (length r) (length g) (length b)) as (R & G & B & -> & HR & HG & HB).
  { by rewrite (scale_shape _ _ _ _ _ Hout). }
  exists r, g, b, R, G, B. do 7 (split; [done|]).
  unfold convert_raster_to_rgb. unfold bind_io at 1. unfold rasterio_open at 1.
  unfold bind_io at 1. unfold log at 1. cbn [fs]. rewrite Hf. fold w1.
  unfold bind_io at 1. cbn [validate_bands].
  rewrite (proj2 (band_in_range band_r _) Hr), (proj2 (band_in_range band_g _) Hg),
    (proj2 (band_in_range band_b _) Hb).
  unfold ret at 1. unfold bind_io at 1. rewrite Hrr.
  unfold bind_io at 1. rewrite Hrg. unfold bind_io at 1. rewrite Hrb.
  unfold bind_io at 1. unfold lift at 1. rewrite Hout.
  subst w1 w2 w3. cbn [fs trace stderr]. rewrite <- !app_assoc. reflexivity.
Qed.

(** The validation of the indices touches nothing. *)
Lemma validate_bands_pure (bands : list (Z * string)) (num_bands : Z) w :
  (validate_bands bands num_bands w).2 = w.
Proof.
  induction bands as [|[band_idx band_name] rest IH]; simpl; [done|].
  by destruct ((band_idx <? 1) || (num_bands <? band_idx)).
Qed.

Lemma convert_validation_fails input_path output_path band_r band_g band_b
    min_value max_value w src e :
  fs w !! input_path = Some (RasterFile src) →
  (validate_bands [(band_r, "Red"); (band_g, "Green"); (band_b, "Blue")] (count src)
     (World (fs w) (trace w ++ [EvOpen input_path]) (stderr w))).1 = Raise e →
  convert_raster_to_rgb float_repr input_path output_path band_r band_g band_b
    min_value max_value w
  = (Raise e, World (fs w) (trace w ++ [EvOpen input_path]) (stderr w)).
Proof.
  intros Hf Hv.
  pose proof (validate_bands_pure [(band_r, "Red"); (band_g, "Green"); (band_b, "Blue")]
                (count src) (World (fs w) (trace w ++ [EvOpen input_path]) (stderr w))) as Hw.
  unfold convert_raster_to_rgb. unfold bind_io at 1. unfold rasterio_open at 1.
  unfold bind_io at 1. unfold log at 1. cbn [fs]. rewrite Hf.
  unfold bind_io at 1.
  destruct (validate_bands _ _ _) as [res w1]. simpl in Hv, Hw. by subst.
Qed.

(** X1.  Out of range: the first of Red, Green, Blue whose index is below 1 or
    above the number of bands is reported in a [ValueError]; the input has
    been opened, no band is read and nothing is written. *)
Theorem band_index_rejected input_path output_path band_r band_g band_b
    min_value max_value w src :
  fs w !! input_path = Some (RasterFile src) →
  ¬ (1 ≤ band_r ≤ count src ∧ 1 ≤ band_g ≤ count src ∧ 1 ≤ band_b ≤ count src) →
  ∃ band_name band_idx,
    ((band_name = "Red" ∧ band_idx = band_r)
     ∨ (band_name = "Green" ∧ band_idx = band_g ∧ 1 ≤ band_r ≤ count src)
     ∨ (band_name = "Blue" ∧ band_idx = band_b
        ∧ 1 ≤ band_r ≤ count src ∧ 1 ≤ band_g ≤ count src))
    ∧ ¬ (1 ≤ band_idx ≤ count src)
    ∧ convert_raster_to_rgb float_repr input_path output_path band_r band_g band_b
        min_value max_value w
      = (Raise (ValueError (band_name +++ " band index " +++ pretty band_idx
                            +++ " is out of range. File has " +++ pretty (count src)
                            +++ " bands.")),
         World (fs w) (trace w ++ [EvOpen input_path]) (stderr w)).
Proof.
  intros Hf Hbad.
  destruct (decide (1 ≤ band_r ≤ count src)) as [Hr|Hr].
  2:{ exists "Red", band_r. split; [by left|]. split; [done|].
      apply (convert_validation_fails _ _ _ _ _ _ _ _ src); [done|].
      cbn [validate_bands]. destruct (_ || _) eqn:Ht; [done|].
      by apply band_in_range in Ht. }
  destruct (decide (1 ≤ band_g ≤ count src)) as [Hg|Hg].
  2:{ exists "Green", band_g. split; [right; by left|]. split; [done|].
      apply (convert_validation_fails _ _ _ _ _ _ _ _ src); [done|].
      cbn [validate_bands]. rewrite (proj2 (band_in_range band_r _) Hr).
      destruct (_ || _) eqn:Ht; [done|]. by apply band_in_range in Ht. }
  assert (¬ 1 ≤ band_b ≤ count src) as Hb by tauto.
  exists "Blue", band_b. split; [right; by right|]. split; [done|].
  apply (convert_validation_fails _ _ _ _ _ _ _ _ src); [done|].
  cbn [validate_bands].
  rewrite (proj2 (band_in_range band_r _) Hr), (proj2 (band_in_range band_g _) Hg).
  destruct (_ || _) eqn:Ht; [done|]. by apply band_in_range in Ht.
Qed.

Lemma fs_lookup_insert_eq (m : filesystem (T:=T)) (path : string) (x : file) :
  <[path := x]> m !! path = Some x.
Proof. unfold lookup, insert, filesystem_lookup, filesystem_insert. apply lookup_insert_eq. Qed.

Lemma fs_lookup_insert_ne (m : filesystem (T:=T)) (path path' : string) (x : file) :
  path ≠ path' → <[path := x]> m !! path' = m !! path'.
Proof.
  intros Hne. unfold lookup, insert, filesystem_lookup, filesystem_insert.
  by apply lookup_insert_ne.
Qed.

(** The two writes that end a conversion: the image, then the world file.
    The first that cannot be created stops the conversion. *)
Lemma write_files (transform : Affine.t) (output_path : string) (image : file) w :
  ∃ content,
    bind_io (store (RasterioIOError output_path) output_path image)
      (λ _, bind_io (create_world_file float_repr transform output_path) (λ _, ret tt)) w
    = if creatable (fs w) output_path then
        if creatable (fs w) ((splitext output_path).1 +++ ".tfw") then
          (Ok tt,
           World (<[(splitext output_path).1 +++ ".tfw" := TextFile content]>
                    (<[output_path := image]> (fs w)))
                 (trace w ++ [EvCreate output_path;
                              EvCreate ((splitext output_path).1 +++ ".tfw")])
                 (stderr w))
        else
          (Raise (OSError ((splitext output_path).1 +++ ".tfw")),
           World (<[output_path := image]> (fs w))
                 (trace w ++ [EvCreate output_path;
                              EvCreate ((splitext output_path).1 +++ ".tfw")])
                 (stderr w))
      else
        (Raise (RasterioIOError output_path),
         World (fs w) (trace w ++ [EvCreate output_path]) (stderr w)).
Proof.
  eexists. unfold bind_io at 1. unfold store at 1.
  destruct (creatable (fs w) output_path); [|reflexivity].
  unfold create_world_file, bind_io, store, ret. cbn [fs trace stderr].
  change (creatable (<[output_path := image]> (fs w))) with (creatable (fs w)).
  destruct (creatable (fs w) _); rewrite <- app_assoc; reflexivity.
Qed.

(** X2.  A conversion that goes through.  When the input is a raster, the
    three indices are in range and both the output and the world file can be
    created, the bands [band_r], [band_g], [band_b] of the input, counted
    from 1, are scaled together and written in this order as the three bands
    of the output, each as long as the band it comes from, with the
    transform of the input; then the world file is written beside it.  The
    files are opened in this order: the input, the output, the world file;
    the program prints no error message. *)
Theorem conversion_writes_rgb input_path output_path band_r band_g band_b
    min_value max_value w src :
  fs w !! input_path = Some (RasterFile src) →
  1 ≤ band_r ≤ count src → 1 ≤ band_g ≤ count src → 1 ≤ band_b ≤ count src →
  creatable (fs w) output_path = true →
  creatable (fs w) ((splitext output_path).1 +++ ".tfw") = true →
  ∃ r g b R G B content,
    ds_bands src !! Z.to_nat (band_r - 1) = Some r
    ∧ ds_bands src !! Z.to_nat (band_g - 1) = Some g
    ∧ ds_bands src !! Z.to_nat (band_b - 1) = Some b
    ∧ scale [r; g; b] (ds_nodata src) min_value max_value = Ok [R; G; B]
    ∧ length R = length r ∧ length G = length g ∧ length B = length b
    ∧ convert_raster_to_rgb float_repr input_path output_path band_r band_g band_b
        min_value max_value w
      = (Ok tt,
         World (<[(splitext output_path).1 +++ ".tfw" := TextFile content]>
                  (<[output_path := GTiffFile R G B (ds_transform src)]> (fs w)))
               (trace w ++ [EvOpen input_path; EvRead band_r; EvRead band_g; EvRead band_b;
                            EvCreate output_path;
                            EvCreate ((splitext output_path).1 +++ ".tfw")])
               (stderr w)).
Proof.
  intros Hf Hr Hg Hb Hco Hct.
  destruct (convert_in_range input_path output_path band_r band_g band_b
              min_value max_value w src Hf Hr Hg Hb)
    as (r & g & b & R & G & B & Hlr & Hlg & Hlb & Hout & HR & HG & HB & Hconv).
  destruct (write_files (ds_transform src) output_path
              (GTiffFile R G B (ds_transform src))
              (World (fs w)
                 (trace w ++ [EvOpen input_path; EvRead band_r; EvRead band_g; EvRead band_b])
                 (stderr w))) as [content Hwrite].
  cbn [fs trace stderr] in Hwrite. rewrite Hco, Hct in Hwrite.
  exists r, g, b, R, G, B, content. do 7 (split; [done|]).
  rewrite Hconv, Hwrite. by rewrite <- app_assoc.
Qed.

Lemma append_inj_r (a b c : string) : a +++ b = a +++ c → b = c.
Proof.
  induction a as [|x a IH]; [by rewrite !append_nil|].
  rewrite !append_cons. intros [= Heq]. auto.
Qed.

(** How a conversion ends, case by case. *)
Lemma convert_outcome input_path output_path band_r band_g band_b min_value max_value w :
  let run := convert_raster_to_rgb float_repr input_path output_path band_r band_g band_b
               min_value max_value w in
  let accepted src :=
    fs w !! input_path = Some (RasterFile src)
    ∧ 1 ≤ band_r ≤ count src ∧ 1 ≤ band_g ≤ count src ∧ 1 ≤ band_b ≤ count src in
  let tfw_path := (splitext output_path).1 +++ ".tfw" in
  ((∃ e, run.1 = Raise e) ∧ fs run.2 = fs w ∧ stderr run.2 = stderr w
   ∧ ¬ ∃ src, accepted src ∧ creatable (fs w) output_path = true)
  ∨ (∃ src R G B,
       accepted src ∧ creatable (fs w) output_path = true
       ∧ creatable (fs w) tfw_path = false
       ∧ run.1 = Raise (OSError tfw_path)
       ∧ fs run.2 = <[output_path := GTiffFile R G B (ds_transform src)]> (fs w)
       ∧ stderr run.2 = stderr w)
  ∨ (∃ src R G B content,
       accepted src ∧ creatable (fs w) output_path = true
       ∧ creatable (fs w) tfw_path = true
       ∧ run.1 = Ok tt
       ∧ fs run.2 = <[tfw_path := TextFile content]>
                      (<[output_path := GTiffFile R G B (ds_transform src)]> (fs w))
       ∧ stderr run.2 = stderr w).
Proof.
  intros run accepted tfw_path. subst run accepted tfw_path. cbv beta.
  destruct (fs w !! input_path) as [[src| |]|] eqn:Hf.
  2-4: left; rewrite convert_not_a_raster by (intros src'; congruence);
       cbn [fst snd fs stderr]; split; [by eexists|]; split; [done|]; split; [done|];
       intros (src' & (? & _) & _); congruence.
  destruct (decide (1 ≤ band_r ≤ count src ∧ 1 ≤ band_g ≤ count src ∧ 1 ≤ band_b ≤ count src))
    as [(Hr & Hg & Hb)|Hbad].
  - destruct (convert_in_range input_path output_path band_r band_g band_b
                min_value max_value w src Hf Hr Hg Hb)
      as (r & g & b & R & G & B & _ & _ & _ & _ & _ & _ & _ & Hconv).
    destruct (write_files (ds_transform src) output_path
                (GTiffFile R G B (ds_transform src))
                (World (fs w)
                   (trace w ++ [EvOpen input_path; EvRead band_r; EvRead band_g; EvRead band_b])
                   (stderr w))) as [content Hwrite].
    cbn [fs trace stderr] in Hwrite.
    rewrite Hconv, Hwrite. clear Hconv Hwrite.
    destruct (creatable (fs w) output_path) eqn:Hco;
      [destruct (creatable (fs w) ((splitext output_path).1 +++ ".tfw")) eqn:Hct|];
      cbn [fst snd fs stderr].
    + right; right. exists src, R, G, B, content. repeat split; first [done|lia].
    + right; left. exists src, R, G, B. repeat split; first [done|lia].
    + left. split; [by eexists|]. split; [done|]. split; [done|].
      by intros (src' & _ & ?).
  - left.
    pose proof (validate_bands_pure [(band_r, "Red"); (band_g, "Green"); (band_b, "Blue")]
                  (count src) (World (fs w) (trace w ++ [EvOpen input_path]) (stderr w))) as Hw.
    destruct (validate_bands _ _ _) as [[[]|e] w1] eqn:Hv; simpl in Hw; subst w1.
    + exfalso. apply Hbad. cbn [validate_bands] in Hv.
      destruct (_ || _) eqn:Hr in Hv; [done|].
      destruct (_ || _) eqn:Hg in Hv; [done|].
      destruct (_ || _) eqn:Hb in Hv; [done|].
      by rewrite <- !band_in_range.
    + rewrite (convert_validation_fails _ _ _ _ _ _ _ _ src e Hf) by (by rewrite Hv).
      cbn [fst snd fs stderr]. split; [by eexists|]. split; [done|]. split; [done|].
      intros (src' & (Hsrc & Hin) & _). assert (src' = src) as -> by congruence. done.
Qed.

(** X3.  The world file and the image after a conversion that succeeded.
    The world file is there.  When the output path has the extension
    [.tfw], the world file was written over the image that had just been
    written: only the text is left.  With any other extension (or none),
    the image is at the output path and the world file beside it. *)
Theorem world_file_beside_image input_path output_path band_r band_g band_b
    min_value max_value w w' :
  convert_raster_to_rgb float_repr input_path output_path band_r band_g band_b
    min_value max_value w = (Ok tt, w') →
  ∃ content,
    fs w' !! ((splitext output_path).1 +++ ".tfw") = Some (TextFile content)
    ∧ ((splitext output_path).2 = ".tfw" → fs w' !! output_path = Some (TextFile content))
    ∧ ((splitext output_path).2 ≠ ".tfw" →
       ∃ src R G B,
         fs w !! input_path = Some (RasterFile src)
         ∧ fs w' !! output_path = Some (GTiffFile R G B (ds_transform src))).
Proof.
  intros Hok.
  pose proof (convert_outcome input_path output_path band_r band_g band_b
                min_value max_value w) as Hcases.
  cbv zeta in Hcases. rewrite Hok in Hcases. cbn [fst snd] in Hcases.
  destruct Hcases as [([e He] & _)|[(src & R & G & B & _ & _ & _ & He & _)
                     |(src & R & G & B & content & (Hsrc & _) & _ & _ & _ & Hfs & _)]];
    [done|done|].
  pose proof (splitext_spec output_path) as Hsplit.
  destruct (splitext output_path) as [root ext] eqn:Hse. destruct Hsplit as [Hpath _].
  cbn [fst snd] in *. exists content. rewrite Hfs.
  split; [apply fs_lookup_insert_eq|]. split.
  - intros ->. rewrite <- Hpath. apply fs_lookup_insert_eq.
  - intros Hext. exists src, R, G, B. split; [done|].
    rewrite fs_lookup_insert_ne; [apply fs_lookup_insert_eq|].
    rewrite Hpath. intros Heq%append_inj_r. by destruct Hext.
Qed.

(** X4.  A missing input: the program says so on the standard error and exits
    with status 1, having tested the existence of the path and nothing
    else. *)
Theorem missing_input_reported (args : Args.t) w :
  fs w !! Args.input args = None →
  main float_repr args w
  = (1, World (fs w) (trace w ++ [EvExists (Args.input args)])
              (stderr w ++ [Text ("Error: Input file '" +++ Args.input args
                                  +++ "' not found.")])).
Proof.
  intros Hin. unfold main, bind_io, path_exists, log, eprint, ret. simpl.
  rewrite bool_decide_eq_false_2; [done|]. rewrite Hin. by intros [? ?].
Qed.

End PipelineFacts.

Lemma band_index_rejected_witness :
  ∃ band_name band_idx,
    ((band_name = "Red" ∧ band_idx = 1)
     ∨ (band_name = "Green" ∧ band_idx = 4 ∧ 1 ≤ 1 ≤ count example_dataset)
     ∨ (band_name = "Blue" ∧ band_idx = 3
        ∧ 1 ≤ 1 ≤ count example_dataset ∧ 1 ≤ 4 ≤ count example_dataset))
    ∧ ¬ (1 ≤ band_idx ≤ count example_dataset)
    ∧ convert_raster_to_rgb example_repr "in.tif" "out.tif" 1 4 3 None None example_world
      = (Raise (ValueError (band_name +++ " band index " +++ pretty band_idx
                            +++ " is out of range. File has "
                            +++ pretty (count example_dataset) +++ " bands.")),
         World (fs example_world) (trace example_world ++ [EvOpen "in.tif"])
               (stderr example_world)).
Proof.
  refine (band_index_rejected example_repr "in.tif" "out.tif" 1 4 3 None None
            example_world example_dataset _ _).
  - reflexivity.
  - unfold count. simpl. lia.
Defined.

Lemma conversion_writes_rgb_witness :
  ∃ r g b R G B content,
    ds_bands example_dataset !! Z.to_nat (3 - 1) = Some r
    ∧ ds_bands example_dataset !! Z.to_nat (1 - 1) = Some g
    ∧ ds_bands example_dataset !! Z.to_nat (1 - 1) = Some b
    ∧ scale [r; g; b] (ds_nodata example_dataset) None None = Ok [R; G; B]
    ∧ length R = length r ∧ length G = length g ∧ length B = length b
    ∧ convert_raster_to_rgb example_repr "in.tif" "out.tif" 3 1 1 None None example_world
      = (Ok tt,
         World (<[(splitext "out.tif").1 +++ ".tfw" := TextFile content]>
                  (<["out.tif" := GTiffFile R G B (ds_transform example_dataset)]> (fs example_world)))
               (trace example_world
                ++ [EvOpen "in.tif"; EvRead 3; EvRead 1; EvRead 1; EvCreate "out.tif";
                    EvCreate ((splitext "out.tif").1 +++ ".tfw")])
               (stderr example_world)).
Proof.
  refine (conversion_writes_rgb example_repr "in.tif" "out.tif" 3 1 1 None None
            example_world example_dataset _ _ _ _ _ _).
  - reflexivity.
  - unfold count. simpl. lia.
  - unfold count. simpl. lia.
  - unfold count. simpl. lia.
  - reflexivity.
  - reflexivity.
Defined.

Lemma world_file_beside_image_witness :
  ∃ content,
    fs (convert_raster_to_rgb example_repr "in.tif" "rgb.tfw" 1 2 3 None None example_world).2
      !! ((splitext "rgb.tfw").1 +++ ".tfw") = Some (TextFile content)
    ∧ ((splitext "rgb.tfw").2 = ".tfw" →
       fs (convert_raster_to_rgb example_repr "in.tif" "rgb.tfw" 1 2 3 None None
             example_world).2 !! "rgb.tfw" = Some (TextFile content))
    ∧ ((splitext "rgb.tfw").2 ≠ ".tfw" →
       ∃ src R G B,
         fs example_world !! "in.tif" = Some (RasterFile src)
         ∧ fs (convert_raster_to_rgb example_repr "in.tif" "rgb.tfw" 1 2 3 None None
                 example_world).2 !! "rgb.tfw" = Some (GTiffFile R G B (ds_transform src))).
Proof.
  refine (world_file_beside_image example_repr "in.tif" "rgb.tfw" 1 2 3 None None
            example_world _ _).
  vm_compute. reflexivity.
Defined.

Lemma missing_input_reported_witness :
  main example_repr (Args.mk "absent.tif" "out.tif" 1 2 3 None None) example_world
  = (1, World (fs example_world) (trace example_world ++ [EvExists "absent.tif"])
              (stderr example_world
               ++ [Text ("Error: Input file '" +++ "absent.tif" +++ "' not found.")])).
Proof.
  refine (missing_input_reported example_repr
            (Args.mk "absent.tif" "out.tif" 1 2 3 None None) example_world _).
  reflexivity.
Defined.

(** The output under a directory that does not exist: the image cannot be
    created, the program reports the error and exits with status 1, and no
    file is written. *)
Example missing_output_directory :
  let run := main example_repr (Args.mk "in.tif" "nodir/out.tif" 1 2 3 None None) example_world in
  run.1 = 1
  ∧ fs run.2 = fs example_world
  ∧ stderr run.2 = [ErrorOf (RasterioIOError "nodir/out.tif")].
Proof. vm_compute. by repeat split. Qed.

(** ** The ends of the scaling *)

(** Two roundings of one real have the same place in the order. *)
Lemma Rnd_unique_key x r1 r2 : Rnd x r1 → Rnd x r2 → key r1 = key r2.
Proof.
  intros H1 H2.
  pose proof (Rnd_mono x x r1 r2 H1 H2 (Rle_refl x)).
  pose proof (Rnd_mono x x r2 r1 H2 H1 (Rle_refl x)). lia.
Qed.

Lemma Rnd_zero_inv r : Rnd 0 r → ∃ s, r = S754_zero s.
Proof. intros [[_ Hz]|[[Hx _]|[Hx _]]]; [done|lra|lra]. Qed.

(** A finite float other than zero divided by itself is 1. *)
Lemma div_self (d : float) s m e : Prim2SF d = S754_finite s m e → (d / d)%float = 1%float.
Proof.
  intros Hd. pose proof (Prim2SF_valid d) as Hv.
  assert (Rnd 1 (Prim2SF (d / d))) as Hq.
  { rewrite FloatAxioms.div_spec. unfold SF64div.
    replace 1%R with (F2R (Prim2SF d) / F2R (Prim2SF d))%R.
    - apply SFdiv_Rnd; try done; rewrite Hd; [done|eauto].
    - rewrite Hd. simpl F2R. pose proof (F2R_finite_pos m e) as Hp.
      rewrite Rmult_assoc. remember (IZR (Zpos m) * bpow e)%R as v. clear Heqv.
      destruct s; field; lra. }
  assert (Rnd 1 (Prim2SF 1)) as Hone.
  { rewrite <- F2R_one at 1. apply Rnd_F2R; [apply Prim2SF_valid|done]. }
  pose proof (Rnd_unique_key _ _ _ Hq Hone) as Hk.
  apply key_inj in Hk; try apply Prim2SF_valid.
  - destruct Hk as [Heq|(s1 & s2 & _ & Hz)]; [by apply Prim2SF_inj|done].
  - by eapply Rnd_not_nan.
  - done.
Qed.

Lemma scaled_top (d : float) s m e :
  Prim2SF d = S754_finite s m e → quantize (d / d * 255) = 255.
Proof. intros Hd. by rewrite (div_self d s m e Hd). Qed.

Lemma scaled_bottom (a d : float) sa s m e :
  Prim2SF a = S754_zero sa → Prim2SF d = S754_finite s m e → quantize (a / d * 255) = 0.
Proof.
  intros Ha Hd.
  assert (∃ s', Prim2SF (a / d * 255) = S754_zero s') as [s' Hp].
  { rewrite FloatAxioms.mul_spec, FloatAxioms.div_spec, Ha, Hd. unfold SF64mul, SF64div.
    change (Prim2SF 255) with (S754_finite false 8972014882652160 (-45)).
    simpl. eauto. }
  apply quantize_nonpos.
  - apply not_nan_SF. by rewrite Hp.
  - unfold fkey. by rewrite Hp.
Qed.

(** What is stored at a valid position when the domain is not degenerate. *)
Lemma scale_valid_lookup {T} `{Dtype T} (bands : ndarray T) nodata min_value max_value
    dom c i (s : T) :
  scaling_domain bands nodata min_value max_value = Ok dom →
  degenerate dom = false →
  lookup2 bands c i = Some s →
  valid_sample nodata s = true →
  ∃ out, scale bands nodata min_value max_value = Ok out
         ∧ lookup2 out c i = Some (quantize (scaled dom s)).
Proof.
  intros Hdom Hdeg Hs Hv.
  destruct (scale_total bands nodata min_value max_value) as [out Hout].
  exists out. split; [done|].
  rewrite (scale_lookup _ _ _ _ _ _ c i Hdom Hout), Hs, Hdeg. simpl. by rewrite Hv.
Qed.

Lemma wrap_u16_nonzero (z : Z) : -65535 ≤ z ≤ 65535 → z ≠ 0 → 1 ≤ wrap_u16 z ≤ 65535.
Proof.
  intros Hz Hne. unfold wrap_u16.
  destruct (Z_lt_le_dec z 0).
  - replace z with (z + 65536 + (-1) * 65536) by lia.
    rewrite Z.mod_add, Z.mod_small by lia. lia.
  - rewrite Z.mod_small by lia. lia.
Qed.

Lemma wrap_i16_nonzero (z : Z) :
  -65535 ≤ z ≤ 65535 → z ≠ 0 → -32768 ≤ wrap_i16 z ≤ 32767 ∧ wrap_i16 z ≠ 0.
Proof.
  intros Hz Hne. unfold wrap_i16.
  pose proof (Z.mod_pos_bound (z + 32768) 65536 ltac:(lia)) as Hb.
  split; [lia|]. intros Heq.
  assert ((z + 32768) mod 65536 = 32768) as Hm by lia.
  destruct (Z_lt_le_dec z (-32768)); [|destruct (Z_lt_le_dec z 32768)].
  - replace (z + 32768) with (z + 32768 + 65536 + (-1) * 65536) in Hm by lia.
    rewrite Z.mod_add, Z.mod_small in Hm by lia. lia.
  - rewrite Z.mod_small in Hm by lia. lia.
  - replace (z + 32768) with (z + 32768 - 65536 + 1 * 65536) in Hm by lia.
    rewrite Z.mod_add, Z.mod_small in Hm by lia. lia.
Qed.

Lemma float_of_Z_finite_nonzero (z : Z) :
  - 2 ^ 63 < z < 2 ^ 63 → z ≠ 0 → ∃ s m e, Prim2SF (float_of_Z z) = S754_finite s m e.
Proof.
  intros Hz Hne. destruct (Z_lt_le_dec z 0).
  - destruct (float_of_Z_neg z) as (m & e & Heq); [lia|eauto].
  - destruct (float_of_Z_pos z) as (m & e & Heq); [lia|eauto].
Qed.

Lemma scaled_int_top (d : Z) : - 2 ^ 63 < d < 2 ^ 63 → d ≠ 0 → scaled_int d d = 255.
Proof.
  intros Hd Hne. destruct (float_of_Z_finite_nonzero d Hd Hne) as (s & m & e & Heq).
  by apply (scaled_top _ s m e).
Qed.

Lemma scaled_int_bottom (d : Z) : - 2 ^ 63 < d < 2 ^ 63 → d ≠ 0 → scaled_int 0 d = 0.
Proof.
  intros Hd Hne. destruct (float_of_Z_finite_nonzero d Hd Hne) as (s & m & e & Heq).
  by apply (scaled_bottom _ _ false s m e).
Qed.

Lemma sub_self (x : float) :
  is_finite_SF (Prim2SF x) = true → ∃ s, Prim2SF (x - x) = S754_zero s.
Proof.
  intros Hf. apply Rnd_zero_inv. rewrite FloatAxioms.sub_spec. unfold SF64sub.
  replace 0%R with (F2R (Prim2SF x) - F2R (Prim2SF x))%R by lra.
  apply SFsub_Rnd; try done; apply Prim2SF_valid.
Qed.

Lemma ltb_not_degenerate {T} `{Dtype T} (lo hi : float) :
  PrimFloat.ltb lo hi = true → degenerate (T:=T) (Provided lo hi) = false.
Proof.
  intros Hlt. destruct (ltb_true_not_nan _ _ Hlt) as [Hlo Hhi].
  rewrite ltb_key in Hlt by done. simpl. rewrite eqb_key by done. lia.
Qed.

(** X6.  Automatic scaling uses the whole range: when the computed bounds
    differ, a valid sample equal to the upper bound is stored as 255 and one
    equal to the lower bound as 0, for unsigned and for signed 16-bit samples
    (whose differences may wrap around), and for float64 samples when
    [max - min] does not overflow. *)
Theorem computed_bounds_reach_ends :
  (∀ (bands : ndarray uint16) nodata (lo hi : uint16),
     scaling_domain bands nodata None None = Ok (Computed (NpScalar lo) (NpScalar hi)) →
     0 ≤ u16 lo ≤ 65535 → 0 ≤ u16 hi ≤ 65535 → u16 lo ≠ u16 hi →
     ∃ out, scale bands nodata None None = Ok out
       ∧ ∀ c i s, lookup2 bands c i = Some s → valid_sample nodata s = true →
           (s = hi → lookup2 out c i = Some 255) ∧ (s = lo → lookup2 out c i = Some 0))
  ∧ (∀ (bands : ndarray int16) nodata (lo hi : int16),
       scaling_domain bands nodata None None = Ok (Computed (NpScalar lo) (NpScalar hi)) →
       -32768 ≤ i16 lo ≤ 32767 → -32768 ≤ i16 hi ≤ 32767 → i16 lo ≠ i16 hi →
       ∃ out, scale bands nodata None None = Ok out
         ∧ ∀ c i s, lookup2 bands c i = Some s → valid_sample nodata s = true →
             (s = hi → lookup2 out c i = Some 255) ∧ (s = lo → lookup2 out c i = Some 0))
  ∧ (∀ (bands : ndarray float) nodata (lo hi : float),
       scaling_domain bands nodata None None = Ok (Computed (NpScalar lo) (NpScalar hi)) →
       PrimFloat.ltb lo hi = true → is_finite_SF (Prim2SF (hi - lo)) = true →
       ∃ out, scale bands nodata None None = Ok out
         ∧ ∀ c i s, lookup2 bands c i = Some s → valid_sample nodata s = true →
             (s = hi → lookup2 out c i = Some 255) ∧ (s = lo → lookup2 out c i = Some 0)).
Proof.
  split; [|split].
  3:{ intros bands nodata lo hi Hdom Hlt Hfin.
      destruct (scale_total bands nodata None None) as [out Hout].
      exists out. split; [done|]. intros c i s Hs Hv.
      assert (degenerate (Computed (NpScalar lo) (NpScalar hi)) = false) as Hdeg
        by exact (ltb_not_degenerate (T:=float) lo hi Hlt).
      destruct (scale_valid_lookup bands nodata None None _ c i s Hdom Hdeg Hs Hv)
        as (out' & Hout' & Hl).
      assert (out' = out) as -> by congruence. rewrite Hl.
      change (scaled (Computed (NpScalar lo) (NpScalar hi)) s)
        with ((s - lo) / (hi - lo) * 255)%float.
      destruct (sub_positive lo hi Hlt) as [Hinf|(Hflo & m & e & Hd)];
        [by rewrite Hinf in Hfin|].
      split; intros ->; f_equal.
      - by apply (scaled_top _ false m e).
      - destruct (sub_self lo Hflo) as [s0 Hz]. by apply (scaled_bottom _ _ s0 false m e). }
  - intros bands nodata [lo] [hi] Hdom Hlo Hhi Hne. simpl in Hlo, Hhi, Hne.
    destruct (scale_total bands nodata None None) as [out Hout].
    exists out. split; [done|]. intros c i s Hs Hv.
    assert (degenerate (Computed (NpScalar (U16 lo)) (NpScalar (U16 hi))) = false) as Hdeg
      by (apply Z.eqb_neq; simpl; lia).
    destruct (scale_valid_lookup bands nodata None None _ c i s Hdom Hdeg Hs Hv)
      as (out' & Hout' & Hl).
    assert (out' = out) as -> by congruence. rewrite Hl.
    pose proof (wrap_u16_nonzero (hi - lo) ltac:(lia) ltac:(lia)) as Hd.
    split; intros ->; f_equal.
    + change (scaled_int (wrap_u16 (hi - lo)) (wrap_u16 (hi - lo)) = 255).
      apply scaled_int_top; lia.
    + change (scaled_int (wrap_u16 (lo - lo)) (wrap_u16 (hi - lo)) = 0).
      rewrite Z.sub_diag. apply scaled_int_bottom; lia.
  - intros bands nodata [lo] [hi] Hdom Hlo Hhi Hne. simpl in Hlo, Hhi, Hne.
    destruct (scale_total bands nodata None None) as [out Hout].
    exists out. split; [done|]. intros c i s Hs Hv.
    assert (degenerate (Computed (NpScalar (I16 lo)) (NpScalar (I16 hi))) = false) as Hdeg
      by (apply Z.eqb_neq; simpl; lia).
    destruct (scale_valid_lookup bands nodata None None _ c i s Hdom Hdeg Hs Hv)
      as (out' & Hout' & Hl).
    assert (out' = out) as -> by congruence. rewrite Hl.
    pose proof (wrap_i16_nonzero (hi - lo) ltac:(lia) ltac:(lia)) as [Hd Hd0].
    split; intros ->; f_equal.
    + change (scaled_int (wrap_i16 (hi - lo)) (wrap_i16 (hi - lo)) = 255).
      apply scaled_int_top; lia.
    + change (scaled_int (wrap_i16 (lo - lo)) (wrap_i16 (hi - lo)) = 0).
      rewrite Z.sub_diag. apply scaled_int_bottom; lia.
Qed.

Lemma computed_bounds_reach_ends_witness :
  ∃ out, scale [[I16 (-20000); I16 5]; [I16 0; I16 7]; [I16 20000; I16 9]] None None None
         = Ok out
    ∧ ∀ c i s,
        lookup2 [[I16 (-20000); I16 5]; [I16 0; I16 7]; [I16 20000; I16 9]] c i = Some s →
        valid_sample None s = true →
        (s = I16 20000 → lookup2 out c i = Some 255)
        ∧ (s = I16 (-20000) → lookup2 out c i = Some 0).
Proof.
  refine (proj1 (proj2 computed_bounds_reach_ends)
            [[I16 (-20000); I16 5]; [I16 0; I16 7]; [I16 20000; I16 9]] None
            (I16 (-20000)) (I16 20000) _ _ _ _).
  - reflexivity.
  - simpl. lia.
  - simpl. lia.
  - simpl. lia.
Defined.

(** X7.  A 16-bit signed raster whose valid samples span 32768 or more: the
    differences [s - min] and [max - min] wrap around, and a valid sample
    is stored as 0 when [s - min] is at most 32767 and as 255 above. *)
Theorem int16_wide_range_two_levels (bands : ndarray int16) nodata (lo hi s : Z) c i :
  scaling_domain bands nodata None None
  = Ok (Computed (NpScalar (I16 lo)) (NpScalar (I16 hi))) →
  -32768 ≤ lo → lo ≤ s → s ≤ hi → hi ≤ 32767 → 32768 ≤ hi - lo →
  lookup2 bands c i = Some (I16 s) →
  valid_sample nodata (I16 s) = true →
  ∃ out, scale bands nodata None None = Ok out
         ∧ lookup2 out c i = Some (if s - lo <=? 32767 then 0 else 255).
Proof.
  intros Hdom Hlo Hls Hsh Hhi Hwide Hs Hv.
  assert (degenerate (Computed (NpScalar (I16 lo)) (NpScalar (I16 hi))) = false) as Hdeg
    by (apply Z.eqb_neq; simpl; lia).
  destruct (scale_valid_lookup bands nodata None None _ c i _ Hdom Hdeg Hs Hv)
    as (out & Hout & Hl).
  exists out. split; [done|]. rewrite Hl. f_equal.
  change (scaled_int (wrap_i16 (s - lo)) (wrap_i16 (hi - lo))
          = if s - lo <=? 32767 then 0 else 255).
  rewrite (wrap_i16_large (hi - lo)) by lia.
  destruct (Z.leb_spec (s - lo) 32767).
  - rewrite wrap_i16_small by lia. apply scaled_int_neg_low; lia.
  - rewrite wrap_i16_large by lia. apply scaled_int_neg_high; lia.
Qed.

Lemma int16_wide_range_two_levels_witness :
  ∃ out, scale [[I16 (-20000); I16 5]; [I16 0; I16 7]; [I16 20000; I16 13000]] None None None
         = Ok out
         ∧ lookup2 out 2 1 = Some (if 13000 - -20000 <=? 32767 then 0 else 255).
Proof.
  refine (int16_wide_range_two_levels
            [[I16 (-20000); I16 5]; [I16 0; I16 7]; [I16 20000; I16 13000]] None
            (-20000) 20000 13000 2%nat 1%nat _ _ _ _ _ _ _ _); try reflexivity; lia.
Defined.

(** The ends of a provided domain, on one scaled value. *)
Lemma scaled_saturation (lo hi x : float) :
  PrimFloat.ltb lo hi = true →
  (PrimFloat.leb x lo = true → quantize ((x - lo) / (hi - lo) * 255) = 0)
  ∧ (is_finite_SF (Prim2SF (hi - lo)) = true → PrimFloat.leb hi x = true →
     quantize ((x - lo) / (hi - lo) * 255) = 255)
  ∧ (is_finite_SF (Prim2SF (hi - lo)) = false → quantize ((x - lo) / (hi - lo) * 255) = 0).
Proof.
  intros Hlt.
  pose proof (quantize_range ((x - lo) / (hi - lo) * 255)) as Hrange.
  destruct (sub_positive lo hi Hlt) as [Hinf|(Hflo & m & e & Hd)].
  - rewrite scaled_by_infinity by done. split; [done|]. rewrite Hinf. by split.
  - rewrite Hd. split; [|split; [|done]].
    + intros Hle. pose proof (scaled_monotone lo hi _ _ Hlt Hle) as Hmono.
      destruct (sub_self lo Hflo) as [s0 Hz].
      rewrite (scaled_bottom (lo - lo) (hi - lo) s0 false m e Hz Hd) in Hmono. lia.
    + intros _ Hle. pose proof (scaled_monotone lo hi _ _ Hlt Hle) as Hmono.
      rewrite (scaled_top (hi - lo) false m e Hd) in Hmono. lia.
Qed.



(** ** NaN samples beside a sentinel *)

Lemma is_nan_eq (x : float) : is_nan x = true → x = nan.
Proof. intros Hx%is_nan_spec. apply Prim2SF_inj. by rewrite Hx. Qed.

Lemma np_any_valid {T} `{Dtype T} (bands : ndarray T) nodata c i (s : T) :
  lookup2 bands c i = Some s → valid_sample nodata s = true →
  np_any (valid_mask bands nodata) = true.
Proof.
  intros Hs Hv. rewrite valid_mask_map2d. unfold np_any, map2d, lookup2 in *.
  apply existsb_exists.
  destruct (bands !! c) as [row|] eqn:Hrow; simpl in Hs; [|done].
  exists (valid_sample nodata <$> row). split.
  - apply list_elem_of_In, list_elem_of_fmap. exists row. split; [done|].
    by eapply list_elem_of_lookup_2.
  - apply existsb_exists. exists true. split; [|done].
    apply list_elem_of_In, list_elem_of_fmap. exists s. split; [done|].
    by eapply list_elem_of_lookup_2.
Qed.

(** The reductions of float64 keep a NaN they meet. *)
Lemma foldl_minimum_nan (x : float) (l : list float) :
  is_nan x = true ∨ Exists (λ y, is_nan y = true) l →
  is_nan (foldl np_minimum x l) = true.
Proof.
  revert x. induction l as [|y l IH]; intros x Hnan; simpl foldl.
  - destruct Hnan as [Hx|Hl]; [done|by apply Exists_nil in Hl].
  - apply IH. destruct Hnan as [Hx|Hl].
    + left. cbn. by rewrite Hx, orb_true_r.
    + apply Exists_cons in Hl as [Hy|Hl]; [|by right]. left. cbn.
      destruct (is_nan x) eqn:Hx; [by rewrite orb_true_r|].
      destruct (nan_compare_l y x Hy) as (_ & _ & _ & _ & -> & _). done.
Qed.

Lemma foldl_maximum_nan (x : float) (l : list float) :
  is_nan x = true ∨ Exists (λ y, is_nan y = true) l →
  is_nan (foldl np_maximum x l) = true.
Proof.
  revert x. induction l as [|y l IH]; intros x Hnan; simpl foldl.
  - destruct Hnan as [Hx|Hl]; [done|by apply Exists_nil in Hl].
  - apply IH. destruct Hnan as [Hx|Hl].
    + left. cbn. by rewrite Hx, orb_true_r.
    + apply Exists_cons in Hl as [Hy|Hl]; [|by right]. left. cbn.
      destruct (is_nan x) eqn:Hx; [by rewrite orb_true_r|].
      destruct (nan_compare_l y x Hy) as (_ & -> & _). done.
Qed.

Lemma scaled_nan_domain (s : float) :
  is_nan (scaled (Computed (NpScalar nan) (NpScalar nan)) s) = true.
Proof.
  apply is_nan_spec.
  change (Prim2SF ((s - nan) / (nan - nan) * 255) = S754_nan).
  rewrite FloatAxioms.mul_spec, FloatAxioms.div_spec, !FloatAxioms.sub_spec.
  unfold SF64mul, SF64div, SF64sub.
  change (Prim2SF nan) with S754_nan. simpl.
  by destruct (SFsub prec emax (Prim2SF s) S754_nan) as [[]|[]| |[] ? ?].
Qed.

(** A NaN among the valid samples turns the computed bounds to NaN. *)
Lemma nan_valid_domain (bands : ndarray float) nodata (x : float) c i :
  lookup2 bands c i = Some x →
  is_nan x = true →
  valid_sample nodata x = true →
  scaling_domain bands nodata None None = Ok (Computed (NpScalar nan) (NpScalar nan)).
Proof.
  intros Hx Hnan Hv.
  apply scaling_domain_computed. unfold global_min_max.
  rewrite (np_any_valid bands nodata c i x Hx Hv).
  rewrite valid_mask_map2d.
  assert (x ∈ mask_index bands (map2d (valid_sample nodata) bands)) as Hin
    by (apply elem_of_mask_index; eauto).
  destruct (mask_index bands _) as [|y l]; [by apply not_elem_of_nil in Hin|].
  assert (is_nan y = true ∨ Exists (λ z, is_nan z = true) l) as Hex.
  { apply elem_of_cons in Hin as [<-|Hin]; [by left|right].
    apply Exists_exists. eauto. }
  unfold np_min, np_max, bind.
  by rewrite (is_nan_eq _ (foldl_minimum_nan y l Hex)),
    (is_nan_eq _ (foldl_maximum_nan y l Hex)).
Qed.

(** X9.  With a sentinel, a NaN sample is not no-data: it enters the minimum
    and the maximum, which it turns to NaN, and the scaled value of every
    sample is then NaN. *)
Theorem nan_sample_spoils_domain (bands : ndarray float) (nd x : float) c i :
  lookup2 bands c i = Some x →
  is_nan x = true →
  lookup2 (valid_mask bands (Some nd)) c i = Some true
  ∧ scaling_domain bands (Some nd) None None = Ok (Computed (NpScalar nan) (NpScalar nan))
  ∧ degenerate (Computed (NpScalar nan) (NpScalar nan)) = false
  ∧ ∀ s, is_nan (scaled (Computed (NpScalar nan) (NpScalar nan)) s) = true.
Proof.
  intros Hx Hnan.
  assert (valid_sample (Some nd) x = true) as Hv.
  { simpl. by destruct (nan_compare_l x nd Hnan) as (_ & _ & -> & _). }
  split; [rewrite lookup2_valid_mask, Hx; exact (f_equal Some Hv)|].
  split; [by apply (nan_valid_domain bands (Some nd) x c i)|].
  split; [done|apply scaled_nan_domain].
Qed.

Lemma nan_sample_spoils_domain_witness :
  lookup2 (valid_mask [[1%float; nan]; [2%float; 3%float]; [4%float; 5%float]] (Some 0%float))
          0 1 = Some true
  ∧ scaling_domain [[1%float; nan]; [2%float; 3%float]; [4%float; 5%float]] (Some 0%float)
      None None = Ok (Computed (NpScalar nan) (NpScalar nan))
  ∧ degenerate (Computed (NpScalar nan) (NpScalar nan)) = false
  ∧ ∀ s, is_nan (scaled (Computed (NpScalar nan) (NpScalar nan)) s) = true.
Proof.
  refine (nan_sample_spoils_domain [[1%float; nan]; [2%float; 3%float]; [4%float; 5%float]]
            0%float nan 0%nat 1%nat _ _); reflexivity.
Defined.

(** ** Automatic scaling against a provided domain *)

(** Integers below 2^53 are floats. *)
Lemma float_of_Z_exact (z : Z) :
  0 ≤ z < 2 ^ 53 → F2R (Prim2SF (float_of_Z z)) = IZR z.
Proof.
  intros Hz. destruct (decide (z = 0)) as [->|Hne]; [done|].
  destruct (float_of_Z_Rnd z) as [[Hx _]|[(_ & m & e & Hr & Hp)|[Hx _]]].
  - pow_consts. lia.
  - apply eq_IZR in Hx. lia.
  - rewrite Hp. destruct Hr as (He & Hm & Hhi & Hlo & Hnear & _).
    assert (e ≤ 0) as He0.
    { destruct Hlo as [->|Hlo]; [lia|].
      assert (bpow (e + 52) < bpow 53)%R as Hlt.
      { eapply Rle_lt_trans; [exact Hlo|]. rewrite (bpow_IZR 53) by lia.
        apply IZR_lt. lia. }
      apply bpow_lt_inv in Hlt. lia. }
    pose proof (bpow_pos e) as Hbe.
    assert (IZR z = IZR (z * 2 ^ (- e)) * bpow e)%R as Hk.
    { rewrite mult_IZR, <- bpow_IZR by lia. rewrite Rmult_assoc, bpow_cancel. lra. }
    assert (m = z * 2 ^ (- e)) as Hmk.
    { rewrite Hk in Hnear. rewrite <- Rmult_minus_distr_r, <- minus_IZR in Hnear.
      apply Rabs_le_bounds in Hnear.
      remember (z * 2 ^ (- e) - m) as t.
      assert (-1 < t < 1); [|lia].
      split; apply lt_IZR.
      - assert (- (1 / 2) <= IZR t)%R; [|lra].
        apply (Rmult_le_reg_r (bpow e)); [done|]. lra.
      - assert (IZR t <= 1 / 2)%R; [|lra].
        apply (Rmult_le_reg_r (bpow e)); [done|]. lra. }
    assert (IZR m * bpow e = IZR z)%R as Hval by (rewrite Hk, Hmk; done).
    assert (0 < m) as Hmpos by (pose proof (Z.pow_pos_nonneg 2 (- e)); nia).
    unfold pack. destruct (Z.eqb_spec m 0); [lia|].
    destruct (Z.eqb_spec m (2 ^ 53)) as [Hm53|Hm53].
    + destruct (Z.leb_spec (e + 1) 971); [|lia]. cbn [F2R].
      change (Zpos (Z.to_pos (2 ^ 52))) with (2 ^ 52).
      rewrite bpow_succ, <- Hval, Hm53.
      change (2 ^ 53) with (2 * 2 ^ 52). rewrite mult_IZR. lra.
    + destruct (Z.leb_spec e 971); [|lia]. cbn [F2R].
      rewrite Z2Pos.id by done. lra.
  - apply lt_IZR in Hx. lia.
Qed.

Lemma sub_int_exact (a b : Z) :
  0 ≤ b → b < a → a < 2 ^ 53 →
  (float_of_Z a - float_of_Z b)%float = float_of_Z (a - b).
Proof.
  intros Hb Hba Ha.
  assert (2 ^ 53 < 2 ^ 63) as Hpow by (pow_consts; lia).
  destruct (float_of_Z_F2R_nonneg a ltac:(lia)) as [Hfa _].
  destruct (float_of_Z_F2R_nonneg b ltac:(lia)) as [Hfb _].
  assert (Rnd (IZR (a - b)) (Prim2SF (float_of_Z a - float_of_Z b))) as Hsub.
  { rewrite FloatAxioms.sub_spec. unfold SF64sub.
    rewrite minus_IZR, <- (float_of_Z_exact a), <- (float_of_Z_exact b) by lia.
    apply SFsub_Rnd; try done; apply Prim2SF_valid. }
  pose proof (float_of_Z_Rnd (a - b) ltac:(lia)) as Hint.
  pose proof (Rnd_unique_key _ _ _ Hsub Hint) as Hk.
  apply key_inj in Hk; try apply Prim2SF_valid; try (by eapply Rnd_not_nan).
  destruct Hk as [Heq|(s1 & s2 & _ & Hz)]; [by apply Prim2SF_inj|].
  destruct (float_of_Z_pos (a - b) ltac:(lia)) as (m & e & Hpos). congruence.
Qed.

Lemma ndarray_ext {A} (a b : ndarray A) :
  shape a = shape b → (∀ c i, lookup2 a c i = lookup2 b c i) → a = b.
Proof.
  unfold shape, lookup2. revert b.
  induction a as [|ra a IH]; intros [|rb b]; simpl; try done.
  intros [= Hlen Hshape] Hlook. f_equal.
  - apply list_eq. intros i. exact (Hlook 0%nat i).
  - apply IH; [done|]. intros c i. exact (Hlook (S c) i).
Qed.

Lemma float_of_Z_eqb (a b : Z) :
  0 ≤ a < 2 ^ 53 → 0 ≤ b < 2 ^ 53 →
  PrimFloat.eqb (float_of_Z a) (float_of_Z b) = (a =? b).
Proof.
  intros Ha Hb.
  assert (2 ^ 53 < 2 ^ 63) as Hpow by (pow_consts; lia).
  pose proof (float_of_Z_not_nan a ltac:(lia)) as Hna.
  pose proof (float_of_Z_not_nan b ltac:(lia)) as Hnb.
  destruct (Z.eqb_spec a b) as [->|Hne].
  - rewrite eqb_key by done. lia.
  - destruct (PrimFloat.eqb _ _) eqn:Heq; [exfalso|done].
    apply eqb_true_iff in Heq; [|done|done].
    assert (F2R (Prim2SF (float_of_Z a)) = F2R (Prim2SF (float_of_Z b))) as HF.
    { destruct Heq as [->|[[sa Hza]%is_zero_spec [sb Hzb]%is_zero_spec]]; [done|].
      by rewrite Hza, Hzb. }
    rewrite !float_of_Z_exact in HF by done. apply eq_IZR in HF. done.
Qed.

(** On a valid sample between the bounds, the scaling by the computed
    bounds and the scaling by the same bounds as floats store the same. *)
Lemma uint16_sample_agree (lo hi s : Z) :
  0 ≤ lo → lo ≤ s → s ≤ hi → hi ≤ 65535 → lo < hi →
  quantize (scaled (Computed (NpScalar (U16 lo)) (NpScalar (U16 hi))) (U16 s))
  = quantize (scaled (T:=uint16) (Provided (float_of_Z lo) (float_of_Z hi)) (U16 s)).
Proof.
  intros Hlo Hls Hsh Hhi Hlt.
  change (quantize (float_of_Z (wrap_u16 (s - lo)) / float_of_Z (wrap_u16 (hi - lo)) * 255)
          = quantize ((float_of_Z s - float_of_Z lo) / (float_of_Z hi - float_of_Z lo) * 255)).
  rewrite !wrap_u16_small by lia.
  rewrite (sub_int_exact hi lo) by (pow_consts; lia).
  destruct (float_of_Z_pos (hi - lo)) as (m & e & Hd); [pow_consts; lia|].
  destruct (decide (s = lo)) as [->|Hne].
  - rewrite Z.sub_diag.
    destruct (float_of_Z_F2R_nonneg lo) as [Hf _]; [pow_consts; lia|].
    destruct (sub_self (float_of_Z lo) Hf) as [s0 Hz].
    rewrite (scaled_bottom (float_of_Z 0) _ false false m e eq_refl Hd).
    by rewrite (scaled_bottom _ _ s0 false m e Hz Hd).
  - by rewrite (sub_int_exact s lo) by (pow_consts; lia).
Qed.

(** X10.  Automatic scaling of an unsigned 16-bit raster is the scaling by a
    provided domain made of the computed bounds: giving the minimum and the
    maximum of the valid samples as [--min] and [--max] changes nothing. *)
Theorem uint16_auto_is_explicit (bands : ndarray uint16) nodata (lo hi : scalar uint16) :
  Forall (Forall (λ s, 0 ≤ u16 s ≤ 65535)) bands →
  scaling_domain bands nodata None None = Ok (Computed lo hi) →
  scale bands nodata None None
  = scale bands nodata (Some (scalar_float lo)) (Some (scalar_float hi)).
Proof.
  intros Hrange Hdom.
  destruct (scale_total bands nodata None None) as [out Hout].
  destruct (scale_total bands nodata (Some (scalar_float lo)) (Some (scalar_float hi)))
    as [out' Hout'].
  rewrite Hout, Hout'. f_equal. apply ndarray_ext.
  { by rewrite (scale_shape _ _ _ _ _ Hout), (scale_shape _ _ _ _ _ Hout'). }
  intros c i.
  rewrite (scale_lookup _ _ _ _ _ _ c i Hdom Hout).
  rewrite (scale_lookup bands nodata (Some (scalar_float lo)) (Some (scalar_float hi))
             (Provided (scalar_float lo) (scalar_float hi)) out' c i eq_refl Hout').
  destruct (lookup2 bands c i) as [[s]|] eqn:Hs; [|done]. simpl fmap. f_equal.
  assert (0 ≤ s ≤ 65535) as Hsr.
  { rewrite Forall_lookup2 in Hrange. exact (Hrange c i _ Hs). }
  unfold scaling_domain in Hdom.
  destruct (global_min_max bands (valid_mask bands nodata)) as [[lo' hi']|] eqn:Hmm; [|done].
  simpl in Hdom. injection Hdom as -> ->.
  destruct (valid_sample nodata (U16 s)) eqn:Hv.
  2:{ rewrite to_uint8_clip_zero.
      by destruct (scalar_eqb hi lo), (PrimFloat.eqb (scalar_float hi) (scalar_float lo)). }
  destruct (uint16_min_max_joint bands nodata) as
    (l & h & Hjoint & (cl & il & Hl & Hvl) & (ch & ih & Hh & Hvh) & Hbounds); [by eauto|].
  rewrite Hjoint in Hmm. injection Hmm as <- <-.
  destruct (Hbounds _ _ _ Hs Hv) as [Hls Hsh]. simpl in Hls, Hsh.
  destruct l as [l], h as [h]. simpl in Hls, Hsh.
  assert (0 ≤ l ≤ 65535) as Hlr.
  { rewrite Forall_lookup2 in Hrange. exact (Hrange _ _ _ Hl). }
  assert (0 ≤ h ≤ 65535) as Hhr.
  { rewrite Forall_lookup2 in Hrange. exact (Hrange _ _ _ Hh). }
  change (scalar_eqb (NpScalar (U16 h)) (NpScalar (U16 l))) with (h =? l).
  change (scalar_float (NpScalar (U16 h))) with (float_of_Z h).
  change (scalar_float (NpScalar (U16 l))) with (float_of_Z l).
  rewrite float_of_Z_eqb by (pow_consts; lia).
  destruct (Z.eqb_spec h l); [done|].
  apply (uint16_sample_agree l h s); lia.
Qed.

Lemma uint16_auto_is_explicit_witness :
  scale [[U16 0; U16 10000]; [U16 500; U16 8000]; [U16 12000; U16 0]] (Some 0%float) None None
  = scale [[U16 0; U16 10000]; [U16 500; U16 8000]; [U16 12000; U16 0]] (Some 0%float)
      (Some (scalar_float (NpScalar (U16 500)))) (Some (scalar_float (NpScalar (U16 12000)))).
Proof.
  refine (uint16_auto_is_explicit
            [[U16 0; U16 10000]; [U16 500; U16 8000]; [U16 12000; U16 0]] (Some 0%float)
            (NpScalar (U16 500)) (NpScalar (U16 12000)) _ _).
  - repeat constructor; simpl; lia.
  - reflexivity.
Defined.

(** ** The name of the world file *)

Lemma rfind_from_absent (c : Ascii.ascii) (b : string) (i last : Z) :
  contains c b = false → rfind_from c b i last = last.
Proof.
  revert i last. induction b as [|x b IH]; intros i last; simpl; [done|].
  intros [Hx Hb]%orb_false_elim. rewrite Hx. by apply IH.
Qed.

Lemma rfind_from_app_absent (c : Ascii.ascii) (a b : string) (i last : Z) :
  contains c b = false → rfind_from c (a +++ b) i last = rfind_from c a i last.
Proof.
  intros Hb. revert i last. induction a as [|x a IH]; intros i last.
  - rewrite append_nil. by apply rfind_from_absent.
  - rewrite append_cons. simpl. apply IH.
Qed.

Lemma rfind_from_app_last (c : Ascii.ascii) (a b : string) (i last : Z) :
  contains c b = false →
  rfind_from c (a +++ String c b) i last = i + Z.of_nat (String.length a).
Proof.
  intros Hb. revert i last. induction a as [|x a IH]; intros i last.
  - rewrite append_nil. simpl. rewrite Ascii.eqb_refl, rfind_from_absent by done. lia.
  - rewrite append_cons. simpl. rewrite IH. lia.
Qed.

Lemma rfind_from_bound (c : Ascii.ascii) (a : string) (i last : Z) :
  rfind_from c a i last = last
  ∨ i ≤ rfind_from c a i last < i + Z.of_nat (String.length a).
Proof.
  revert i last. induction a as [|x a IH]; intros i last; simpl; [by left|].
  destruct (IH (i + 1) (if Ascii.eqb x c then i else last)) as [Heq|Hb].
  - rewrite Heq. destruct (Ascii.eqb x c); [right; lia|by left].
  - right. lia.
Qed.

Lemma str_length_app (a b : string) :
  String.length (a +++ b) = (String.length a + String.length b)%nat.
Proof. induction a as [|x a IH]; [done|]. rewrite append_cons. simpl. by rewrite IH. Qed.

Lemma str_take_app (a b : string) : str_take (String.length a) (a +++ b) = a.
Proof. induction a as [|x a IH]; [by destruct b|]. rewrite append_cons. simpl. by rewrite IH. Qed.

Lemma str_drop_app (a b : string) : str_drop (String.length a) (a +++ b) = b.
Proof. induction a as [|x a IH]; [done|]. rewrite append_cons. simpl. by rewrite IH. Qed.

Lemma str_get_app_r (a b : string) (k : nat) :
  String.get (String.length a + k) (a +++ b) = String.get k b.
Proof. induction a as [|x a IH]; [done|]. rewrite append_cons. simpl. by rewrite IH. Qed.

Lemma str_get_app_l (a b : string) (j : nat) (x : Ascii.ascii) :
  String.get j a = Some x → String.get j (a +++ b) = Some x.
Proof.
  revert j. induction a as [|y a IH]; intros j; [done|].
  rewrite append_cons. destruct j as [|j]; simpl; [done|]. apply IH.
Qed.

Lemma name_before_dot_app (a b : string) (k n : nat) :
  name_before_dot (a +++ b) (String.length a + k) n = name_before_dot b k n.
Proof.
  revert k. induction n as [|n IH]; intros k; simpl; [done|].
  rewrite str_get_app_r. rewrite <- Nat.add_succ_r, IH. done.
Qed.

(** The loop finds nothing iff it meets dots only. *)
Lemma name_before_dot_false (b : string) (k n : nat) :
  name_before_dot b k n = false ↔ ∀ j, (j < n)%nat → String.get (k + j) b = Some "."%char.
Proof.
  revert k. induction n as [|n IH]; intros k; simpl.
  - split; [intros _ j Hj; lia|done].
  - destruct (String.get k b) as [x|] eqn:Hk.
    + destruct (Ascii.eqb_spec x ".") as [->|Hne].
      * rewrite IH. split.
        -- intros Hall [|j] Hj; [by rewrite Nat.add_0_r|].
           rewrite Nat.add_succ_r. apply Hall. lia.
        -- intros Hall j Hj. specialize (Hall (S j) ltac:(lia)).
           by rewrite Nat.add_succ_r in Hall.
      * assert (match x with "."%char => name_before_dot b (S k) n | _ => true end = true)
          as ->.
        { destruct x as [[] [] [] [] [] [] [] []]; try done. }
        split; [done|]. intros Hall. specialize (Hall 0%nat ltac:(lia)).
        rewrite Nat.add_0_r, Hk in Hall. congruence.
    + split; [done|]. intros Hall. specialize (Hall 0%nat ltac:(lia)).
      rewrite Nat.add_0_r, Hk in Hall. done.
Qed.

Lemma dots_get (n j : nat) : (j < n)%nat → String.get j (dots n) = Some "."%char.
Proof.
  revert j. induction n as [|n IH]; intros j Hj; [lia|].
  destruct j as [|j]; simpl; [done|]. apply IH. lia.
Qed.

Lemma dots_length (n : nat) : String.length (dots n) = n.
Proof. induction n as [|n IH]; simpl; [done|]. by rewrite IH. Qed.

Lemma dots_snoc (n : nat) : dots (S n) = dots n +++ ".".
Proof.
  induction n as [|n IH]; [done|].
  change (dots (S (S n))) with (String "." (dots (S n))). rewrite IH at 1.
  by rewrite <- append_cons.
Qed.

Lemma contains_app (c : Ascii.ascii) (a b : string) :
  contains c (a +++ b) = contains c a || contains c b.
Proof.
  induction a as [|x a IH]; [done|]. rewrite append_cons. simpl.
  by rewrite IH, orb_assoc.
Qed.

(** The index after the last separator of a directory prefix. *)
Lemma rfind_sep_prefix (dir rest : string) :
  dir = EmptyString ∨ (∃ d, dir = d +++ "/") →
  contains "/" rest = false →
  rfind (dir +++ rest) "/" + 1 = Z.of_nat (String.length dir).
Proof.
  intros Hdir Hrest. unfold rfind. rewrite rfind_from_app_absent by done.
  destruct Hdir as [->|[d ->]]; [done|].
  rewrite (rfind_from_app_last "/" d EmptyString) by done.
  rewrite str_length_app. simpl. lia.
Qed.

Lemma str_get_lt (a : string) (j : nat) (x : Ascii.ascii) :
  String.get j a = Some x → (j < String.length a)%nat.
Proof.
  revert j. induction a as [|y a IH]; intros j; [done|].
  destruct j as [|j]; simpl; [lia|]. intros Hj%IH. lia.
Qed.

Lemma dots_no_sep (n : nat) : contains "/" (dots n) = false.
Proof. induction n as [|n IH]; [done|]. simpl. exact IH. Qed.

(** A name with an extension: the last dot of the path comes after a
    character of the last component that is not a dot. *)
Lemma splitext_with_extension (dir stem e : string) :
  dir = EmptyString ∨ (∃ d, dir = d +++ "/") →
  contains "/" stem = false →
  (∃ j x, String.get j stem = Some x ∧ x ≠ "."%char) →
  contains "." e = false → contains "/" e = false →
  splitext (dir +++ stem +++ String "." e) = (dir +++ stem, String "." e).
Proof.
  intros Hdir Hstem (j & x & Hj & Hx) He1 He2.
  assert (contains "/" (stem +++ String "." e) = false) as Hrest.
  { rewrite contains_app, Hstem. simpl. exact He2. }
  pose proof (rfind_sep_prefix dir _ Hdir Hrest) as Hsep.
  assert (rfind (dir +++ stem +++ String "." e) "."
          = Z.of_nat (String.length dir + String.length stem)) as Hdot.
  { unfold rfind. rewrite <- str_app_assoc, rfind_from_app_last by done.
    rewrite str_length_app. lia. }
  unfold splitext. rewrite Hdot.
  replace (rfind (dir +++ stem +++ String "." e) "/")
    with (Z.of_nat (String.length dir) - 1) by lia.
  replace (Z.to_nat (Z.of_nat (String.length dir) - 1 + 1)) with (String.length dir + 0)%nat
    by lia.
  replace (Z.to_nat (Z.of_nat (String.length dir + String.length stem)
                     - (Z.of_nat (String.length dir) - 1 + 1)))
    with (String.length stem) by lia.
  rewrite name_before_dot_app.
  assert (name_before_dot (stem +++ String "." e) 0 (String.length stem) = true) as ->.
  { destruct (name_before_dot _ _ _) eqn:Hn; [done|].
    rewrite name_before_dot_false in Hn.
    specialize (Hn j (str_get_lt _ _ _ Hj)). simpl in Hn.
    rewrite (str_get_app_l _ _ _ _ Hj) in Hn. congruence. }
  destruct (Z.ltb_spec (Z.of_nat (String.length dir) - 1)
              (Z.of_nat (String.length dir + String.length stem))); [|lia].
  simpl andb. cbv iota. rewrite Nat2Z.id, <- str_length_app, <- str_app_assoc.
  by rewrite str_take_app, str_drop_app.
Qed.

(** A name without extension: leading dots, then no dot. *)
Lemma splitext_without_extension (dir rest : string) (n : nat) :
  dir = EmptyString ∨ (∃ d, dir = d +++ "/") →
  contains "." rest = false → contains "/" rest = false →
  splitext (dir +++ dots n +++ rest) = (dir +++ dots n +++ rest, EmptyString).
Proof.
  intros Hdir Hr1 Hr2.
  assert (contains "/" (dots n +++ rest) = false) as Hrest
    by (by rewrite contains_app, dots_no_sep, Hr2).
  pose proof (rfind_sep_prefix dir _ Hdir Hrest) as Hsep.
  unfold splitext.
  destruct n as [|k].
  - assert (rfind (dir +++ dots 0 +++ rest) "." ≤ rfind (dir +++ dots 0 +++ rest) "/") as Hle.
    { assert (rfind (dir +++ dots 0 +++ rest) "/" = Z.of_nat (String.length dir) - 1) as ->
        by lia.
      unfold rfind. simpl dots. rewrite append_nil, rfind_from_app_absent by done.
      destruct Hdir as [->|[d ->]]; [simpl; lia|].
      rewrite (rfind_from_app_absent "." d "/") by done.
      rewrite str_length_app. simpl String.length.
      destruct (rfind_from_bound "." d 0 (-1)) as [->|Hb]; lia. }
    destruct (Z.ltb_spec (rfind (dir +++ dots 0 +++ rest) "/")
                (rfind (dir +++ dots 0 +++ rest) ".")); [lia|done].
  - assert (rfind (dir +++ dots (S k) +++ rest) "."
            = Z.of_nat (String.length dir + k)) as Hdot.
    { unfold rfind. rewrite dots_snoc, <- !str_app_assoc.
      rewrite (str_app_assoc (dir +++ dots k) "." rest).
      rewrite append_cons, append_nil, rfind_from_app_last by done.
      rewrite str_length_app, dots_length. lia. }
    rewrite Hdot.
    replace (rfind (dir +++ dots (S k) +++ rest) "/")
      with (Z.of_nat (String.length dir) - 1) by lia.
    replace (Z.to_nat (Z.of_nat (String.length dir) - 1 + 1)) with (String.length dir + 0)%nat
      by lia.
    replace (Z.to_nat (Z.of_nat (String.length dir + k)
                       - (Z.of_nat (String.length dir) - 1 + 1))) with k by lia.
    rewrite name_before_dot_app.
    assert (name_before_dot (dots (S k) +++ rest) 0 k = false) as ->.
    { apply name_before_dot_false. intros j Hj. simpl Nat.add.
      apply str_get_app_l, dots_get. lia. }
    by rewrite andb_false_r.
Qed.

(** X11.  The path of the world file.  For an output whose last component has
    an extension (a last dot that follows a character other than a dot), the
    extension is replaced by [.tfw]; for one without (leading dots only, or
    no dot, whatever the dots of the directories), [.tfw] is added to the
    whole path.  This is the path the function returns when the file can be
    created, and the path of the [OSError] it raises when it cannot. *)
Theorem world_file_name {T : Type} `{Dtype T} (float_repr : float → string)
    (transform : Affine.t) (w : world (T:=T)) :
  (∀ dir stem e : string,
     dir = EmptyString ∨ (∃ d, dir = d +++ "/") →
     contains "/" stem = false →
     (∃ j x, String.get j stem = Some x ∧ x ≠ "."%char) →
     contains "." e = false → contains "/" e = false →
     (create_world_file float_repr transform (dir +++ stem +++ String "." e) w).1
     = if creatable (fs w) ((dir +++ stem) +++ ".tfw")
       then Ok ((dir +++ stem) +++ ".tfw")
       else Raise (OSError ((dir +++ stem) +++ ".tfw")))
  ∧ (∀ (dir rest : string) (n : nat),
       dir = EmptyString ∨ (∃ d, dir = d +++ "/") →
       contains "." rest = false → contains "/" rest = false →
       (create_world_file float_repr transform (dir +++ dots n +++ rest) w).1
       = if creatable (fs w) ((dir +++ dots n +++ rest) +++ ".tfw")
         then Ok ((dir +++ dots n +++ rest) +++ ".tfw")
         else Raise (OSError ((dir +++ dots n +++ rest) +++ ".tfw"))).
Proof.
  split.
  - intros dir stem e Hdir Hstem Hname He1 He2.
    unfold create_world_file, bind_io, store, ret.
    rewrite (splitext_with_extension dir stem e Hdir Hstem Hname He1 He2). cbn [fst].
    by destruct (creatable (fs w) _).
  - intros dir rest n Hdir Hr1 Hr2.
    unfold create_world_file, bind_io, store, ret.
    rewrite (splitext_without_extension dir rest n Hdir Hr1 Hr2). cbn [fst].
    by destruct (creatable (fs w) _).
Qed.

Lemma world_file_name_witness :
  (create_world_file example_repr example_transform ("out.d/" +++ "rgb.v2" +++ String "." "tif")
     example_world).1 = Ok (("out.d/" +++ "rgb.v2") +++ ".tfw")
  ∧ (create_world_file example_repr example_transform ("out.d/" +++ dots 1 +++ "rgb")
       example_world).1 = Ok (("out.d/" +++ dots 1 +++ "rgb") +++ ".tfw").
Proof.
  split.
  - refine (proj1 (world_file_name example_repr example_transform example_world)
              "out.d/" "rgb.v2" "tif" _ _ _ _ _); try reflexivity.
    + right. by exists "out.d".
    + exists 0%nat, "r"%char. split; [reflexivity|discriminate].
  - refine (proj2 (world_file_name example_repr example_transform example_world)
              "out.d/" "rgb" 1%nat _ _ _); try reflexivity.
    right. by exists "out.d".
Defined.

(** ** The order of the bands *)

Lemma lookup2_elem_of {A} (bands : ndarray A) (x : A) :
  (∃ c i, lookup2 bands c i = Some x) ↔ ∃ row, row ∈ bands ∧ x ∈ row.
Proof.
  unfold lookup2. split.
  - intros (c & i & Hx). destruct (bands !! c) as [row|] eqn:Hrow; [|done].
    exists row. split; by eapply list_elem_of_lookup_2.
  - intros (row & [c Hc]%list_elem_of_lookup_1 & [i Hi]%list_elem_of_lookup_1).
    exists c, i. by rewrite Hc.
Qed.

Lemma np_any_valid_iff {T} `{Dtype T} (bands : ndarray T) nodata :
  np_any (valid_mask bands nodata) = true
  ↔ ∃ c i s, lookup2 bands c i = Some s ∧ valid_sample nodata s = true.
Proof.
  split; [|intros (c & i & s & Hs & Hv); by eapply np_any_valid].
  rewrite valid_mask_map2d. unfold np_any, map2d.
  intros (brow & Hbrow & Hex)%existsb_exists.
  apply list_elem_of_In, list_elem_of_fmap in Hbrow as (row & -> & Hrow).
  apply existsb_exists in Hex as (b & Hb & ->).
  apply list_elem_of_In, list_elem_of_fmap in Hb as (s & Hv & Hs).
  destruct (proj2 (lookup2_elem_of bands s)) as (c & i & Hl); [by eauto|].
  by exists c, i, s.
Qed.

Section BandOrder.
Context {T : Type} `{Dtype T}.
Variable le : T → T → Prop.
Hypothesis le_refl : ∀ x, le x x.
Hypothesis le_trans : ∀ x y z, le x y → le y z → le x z.
Hypothesis le_antisym : ∀ x y, le x y → le y x → x = y.
Hypothesis minimum_case :
  ∀ x y, (np_minimum x y = x ∨ np_minimum x y = y) ∧ le (np_minimum x y) x ∧ le (np_minimum x y) y.
Hypothesis maximum_case :
  ∀ x y, (np_maximum x y = x ∨ np_maximum x y = y) ∧ le x (np_maximum x y) ∧ le y (np_maximum x y).

Lemma global_min_max_perm (bands bands' : ndarray T) (nodata : option float) :
  bands ≡ₚ bands' →
  global_min_max bands' (valid_mask bands' nodata)
  = global_min_max bands (valid_mask bands nodata).
Proof.
  intros Hperm.
  assert (∀ s, (∃ c i, lookup2 bands c i = Some s) ↔ (∃ c i, lookup2 bands' c i = Some s))
    as Hsame.
  { intros s. rewrite !lookup2_elem_of. by setoid_rewrite Hperm. }
  assert ((∃ c i s, lookup2 bands c i = Some s ∧ valid_sample nodata s = true)
          ↔ (∃ c i s, lookup2 bands' c i = Some s ∧ valid_sample nodata s = true)) as Hex.
  { split; intros (c & i & s & Hs & Hv).
    - destruct (proj1 (Hsame s)) as (c' & i' & Hs'); eauto 6.
    - destruct (proj2 (Hsame s)) as (c' & i' & Hs'); eauto 6. }
  destruct (np_any (valid_mask bands nodata)) eqn:Hany.
  - apply np_any_valid_iff in Hany as Hval.
    destruct (global_min_max_joint le (λ _, True) (λ x _, le_refl x) le_trans
                (λ x y _ _, minimum_case x y) (λ x y _ _, maximum_case x y)
                bands nodata Hval ltac:(done))
      as (lo & hi & -> & (cl & il & Hlo & Hvlo) & (ch & ih & Hhi & Hvhi) & Hb).
    destruct (global_min_max_joint le (λ _, True) (λ x _, le_refl x) le_trans
                (λ x y _ _, minimum_case x y) (λ x y _ _, maximum_case x y)
                bands' nodata (proj1 Hex Hval) ltac:(done))
      as (lo' & hi' & -> & (cl' & il' & Hlo' & Hvlo') & (ch' & ih' & Hhi' & Hvhi') & Hb').
    destruct (proj1 (Hsame lo)) as (c1 & i1 & H1); [by eauto|].
    destruct (proj1 (Hsame hi)) as (c2 & i2 & H2); [by eauto|].
    destruct (proj2 (Hsame lo')) as (c3 & i3 & H3); [by eauto|].
    destruct (proj2 (Hsame hi')) as (c4 & i4 & H4); [by eauto|].
    assert (lo' = lo) as ->.
    { apply le_antisym; [exact (proj1 (Hb' _ _ _ H1 Hvlo))|exact (proj1 (Hb _ _ _ H3 Hvlo'))]. }
    assert (hi' = hi) as ->.
    { apply le_antisym; [exact (proj2 (Hb _ _ _ H4 Hvhi'))|exact (proj2 (Hb' _ _ _ H2 Hvhi))]. }
    done.
  - assert (np_any (valid_mask bands' nodata) = false) as Hany'.
    { destruct (np_any (valid_mask bands' nodata)) eqn:Hany'; [|done].
      apply np_any_valid_iff, Hex, np_any_valid_iff in Hany'. congruence. }
    unfold global_min_max. by rewrite Hany, Hany'.
Qed.
End BandOrder.

(** X12.  The computed domain of a 16-bit raster does not depend on the order
    in which the bands are given: the red, green and blue bands in any order
    are scaled by the same bounds. *)
Theorem computed_domain_ignores_band_order :
  (∀ (bands bands' : ndarray uint16) nodata,
     bands ≡ₚ bands' →
     scaling_domain bands' nodata None None = scaling_domain bands nodata None None)
  ∧ (∀ (bands bands' : ndarray int16) nodata,
       bands ≡ₚ bands' →
       scaling_domain bands' nodata None None = scaling_domain bands nodata None None).
Proof.
  split.
  - intros bands bands' nodata Hperm. unfold scaling_domain.
    assert (global_min_max bands' (valid_mask bands' nodata)
            = global_min_max bands (valid_mask bands nodata)) as ->; [|done].
    apply (global_min_max_perm (λ x y, u16 x ≤ u16 y)); try done.
    + intros; cbv beta in *; lia.
    + intros [x] [y] Hxy Hyx. simpl in *. f_equal. lia.
    + intros x y. cbn. destruct (Z.leb_spec (u16 x) (u16 y)); split; auto; lia.
    + intros x y. cbn. destruct (Z.leb_spec (u16 y) (u16 x)); split; auto; lia.
  - intros bands bands' nodata Hperm. unfold scaling_domain.
    assert (global_min_max bands' (valid_mask bands' nodata)
            = global_min_max bands (valid_mask bands nodata)) as ->; [|done].
    apply (global_min_max_perm (λ x y, i16 x ≤ i16 y)); try done.
    + intros; cbv beta in *; lia.
    + intros [x] [y] Hxy Hyx. simpl in *. f_equal. lia.
    + intros x y. cbn. destruct (Z.leb_spec (i16 x) (i16 y)); split; auto; lia.
    + intros x y. cbn. destruct (Z.leb_spec (i16 y) (i16 x)); split; auto; lia.
Qed.

Lemma computed_domain_ignores_band_order_witness :
  scaling_domain [[U16 12000; U16 0]; [U16 500; U16 8000]; [U16 7; U16 10000]] None None None
  = scaling_domain [[U16 7; U16 10000]; [U16 500; U16 8000]; [U16 12000; U16 0]] None None None.
Proof.
  refine (proj1 computed_domain_ignores_band_order
            [[U16 7; U16 10000]; [U16 500; U16 8000]; [U16 12000; U16 0]]
            [[U16 12000; U16 0]; [U16 500; U16 8000]; [U16 7; U16 10000]] None _).
  apply Permutation_rev.
Defined.

(** X13.  One band given for the three channels gives a grey image: the
    three bands of the result are the same, with or without a provided
    domain. *)
Theorem same_band_is_grey {T} `{Dtype T} (r : list T) nodata min_value max_value :
  ∃ R, scale [r; r; r] nodata min_value max_value = Ok [R; R; R] ∧ length R = length r.
Proof.
  destruct (scale_total [r; r; r] nodata min_value max_value) as [out Hout].
  destruct (scale_by_domain [r; r; r] nodata min_value max_value) as (dom & Hdom & _).
  destruct (three_bands out (length r) (length r) (length r)) as (R & G & B & -> & HR & HG & HB).
  { by rewrite (scale_shape _ _ _ _ _ Hout). }
  assert (G = R) as ->.
  { apply list_eq. intros i.
    pose proof (scale_lookup _ _ _ _ _ _ 1%nat i Hdom Hout) as H1.
    pose proof (scale_lookup _ _ _ _ _ _ 0%nat i Hdom Hout) as H0.
    unfold lookup2 in H0, H1. simpl in H0, H1. congruence. }
  assert (B = R) as ->.
  { apply list_eq. intros i.
    pose proof (scale_lookup _ _ _ _ _ _ 2%nat i Hdom Hout) as H2.
    pose proof (scale_lookup _ _ _ _ _ _ 0%nat i Hdom Hout) as H0.
    unfold lookup2 in H0, H2. simpl in H0, H2. congruence. }
  by exists R.
Qed.

(** ** The stored value in integer arithmetic *)

Lemma F2R_pack (m e : Z) :
  0 ≤ m → is_finite_SF (pack false m e) = true →
  F2R (pack false m e) = (IZR m * bpow e)%R.
Proof.
  intros Hm. unfold pack.
  destruct (Z.eqb_spec m 0) as [->|Hne]; [intros _; simpl; lra|].
  destruct (Z.eqb_spec m (2 ^ 53)) as [->|Hne53].
  - destruct (e + 1 <=? 971); [intros _|done]. cbn [F2R].
    change (Zpos (Z.to_pos (2 ^ 52))) with (2 ^ 52).
    rewrite bpow_succ. change (2 ^ 53) with (2 * 2 ^ 52). rewrite mult_IZR. lra.
  - destruct (e <=? 971); [intros _|done]. cbn [F2R].
    rewrite Z2Pos.id by lia. lra.
Qed.

(** The error of a rounding to nearest. *)
Lemma Rnd_error (x : R) (r : spec_float) :
  Rnd x r → (0 < x)%R → is_finite_SF r = true →
  (Rabs (F2R r - x) <= x * bpow (-53) + bpow (-1075))%R.
Proof.
  intros [(-> & _)|[(_ & m & e & Hr & ->)|(Hneg & _)]] Hx Hf; [lra| |lra].
  destruct Hr as (He & Hm & Hhi & Hlo & Hnear & _).
  rewrite F2R_pack by done. rewrite Rabs_minus_sym.
  pose proof (bpow_pos (-53)). pose proof (bpow_pos (-1075)).
  eapply Rle_trans; [exact Hnear|].
  destruct Hlo as [->|Hlo].
  - change (-1074) with (-1075 + 1). rewrite bpow_succ.
    assert (0 <= x * bpow (-53))%R by (apply Rmult_le_pos; lra). lra.
  - replace e with ((e + 52) + (-53) + 1) at 1 by lia. rewrite bpow_succ, bpow_add.
    assert (bpow (e + 52) * bpow (-53) <= x * bpow (-53))%R
      by (apply Rmult_le_compat_r; lra). lra.
Qed.

Lemma bpow_neg_IZR (n : Z) : 0 ≤ n → bpow (- n) = (/ IZR (2 ^ n))%R.
Proof. intros Hn. by rewrite bpow_opp, bpow_IZR. Qed.

Lemma floor_unique (q t : Z) (u : R) :
  (IZR q <= u < IZR q + 1)%R → (IZR t <= u < IZR t + 1)%R → t = q.
Proof.
  intros [Hq1 Hq2] [Ht1 Ht2].
  assert (IZR t < IZR (q + 1))%R as H1 by (rewrite plus_IZR; lra).
  assert (IZR q < IZR (t + 1))%R as H2 by (rewrite plus_IZR; lra).
  apply lt_IZR in H1, H2. lia.
Qed.

(** A float strictly between two consecutive integers below 255 is stored
    as the lower one. *)
Lemma quantize_floor (p : float) (q : Z) (m : positive) (e : Z) :
  Prim2SF p = S754_finite false m e →
  0 ≤ q < 255 →
  (IZR q <= F2R (Prim2SF p) < IZR q + 1)%R →
  quantize p = q.
Proof.
  intros Hp Hq Hu.
  pose proof (Prim2SF_valid p) as Hv.
  assert (is_nan p = false) as Hn by (apply not_nan_SF; by rewrite Hp).
  assert (0 < fkey p) as Hk0.
  { unfold fkey. rewrite Hp. rewrite Hp in Hv. apply bounded_inv in Hv.
    cbn [key cond_Zopp]. pow_consts. lia. }
  assert (fkey p < fkey 255) as Hk1.
  { destruct (Z_lt_le_dec (fkey p) (fkey 255)) as [|Hle]; [done|exfalso].
    apply key_le_F2R in Hle; try done; try apply Prim2SF_valid; [|by rewrite Hp].
    assert (F2R (Prim2SF 255) = 255%R) as H255.
    { change (Prim2SF 255) with (S754_finite false 8972014882652160 (-45)).
      cbn [F2R]. replace (bpow (-45)) with (/ IZR (2 ^ 45))%R
        by (symmetry; apply (bpow_neg_IZR 45); lia).
      change (2 ^ 45) with 35184372088832. lra. }
    rewrite H255 in Hle. assert (IZR q + 1 <= 255)%R; [|lra].
    rewrite <- plus_IZR. apply IZR_le. lia. }
  assert (clip1 p 0 255 = p) as Hclip.
  { unfold clip1, fmax, fmin. rewrite Hn, (ltb_key 0 p) by done.
    change (fkey 0) with 0. destruct (Z.ltb_spec 0 (fkey p)); [|lia].
    rewrite Hn, (ltb_key p 255) by done.
    destruct (Z.ltb_spec (fkey p) (fkey 255)); [done|lia]. }
  unfold quantize, to_uint8. rewrite Hclip, truncate_eq.
  assert (truncate_SF (Prim2SF p) = q) as ->.
  { apply (floor_unique q _ (F2R (Prim2SF p))); [done|].
    apply truncate_SF_floor; [done|by rewrite Hp|]. unfold fkey in Hk0. lia. }
  apply Z.mod_small. lia.
Qed.

Lemma F2R_255 : F2R (Prim2SF 255) = 255%R.
Proof.
  change (Prim2SF 255) with (S754_finite false 8972014882652160 (-45)).
  cbn [F2R]. replace (bpow (-45)) with (/ IZR (2 ^ 45))%R
    by (symmetry; apply (bpow_neg_IZR 45); lia).
  change (2 ^ 45) with 35184372088832. lra.
Qed.

Lemma div_int_Rnd (a d : Z) :
  0 ≤ a < 2 ^ 53 → 1 ≤ d < 2 ^ 53 →
  Rnd (IZR a / IZR d) (Prim2SF (float_of_Z a / float_of_Z d)).
Proof.
  intros Ha Hd.
  assert (2 ^ 53 < 2 ^ 63) as Hpow by (pow_consts; lia).
  rewrite FloatAxioms.div_spec. unfold SF64div.
  rewrite <- (float_of_Z_exact a), <- (float_of_Z_exact d) by lia.
  destruct (float_of_Z_F2R_nonneg a ltac:(lia)) as [Hfa _].
  destruct (float_of_Z_pos d ltac:(lia)) as (m & e & Hfd).
  apply SFdiv_Rnd; try done; try apply Prim2SF_valid. eauto.
Qed.

Lemma ratio_table (k : Z) : 0 ≤ k ≤ 255 → scaled_int k 255 = k.
Proof.
  intros Hk.
  assert (forallb (λ k, scaled_int k 255 =? k) (seqZ 0 256) = true) as Htable
    by (vm_compute; reflexivity).
  rewrite forallb_forall in Htable. apply Z.eqb_eq, Htable.
  apply list_elem_of_In, elem_of_seqZ. lia.
Qed.

Lemma div_same_ratio (a d k : Z) :
  1 ≤ a < 2 ^ 53 → 1 ≤ d < 2 ^ 53 → 1 ≤ k ≤ 255 → 255 * a = k * d →
  (float_of_Z a / float_of_Z d)%float = (float_of_Z k / float_of_Z 255)%float.
Proof.
  intros Ha Hd Hk Heq.
  pose proof (div_int_Rnd a d ltac:(lia) ltac:(lia)) as H1.
  pose proof (div_int_Rnd k 255 ltac:(pow_consts; lia) ltac:(pow_consts; lia)) as H2.
  assert (IZR a / IZR d = IZR k / IZR 255)%R as Hreal.
  { assert (0 < IZR d)%R by (apply IZR_lt; lia).
    assert (IZR 255 * IZR a = IZR k * IZR d)%R as Hm by (rewrite <- !mult_IZR; by f_equal).
    field_simplify_eq; lra. }
  rewrite Hreal in H1.
  pose proof (Rnd_unique_key _ _ _ H1 H2) as Hkey.
  apply key_inj in Hkey; try apply Prim2SF_valid; try (by eapply Rnd_not_nan).
  destruct Hkey as [Hsame|(s1 & s2 & _ & Hz)]; [by apply Prim2SF_inj|exfalso].
  destruct (Rnd_finite_pos _ _ H2) as (m & e & Hfin); [|congruence].
  assert (1 <= IZR k <= 255)%R by (split; apply IZR_le; lia).
  pose proof (bpow_le (-1074) (-8) ltac:(lia)) as Hlow.
  replace (bpow (-8)) with (/ IZR (2 ^ 8))%R in Hlow
    by (symmetry; apply (bpow_neg_IZR 8); lia).
  change (2 ^ 8) with 256 in Hlow.
  pose proof (bpow_le 8 1000 ltac:(lia)) as Hhigh. rewrite (bpow_IZR 8) in Hhigh by lia.
  change (2 ^ 8) with 256 in Hhigh.
  split.
  - eapply Rle_trans; [exact Hlow|]. apply (Rmult_le_reg_r 255); [lra|].
    replace (IZR k / 255 * 255)%R with (IZR k) by (field; lra). lra.
  - eapply Rlt_le_trans; [|exact Hhigh]. apply (Rmult_lt_reg_r 255); [lra|].
    replace (IZR k / 255 * 255)%R with (IZR k) by (field; lra). lra.
Qed.

(** The scaled value of an integer ratio is the integer quotient: the two
    roundings never carry it across an integer. *)
Lemma scaled_int_floor (a d : Z) :
  0 ≤ a ≤ d → 1 ≤ d ≤ 4294967296 → scaled_int a d = 255 * a / d.
Proof.
  intros Ha Hd.
  assert (2 ^ 53 < 2 ^ 63) as Hpow63 by (pow_consts; lia).
  assert (4294967296 < 2 ^ 53) as Hpow53 by (pow_consts; lia).
  destruct (decide (a = 0)) as [->|Hne].
  { rewrite scaled_int_bottom by lia. by rewrite Z.mul_0_r, Z.div_0_l by lia. }
  pose proof (Z.div_mod (255 * a) d ltac:(lia)) as Hdm.
  pose proof (Z.mod_pos_bound (255 * a) d ltac:(lia)) as Hr.
  set (q := 255 * a / d) in *. set (r := (255 * a) mod d) in *.
  assert (0 ≤ q ≤ 255) as Hq.
  { split; [apply Z.div_pos; lia|]. apply Z.div_le_upper_bound; lia. }
  destruct (decide (r = 0)) as [Hr0|Hr0].
  { unfold scaled_int. rewrite (div_same_ratio a d q) by nia.
    apply ratio_table. lia. }
  assert (q < 255) as Hq255 by nia.
  clearbody q r.
  (* the reals *)
  assert (1 <= IZR a)%R as HA by (apply IZR_le; lia).
  assert (0 < IZR d)%R as HD by (apply IZR_lt; lia).
  assert (IZR a <= IZR d)%R as HAD by (apply IZR_le; lia).
  assert (IZR d <= 4294967296)%R as HD16 by (apply IZR_le; lia).
  assert (1 <= IZR r <= IZR d - 1)%R as HR.
  { split; [apply IZR_le; lia|]. rewrite <- minus_IZR. apply IZR_le. lia. }
  assert (255 * IZR a = IZR d * IZR q + IZR r)%R as Hval.
  { pose proof (f_equal IZR Hdm) as Hz. by rewrite plus_IZR, !mult_IZR in Hz. }
  set (x := (IZR a / IZR d)%R).
  assert (/ 4294967296 <= / IZR d)%R as Hinv by (apply Rinv_le_contravar; lra).
  assert (0 < x <= 1)%R as Hx.
  { unfold x. split; [apply Rdiv_lt_0_compat; lra|].
    apply (Rmult_le_reg_r (IZR d)); [lra|]. unfold Rdiv.
    rewrite Rmult_assoc, Rinv_l by lra. lra. }
  assert (255 * x = IZR q + IZR r * / IZR d)%R as Hv.
  { unfold x. field_simplify_eq; lra. }
  assert (/ IZR d <= IZR r * / IZR d <= 1 - / IZR d)%R as Hfrac.
  { assert (0 < / IZR d)%R by (apply Rinv_0_lt_compat; lra).
    split.
    - rewrite <- (Rmult_1_l (/ IZR d)) at 1. apply Rmult_le_compat_r; lra.
    - replace (1 - / IZR d)%R with ((IZR d - 1) * / IZR d)%R by (field; lra).
      apply Rmult_le_compat_r; lra. }
  (* the constants *)
  pose proof (bpow_pos (-1075)) as Heta.
  pose proof (bpow_le (-1075) (-53) ltac:(lia)) as Heta'.
  pose proof (bpow_le (-1074) (-53) ltac:(lia)) as Hmin.
  pose proof (bpow_le 8 1000 ltac:(lia)) as Hmax. rewrite (bpow_IZR 8) in Hmax by lia.
  change (2 ^ 8) with 256 in Hmax.
  assert (bpow (-53) = / 9007199254740992)%R as Heps by (apply (bpow_neg_IZR 53); lia).
  rewrite Heps in Heta', Hmin.
  (* the division *)
  pose proof (div_int_Rnd a d ltac:(lia) ltac:(lia)) as Hdiv. fold x in Hdiv.
  set (t := (float_of_Z a / float_of_Z d)%float) in *.
  assert (/ 4294967296 <= x)%R as Hxlow.
  { unfold x, Rdiv. apply Rle_trans with (1 * / IZR d)%R; [lra|].
    apply Rmult_le_compat_r; [|lra]. apply Rlt_le, Rinv_0_lt_compat. lra. }
  destruct (Rnd_finite_pos _ _ Hdiv ltac:(lra)) as (mt & et & Ht).
  pose proof (Rnd_error _ _ Hdiv ltac:(lra) ltac:(by rewrite Ht)) as Het.
  rewrite Heps in Het. apply Rabs_le_bounds in Het.
  assert (x * / 9007199254740992 <= / 9007199254740992)%R as Hxe.
  { rewrite <- (Rmult_1_l (/ 9007199254740992)) at 2. apply Rmult_le_compat_r; lra. }
  set (Tr := F2R (Prim2SF t)) in *.
  (* the product *)
  assert (Rnd (Tr * 255) (Prim2SF (t * 255))) as Hmul.
  { rewrite FloatAxioms.mul_spec. unfold SF64mul, Tr. rewrite <- F2R_255.
    apply SFmul_Rnd; try apply Prim2SF_valid; [by rewrite Ht|done]. }
  destruct (Rnd_finite_pos _ _ Hmul ltac:(lra)) as (mu & eu & Hu).
  pose proof (Rnd_error _ _ Hmul ltac:(lra) ltac:(by rewrite Hu)) as Heu.
  rewrite Heps in Heu. apply Rabs_le_bounds in Heu.
  assert (Tr * 255 * / 9007199254740992 <= 256 * / 9007199254740992)%R as Hye.
  { apply Rmult_le_compat_r; lra. }
  unfold scaled_int. fold t.
  apply (quantize_floor _ q mu eu Hu); [lia|].
  set (Ur := F2R (Prim2SF (t * 255))) in *. lra.
Qed.

(** X14.  Automatic scaling in integer arithmetic.  For an unsigned 16-bit
    raster, and for a signed one whose valid samples span less than 32768,
    the value stored for a valid sample [s] is the integer quotient of
    [255 * (s - min)] by [max - min], where [min] and [max] are the computed
    bounds; it is 0 when they are equal, and 0 for a sample that is not
    valid. *)
Theorem integer_scaling_quotient :
  (∀ (bands : ndarray uint16) nodata (lo hi : uint16),
     Forall (Forall (λ s, 0 ≤ u16 s ≤ 65535)) bands →
     scaling_domain bands nodata None None = Ok (Computed (NpScalar lo) (NpScalar hi)) →
     ∃ out, scale bands nodata None None = Ok out
       ∧ ∀ c i s, lookup2 bands c i = Some s →
           lookup2 out c i
           = Some (if valid_sample nodata s && negb (u16 hi =? u16 lo)
                   then 255 * (u16 s - u16 lo) / (u16 hi - u16 lo) else 0))
  ∧ (∀ (bands : ndarray int16) nodata (lo hi : int16),
       Forall (Forall (λ s, -32768 ≤ i16 s ≤ 32767)) bands →
       scaling_domain bands nodata None None = Ok (Computed (NpScalar lo) (NpScalar hi)) →
       i16 hi - i16 lo ≤ 32767 →
       ∃ out, scale bands nodata None None = Ok out
         ∧ ∀ c i s, lookup2 bands c i = Some s →
             lookup2 out c i
             = Some (if valid_sample nodata s && negb (i16 hi =? i16 lo)
                     then 255 * (i16 s - i16 lo) / (i16 hi - i16 lo) else 0)).
Proof.
  split.
  - intros bands nodata lo hi Hrange Hdom.
    destruct (scale_total bands nodata None None) as [out Hout].
    exists out. split; [done|]. intros c i s Hs.
    rewrite (scale_lookup _ _ _ _ _ _ c i Hdom Hout), Hs. simpl fmap. f_equal.
    change (degenerate (Computed (NpScalar lo) (NpScalar hi))) with (u16 hi =? u16 lo).
    destruct (valid_sample nodata s) eqn:Hv; simpl andb.
    2:{ rewrite to_uint8_clip_zero. by destruct (u16 hi =? u16 lo). }
    destruct (Z.eqb_spec (u16 hi) (u16 lo)) as [|Hne]; [done|]. simpl negb. cbv iota.
    destruct (uint16_min_max_joint bands nodata) as
      (l & h & Hjoint & (cl & il & Hl & Hvl) & (ch & ih & Hh & Hvh) & Hbounds); [by eauto|].
    unfold scaling_domain in Hdom. rewrite Hjoint in Hdom. simpl in Hdom.
    injection Hdom as -> ->.
    destruct (Hbounds _ _ _ Hs Hv) as [Hls Hsh].
    rewrite Forall_lookup2 in Hrange.
    pose proof (Hrange _ _ _ Hl) as Hlr. pose proof (Hrange _ _ _ Hh) as Hhr.
    destruct lo as [lo], hi as [hi], s as [s]. simpl in *.
    change (scaled_int (wrap_u16 (s - lo)) (wrap_u16 (hi - lo)) = 255 * (s - lo) / (hi - lo)).
    rewrite !wrap_u16_small by lia. apply scaled_int_floor; lia.
  - intros bands nodata lo hi Hrange Hdom Hspan.
    destruct (scale_total bands nodata None None) as [out Hout].
    exists out. split; [done|]. intros c i s Hs.
    rewrite (scale_lookup _ _ _ _ _ _ c i Hdom Hout), Hs. simpl fmap. f_equal.
    change (degenerate (Computed (NpScalar lo) (NpScalar hi))) with (i16 hi =? i16 lo).
    destruct (valid_sample nodata s) eqn:Hv; simpl andb.
    2:{ rewrite to_uint8_clip_zero. by destruct (i16 hi =? i16 lo). }
    destruct (Z.eqb_spec (i16 hi) (i16 lo)) as [|Hne]; [done|]. simpl negb. cbv iota.
    destruct (int16_min_max_joint bands nodata) as
      (l & h & Hjoint & (cl & il & Hl & Hvl) & (ch & ih & Hh & Hvh) & Hbounds); [by eauto|].
    unfold scaling_domain in Hdom. rewrite Hjoint in Hdom. simpl in Hdom.
    injection Hdom as -> ->.
    destruct (Hbounds _ _ _ Hs Hv) as [Hls Hsh].
    rewrite Forall_lookup2 in Hrange.
    pose proof (Hrange _ _ _ Hl) as Hlr. pose proof (Hrange _ _ _ Hh) as Hhr.
    destruct lo as [lo], hi as [hi], s as [s]. simpl in *.
    change (scaled_int (wrap_i16 (s - lo)) (wrap_i16 (hi - lo)) = 255 * (s - lo) / (hi - lo)).
    rewrite !wrap_i16_small by lia. apply scaled_int_floor; lia.
Qed.

Lemma integer_scaling_quotient_witness :
  ∃ out, scale [[U16 0; U16 10000]; [U16 500; U16 8000]; [U16 12000; U16 0]] (Some 0%float)
           None None = Ok out
    ∧ ∀ c i s,
        lookup2 [[U16 0; U16 10000]; [U16 500; U16 8000]; [U16 12000; U16 0]] c i = Some s →
        lookup2 out c i
        = Some (if valid_sample (Some 0%float) s && negb (u16 (U16 12000) =? u16 (U16 500))
                then 255 * (u16 s - u16 (U16 500)) / (u16 (U16 12000) - u16 (U16 500))
                else 0).
Proof.
  refine (proj1 integer_scaling_quotient
            [[U16 0; U16 10000]; [U16 500; U16 8000]; [U16 12000; U16 0]] (Some 0%float)
            (U16 500) (U16 12000) _ _).
  - repeat constructor; simpl; lia.
  - reflexivity.
Defined.

(** ** A provided domain of integers *)

Lemma F2R_opp (r : spec_float) : F2R (SFopp r) = (- F2R r)%R.
Proof. destruct r as [s|s| |[] m e]; simpl; lra. Qed.

Lemma float_of_Z_exact_signed (z : Z) :
  - 2 ^ 53 < z < 2 ^ 53 →
  is_finite_SF (Prim2SF (float_of_Z z)) = true ∧ F2R (Prim2SF (float_of_Z z)) = IZR z.
Proof.
  intros Hz. assert (2 ^ 53 < 2 ^ 63) as Hpow by (pow_consts; lia).
  destruct (Z_lt_le_dec z 0) as [Hneg|Hpos].
  - assert (float_of_Z z = (- float_of_Z (- z))%float) as ->.
    { unfold float_of_Z. destruct (Z.ltb_spec z 0); [|lia].
      destruct (Z.ltb_spec (- z) 0); [lia|done]. }
    rewrite FloatAxioms.opp_spec, F2R_opp, float_of_Z_exact by lia.
    destruct (float_of_Z_F2R_nonneg (- z) ltac:(lia)) as [Hf _].
    split; [|rewrite opp_IZR; lra].
    by destruct (Prim2SF (float_of_Z (- z))).
  - split; [apply float_of_Z_F2R_nonneg; lia|apply float_of_Z_exact; lia].
Qed.

Lemma float_of_Z_lt (a b : Z) :
  - 2 ^ 53 < a → a < b → b < 2 ^ 53 → fkey (float_of_Z a) < fkey (float_of_Z b).
Proof.
  intros Ha Hab Hb.
  destruct (float_of_Z_exact_signed a ltac:(lia)) as [Hfa HFa].
  destruct (float_of_Z_exact_signed b ltac:(lia)) as [Hfb HFb].
  destruct (Z_lt_le_dec (fkey (float_of_Z a)) (fkey (float_of_Z b))) as [|Hle]; [done|exfalso].
  apply key_le_F2R in Hle; try done; try apply Prim2SF_valid.
  rewrite HFa, HFb in Hle. apply le_IZR in Hle. lia.
Qed.

Lemma sub_int_exact_signed (a b : Z) :
  - 2 ^ 52 < b → b < a → a < 2 ^ 52 →
  (float_of_Z a - float_of_Z b)%float = float_of_Z (a - b).
Proof.
  intros Hb Hba Ha.
  assert (2 ^ 53 < 2 ^ 63 ∧ 2 ^ 53 = 2 * 2 ^ 52 ∧ 0 < 2 ^ 52) as (Hp63 & Hp53 & Hp52)
    by (pow_consts; lia).
  destruct (float_of_Z_exact_signed a ltac:(lia)) as [Hfa HFa].
  destruct (float_of_Z_exact_signed b ltac:(lia)) as [Hfb HFb].
  assert (Rnd (IZR (a - b)) (Prim2SF (float_of_Z a - float_of_Z b))) as Hsub.
  { rewrite FloatAxioms.sub_spec. unfold SF64sub. rewrite minus_IZR, <- HFa, <- HFb.
    apply SFsub_Rnd; try done; apply Prim2SF_valid. }
  pose proof (float_of_Z_Rnd (a - b) ltac:(lia)) as Hint.
  pose proof (Rnd_unique_key _ _ _ Hsub Hint) as Hk.
  apply key_inj in Hk; try apply Prim2SF_valid; try (by eapply Rnd_not_nan).
  destruct Hk as [Heq|(s1 & s2 & _ & Hz)]; [by apply Prim2SF_inj|].
  destruct (float_of_Z_pos (a - b) ltac:(lia)) as (m & e & Hpos). congruence.
Qed.

(** Integer samples against integer bounds: 0 up to the minimum, 255 from
    the maximum on, the integer quotient between them. *)
Lemma scaled_integer (m M z : Z) :
  - 2147483648 ≤ m → m < M → M ≤ 2147483648 →
  - 2147483648 ≤ z ≤ 2147483648 →
  quantize ((float_of_Z z - float_of_Z m) / (float_of_Z M - float_of_Z m) * 255)
  = if z <=? m then 0 else if M <=? z then 255 else 255 * (z - m) / (M - m).
Proof.
  intros Hm HmM HM Hz.
  assert (2147483648 < 2 ^ 52 ∧ 2 ^ 52 < 2 ^ 53 ∧ 2 ^ 53 < 2 ^ 63) as (Hp & Hp' & Hp'')
    by (pow_consts; lia).
  assert (PrimFloat.ltb (float_of_Z m) (float_of_Z M) = true) as Hlt.
  { rewrite ltb_key by (apply float_of_Z_not_nan; lia).
    apply Z.ltb_lt, float_of_Z_lt; lia. }
  destruct (scaled_saturation (float_of_Z m) (float_of_Z M) (float_of_Z z) Hlt)
    as (Hlow & Hhigh & _).
  destruct (Z.leb_spec z m) as [Hzm|Hzm].
  { apply Hlow, float_of_Z_leb; lia. }
  destruct (Z.leb_spec M z) as [HMz|HMz].
  { apply Hhigh; [|apply float_of_Z_leb; lia].
    rewrite sub_int_exact_signed by lia.
    by destruct (float_of_Z_pos (M - m) ltac:(lia)) as (mm & e & ->). }
  rewrite (sub_int_exact_signed z m), (sub_int_exact_signed M m) by lia.
  apply (scaled_int_floor (z - m) (M - m)); lia.
Qed.

(** X15.  A provided domain of integers on 16-bit samples.  With
    [--min m --max M], m < M integers (up to 2^31 in size), a valid sample
    [s] is stored as 0 when [s <= m], as 255 when [s >= M], and between
    them as the integer quotient of [255 * (s - m)] by [M - m]. *)
Theorem provided_integer_domain :
  (∀ (bands : ndarray uint16) nodata (m M : Z) c i (s : uint16),
     - 2147483648 ≤ m → m < M → M ≤ 2147483648 →
     lookup2 bands c i = Some s → 0 ≤ u16 s ≤ 65535 →
     valid_sample nodata s = true →
     ∃ out, scale bands nodata (Some (float_of_Z m)) (Some (float_of_Z M)) = Ok out
       ∧ lookup2 out c i
         = Some (if u16 s <=? m then 0 else if M <=? u16 s then 255
                 else 255 * (u16 s - m) / (M - m)))
  ∧ (∀ (bands : ndarray int16) nodata (m M : Z) c i (s : int16),
       - 2147483648 ≤ m → m < M → M ≤ 2147483648 →
       lookup2 bands c i = Some s → -32768 ≤ i16 s ≤ 32767 →
       valid_sample nodata s = true →
       ∃ out, scale bands nodata (Some (float_of_Z m)) (Some (float_of_Z M)) = Ok out
         ∧ lookup2 out c i
           = Some (if i16 s <=? m then 0 else if M <=? i16 s then 255
                   else 255 * (i16 s - m) / (M - m))).
Proof.
  assert (2147483648 < 2 ^ 52 ∧ 2 ^ 52 < 2 ^ 53 ∧ 2 ^ 53 < 2 ^ 63) as (Hp & Hp' & Hp'')
    by (pow_consts; lia).
  split.
  - intros bands nodata m M c i [s] Hm HmM HM Hs Hsr Hv. simpl in Hsr.
    assert (degenerate (T:=uint16) (Provided (float_of_Z m) (float_of_Z M)) = false) as Hdeg.
    { apply ltb_not_degenerate. rewrite ltb_key by (apply float_of_Z_not_nan; lia).
      apply Z.ltb_lt, float_of_Z_lt; lia. }
    destruct (scale_valid_lookup bands nodata (Some (float_of_Z m)) (Some (float_of_Z M))
                _ c i _ eq_refl Hdeg Hs Hv) as (out & Hout & Hl).
    exists out. split; [done|]. rewrite Hl. f_equal. simpl u16.
    apply (scaled_integer m M s); lia.
  - intros bands nodata m M c i [s] Hm HmM HM Hs Hsr Hv. simpl in Hsr.
    assert (degenerate (T:=int16) (Provided (float_of_Z m) (float_of_Z M)) = false) as Hdeg.
    { apply ltb_not_degenerate. rewrite ltb_key by (apply float_of_Z_not_nan; lia).
      apply Z.ltb_lt, float_of_Z_lt; lia. }
    destruct (scale_valid_lookup bands nodata (Some (float_of_Z m)) (Some (float_of_Z M))
                _ c i _ eq_refl Hdeg Hs Hv) as (out & Hout & Hl).
    exists out. split; [done|]. rewrite Hl. f_equal. simpl i16.
    apply (scaled_integer m M s); lia.
Qed.

Lemma provided_integer_domain_witness :
  ∃ out, scale [[U16 0; U16 10000]; [U16 500; U16 8000]; [U16 12000; U16 0]] None
           (Some (float_of_Z 0)) (Some (float_of_Z 10000)) = Ok out
    ∧ lookup2 out 1 1
      = Some (if u16 (U16 8000) <=? 0 then 0 else if 10000 <=? u16 (U16 8000) then 255
              else 255 * (u16 (U16 8000) - 0) / (10000 - 0)).
Proof.
  refine (proj1 provided_integer_domain
            [[U16 0; U16 10000]; [U16 500; U16 8000]; [U16 12000; U16 0]] None
            0 10000 1%nat 1%nat (U16 8000) _ _ _ _ _ _); try reflexivity; simpl; lia.
Defined.

(** ** The scaling formula on the values of the samples *)

(** The same as [uint16_sample_agree] for signed samples that span less
    than 32768. *)
Lemma int16_sample_agree (lo hi s : Z) :
  -32768 ≤ lo → lo ≤ s → s ≤ hi → hi ≤ 32767 → lo < hi → hi - lo ≤ 32767 →
  quantize (scaled (Computed (NpScalar (I16 lo)) (NpScalar (I16 hi))) (I16 s))
  = quantize (scaled (T:=int16) (Provided (float_of_Z lo) (float_of_Z hi)) (I16 s)).
Proof.
  intros Hlo Hls Hsh Hhi Hlt Hspan.
  assert (32768 < 2 ^ 52 ∧ 2 ^ 52 < 2 ^ 63) as [Hp Hp'] by (pow_consts; lia).
  change (quantize (float_of_Z (wrap_i16 (s - lo)) / float_of_Z (wrap_i16 (hi - lo)) * 255)
          = quantize ((float_of_Z s - float_of_Z lo) / (float_of_Z hi - float_of_Z lo) * 255)).
  rewrite !wrap_i16_small by lia.
  rewrite (sub_int_exact_signed hi lo) by lia.
  destruct (float_of_Z_pos (hi - lo)) as (m & e & Hd); [lia|].
  destruct (decide (s = lo)) as [->|Hne].
  - rewrite Z.sub_diag.
    destruct (float_of_Z_exact_signed lo) as [Hf _]; [pow_consts; lia|].
    destruct (sub_self (float_of_Z lo) Hf) as [s0 Hz].
    rewrite (scaled_bottom (float_of_Z 0) _ false false m e eq_refl Hd).
    by rewrite (scaled_bottom _ _ s0 false m e Hz Hd).
  - by rewrite (sub_int_exact_signed s lo) by lia.
Qed.




(** ** The domain computed from the data *)




(** ** The world file, by its name and its lines *)

(** The world file where it can be created: the write and the six lines. *)
Lemma create_world_file_writes {T : Type} `{Dtype T} (float_repr : float → string)
    (transform : Affine.t) (output_path : string) (w : world (T:=T)) :
  (∀ x, contains (Ascii.ascii_of_nat 10) (float_repr x) = false) →
  creatable (fs w) ((splitext output_path).1 +++ ".tfw") = true →
  ∃ content,
    create_world_file float_repr transform output_path w
    = (Ok ((splitext output_path).1 +++ ".tfw"),
       World (<[(splitext output_path).1 +++ ".tfw" := TextFile content]> (fs w))
             (trace w ++ [EvCreate ((splitext output_path).1 +++ ".tfw")]) (stderr w))
    ∧ split_on (Ascii.ascii_of_nat 10) content
      = [float_repr (Affine.a transform); float_repr (Affine.b transform);
         float_repr (Affine.d transform); float_repr (Affine.e transform);
         float_repr (Affine.c transform); float_repr (Affine.f transform);
         EmptyString].
Proof.
  intros Hrepr Hcan. eexists. split.
  - unfold create_world_file, bind_io, store, ret. rewrite Hcan. reflexivity.
  - unfold newline. rewrite append_nil.
    rewrite !str_app_assoc, !append_cons, !append_nil.
    repeat (rewrite split_on_segment by apply Hrepr). done.
Qed.

(** C10.  Whatever the transform, where the world file can be created it is
    written next to the output.  Its path is the output path with the
    extension of its last component replaced by [.tfw]: the part from the
    last dot on, provided a character other than a dot comes before it in
    that component; without such an extension [.tfw] is added to the whole
    path.  Its text, split at the newlines, is the six coefficients in the
    order a, b, d, e, c, f (pixel width, row rotation, column rotation, pixel
    height, origin x, origin y), each followed by a newline, provided the
    formatting of a float has no newline in it. *)
Theorem world_file_written {T : Type} `{Dtype T} (float_repr : float → string)
    (transform : Affine.t) (w : world (T:=T)) :
  (∀ x, contains (Ascii.ascii_of_nat 10) (float_repr x) = false) →
  (∀ dir stem e : string,
     dir = EmptyString ∨ (∃ d, dir = d +++ "/") →
     contains "/" stem = false →
     (∃ j x, String.get j stem = Some x ∧ x ≠ "."%char) →
     contains "." e = false → contains "/" e = false →
     creatable (fs w) ((dir +++ stem) +++ ".tfw") = true →
     ∃ content,
       create_world_file float_repr transform (dir +++ stem +++ String "." e) w
       = (Ok ((dir +++ stem) +++ ".tfw"),
          World (<[(dir +++ stem) +++ ".tfw" := TextFile content]> (fs w))
                (trace w ++ [EvCreate ((dir +++ stem) +++ ".tfw")]) (stderr w))
       ∧ split_on (Ascii.ascii_of_nat 10) content
         = [float_repr (Affine.a transform); float_repr (Affine.b transform);
            float_repr (Affine.d transform); float_repr (Affine.e transform);
            float_repr (Affine.c transform); float_repr (Affine.f transform);
            EmptyString])
  ∧ (∀ (dir rest : string) (n : nat),
       dir = EmptyString ∨ (∃ d, dir = d +++ "/") →
       contains "." rest = false → contains "/" rest = false →
       creatable (fs w) ((dir +++ dots n +++ rest) +++ ".tfw") = true →
       ∃ content,
         create_world_file float_repr transform (dir +++ dots n +++ rest) w
         = (Ok ((dir +++ dots n +++ rest) +++ ".tfw"),
            World (<[(dir +++ dots n +++ rest) +++ ".tfw" := TextFile content]> (fs w))
                  (trace w ++ [EvCreate ((dir +++ dots n +++ rest) +++ ".tfw")]) (stderr w))
         ∧ split_on (Ascii.ascii_of_nat 10) content
           = [float_repr (Affine.a transform); float_repr (Affine.b transform);
              float_repr (Affine.d transform); float_repr (Affine.e transform);
              float_repr (Affine.c transform); float_repr (Affine.f transform);
              EmptyString]).
Proof.
  intros Hrepr. split.
  - intros dir stem e Hdir Hstem Hname He1 He2 Hcan.
    pose proof (create_world_file_writes float_repr transform
                  (dir +++ stem +++ String "." e) w Hrepr) as Hwrite.
    rewrite (splitext_with_extension dir stem e Hdir Hstem Hname He1 He2) in Hwrite.
    exact (Hwrite Hcan).
  - intros dir rest n Hdir Hr1 Hr2 Hcan.
    pose proof (create_world_file_writes float_repr transform
                  (dir +++ dots n +++ rest) w Hrepr) as Hwrite.
    rewrite (splitext_without_extension dir rest n Hdir Hr1 Hr2) in Hwrite.
    exact (Hwrite Hcan).
Qed.

Lemma world_file_written_witness :
  ∃ content,
    create_world_file example_repr example_transform "out/rgb.v2.tif" example_world
    = (Ok "out/rgb.v2.tfw",
       World (<["out/rgb.v2.tfw" := TextFile content]> (fs example_world))
             (trace example_world ++ [EvCreate "out/rgb.v2.tfw"]) (stderr example_world))
    ∧ split_on (Ascii.ascii_of_nat 10) content
      = ["30.0"; "0.0"; "0.0"; "-30.0"; "500000.0"; "4100000.0"; EmptyString].
Proof.
  refine (proj1 (world_file_written example_repr example_transform example_world _)
            "out/" "rgb.v2" "tif" _ _ _ _ _ _); try reflexivity.
  - intros x. unfold example_repr.
    repeat (match goal with |- context [PrimFloat.eqb x ?y] => destruct (PrimFloat.eqb x y) end);
      reflexivity.
  - right. by exists "out".
  - exists 0%nat, "r"%char. split; [reflexivity|discriminate].
Defined.
